(** * Railway Monitor for VS Code: state tracking and change detection

    A shallow embedding of the TypeScript sources
      - [railway-api.ts]              (class [RailwayAPI]),
      - [deployment-tree-provider.ts] (classes [DeploymentTreeItem] and
                                       [DeploymentTreeDataProvider]),
      - [log-viewer.ts]               (class [LogViewerPanel]),
    followed by the properties of the specification that concern them.

    Conventions of the embedding:
      - JavaScript values that come from the network are untyped at run time
        and are modelled by [JS.Value]; entities that the tree provider
        handles under a TypeScript interface are records;
      - a method that mutates [this] takes the object state and returns the
        new one; what it does to the outside world (HTTP requests, messages
        shown by the host, timers) is returned as a trace of [Effect]s, in
        program order;
      - [await] is sequencing; [console.log] and [console.error] are not
        part of the trace (their arguments are checked not to throw where
        they are evaluated). *)

From Stdlib Require Import ZArith String Ascii List Bool Lia.
From stdpp Require Import base option list gmap strings pretty.

Local Open Scope string_scope.
Local Open Scope list_scope.
Local Open Scope nat_scope.

(* ===================================================================== *)
(** * JavaScript values, errors and completions                           *)
(* ===================================================================== *)

Module JS.
#[local] Set Warnings "-register-all".

(** A value as [JSON.parse] (or axios, for a body that is not JSON)
    delivers it.  Numbers are restricted to integers: the sources only
    test them for truthiness. Object fields are kept in insertion order;
    [field] reads the first binding of a key. *)
Inductive Value : Type :=
| Undefined
| Null
| Bool (b : bool)
| Num (n : Z)
| Str (s : string)
| Arr (xs : list Value)
| Obj (fields : list (string * Value)).

(** What an HTTP reply carries on a rejected axios promise:
    [error.response.status] and [error.response.data]. *)
Record Response : Type := { status : Z; data : Value }.

(** A thrown [Error] object: axios errors carry [response] when the
    server answered; a [TypeError] raised by the engine has none. *)
Record Error : Type :=
  { name : string; message : string; response : option Response }.

(** Outcome of evaluating a piece of code. *)
Inductive Completion (A : Type) : Type :=
| Normal (a : A)
| Throw (e : Error).
Arguments Normal {A} a.
Arguments Throw {A} e.

Definition TypeError (msg : string) : Error :=
  {| name := "TypeError"; message := msg; response := None |}.

(** [ToBoolean]. *)
Definition truthy (v : Value) : bool :=
  match v with
  | Undefined | Null => false
  | Bool b => b
  | Num n => negb (n =? 0)%Z
  | Str s => negb (String.eqb s "")
  | Arr _ | Obj _ => true
  end.

(** [a || b]. *)
Definition or_else (a b : Value) : Value := if truthy a then a else b.

Fixpoint field (k : string) (fs : list (string * Value)) : Value :=
  match fs with
  | [] => Undefined
  | (k', v) :: fs' => if String.eqb k k' then v else field k fs'
  end.

Definition type_name (v : Value) : string :=
  match v with Null => "null" | _ => "undefined" end.

(** [v.p] for the property names the sources read ([errors], [data],
    [edges], [node], [message], ...): none of them lives on the prototype
    of a string, number, boolean or array, so only an object can answer;
    [null] and [undefined] throw. *)
Definition get (v : Value) (p : string) : Completion Value :=
  match v with
  | Undefined | Null =>
      Throw (TypeError ("Cannot read properties of " +:+ type_name v
                          +:+ " (reading '" +:+ p +:+ "')"))
  | Obj fs => Normal (field p fs)
  | _ => Normal Undefined
  end.

(** [v?.p]: short-circuits to [undefined] on [null] and [undefined]. *)
Definition opt_get (v : Value) (p : string) : Value :=
  match v with
  | Obj fs => field p fs
  | _ => Undefined
  end.

(** [v?.p1?.p2?. ... ?.pn]. *)
Definition opt_path (v : Value) (ps : list string) : Value :=
  fold_left opt_get ps v.

(** [v[0]] on a value that is neither [null] nor [undefined]. *)
Definition index0 (v : Value) : Value :=
  match v with
  | Arr xs => match xs with x :: _ => x | [] => Undefined end
  | Str s => match s with String c _ => Str (String c EmptyString) | EmptyString => Undefined end
  | Obj fs => field "0" fs
  | _ => Undefined
  end.

(** ASCII letters only; the text searched for below is ASCII. *)
Definition lower_ascii (c : ascii) : ascii :=
  let n := nat_of_ascii c in
  if (65 <=? n)%nat && (n <=? 90)%nat then ascii_of_nat (n + 32) else c.

Fixpoint lower (s : string) : string :=
  match s with
  | EmptyString => EmptyString
  | String c s' => String (lower_ascii c) (lower s')
  end.

(** [s.includes(t)]. *)
Fixpoint includes (s t : string) : bool :=
  String.prefix t s ||
  match s with
  | EmptyString => false
  | String _ s' => includes s' t
  end.

(** [v.toLowerCase()] on a truthy value: only strings have the method. *)
Definition toLowerCase (what : string) (v : Value) : Completion string :=
  match v with
  | Str s => Normal (lower s)
  | Undefined | Null =>
      Throw (TypeError ("Cannot read properties of " +:+ type_name v
                          +:+ " (reading 'toLowerCase')"))
  | _ => Throw (TypeError (what +:+ ".toLowerCase is not a function"))
  end.

(** [String(error)] for an [Error] object. *)
Definition error_to_string (e : Error) : string :=
  if String.eqb (message e) "" then name e
  else name e +:+ ": " +:+ message e.

(** [`${error.message || error}`]. *)
Definition message_or_error (e : Error) : string :=
  if String.eqb (message e) "" then error_to_string e else message e.

(** Own enumerable properties copied by [{...v}]. *)
Fixpoint indexed (i : nat) (xs : list Value) : list (string * Value) :=
  match xs with
  | [] => []
  | x :: xs' => (pretty i, x) :: indexed (S i) xs'
  end.

Fixpoint chars (s : string) : list Value :=
  match s with
  | EmptyString => []
  | String c s' => Str (String c EmptyString) :: chars s'
  end.

Definition spread (v : Value) : list (string * Value) :=
  match v with
  | Obj fs => fs
  | Arr xs => indexed 0 xs
  | Str s => indexed 0 (chars s)
  | _ => []
  end.

(** [o[k] = v] inside an object literal: an existing key keeps its place. *)
Fixpoint set_field (k : string) (v : Value) (fs : list (string * Value))
  : list (string * Value) :=
  match fs with
  | [] => [(k, v)]
  | (k', v') :: fs' =>
      if String.eqb k k' then (k, v) :: fs' else (k', v') :: set_field k v fs'
  end.

(** [xs.map(f)] where [f] may throw: stops at the first exception. *)
Fixpoint map_completion {A B} (f : A -> Completion B) (xs : list A)
  : Completion (list B) :=
  match xs with
  | [] => Normal []
  | x :: xs' =>
      match f x with
      | Throw e => Throw e
      | Normal y =>
          match map_completion f xs' with
          | Throw e => Throw e
          | Normal ys => Normal (y :: ys)
          end
      end
  end.

(** [v.map(f)] on a truthy value: only arrays have the method. *)
Definition array_map (what : string) (f : Value -> Completion Value) (v : Value)
  : Completion (list Value) :=
  match v with
  | Arr xs => map_completion f xs
  | Undefined | Null =>
      Throw (TypeError ("Cannot read properties of " +:+ type_name v
                          +:+ " (reading 'map')"))
  | _ => Throw (TypeError (what +:+ ".map is not a function"))
  end.

End JS.

(* ===================================================================== *)
(** * What the extension does to its host                                 *)
(* ===================================================================== *)

Module Host.

(** The GraphQL documents of [railway-api.ts], by the name of the constant
    (or the comment) that introduces each. *)
Inductive Query : Type :=
| universalQuery            (* getProjects: projects { edges { node } } *)
| personalQuery             (* getProjects: me { projects { ... } } *)
| environmentsQuery         (* getProjectEnvironments *)
| servicesQuery             (* getServices *)
| deploymentsQuery          (* getDeployments: deployments(input, first) *)
| alternativeQuery          (* getDeployments: service { deployments } *)
| deploymentLogsQuery       (* getDeploymentLogs, query 1 *)
| deploymentObjectLogsQuery (* getDeploymentLogs, query 2 *)
| buildLogsQuery.           (* getDeploymentLogs, query 3 *)

(** The body of [apiClient.post('', { query, variables })]. *)
Record Request : Type :=
  { query : Query; variables : list (string * JS.Value) }.

(** A method of [RailwayAPI] called by the tree provider. *)
Inductive ApiCall : Type :=
| callGetProjects
| callGetProjectEnvironments (projectId : string)
| callGetServices (projectId : string)
| callGetDeployments (serviceId environmentId : string)
| callGetDeploymentLogs (deploymentId : string) (limit : Z)
| callGetApplicationLogs (serviceId environmentId : option string) (limit : Z).

Inductive Effect : Type :=
| Post (r : Request)
| Call (c : ApiCall)
| ShowInformationMessage (msg : string) (items : list string)
| ShowWarningMessage (msg : string) (items : list string)
| ShowErrorMessage (msg : string) (items : list string)
| FireTreeDataChanged
| CreateWebviewPanel (title : string)
| RevealPanel
| SetPanelTitle (title : string)
| DisposePanel
| PostMessage (command : string)
| SetInterval (handle : nat) (ms : Z)
| ClearInterval (handle : nat).

(** The remote end for the time of one method call: what the promise of
    [apiClient.post] settles to, [Normal d] for a reply whose
    [response.data] is [d], [Throw e] for a rejection. *)
Definition Remote : Type := Request -> JS.Completion JS.Value.

(** Code with a trace: everything emitted so far is kept when it throws. *)
Definition M (A : Type) : Type := list Effect * JS.Completion A.

Definition ret {A} (a : A) : M A := ([], JS.Normal a).

Definition bind {A B} (m : M A) (f : A -> M B) : M B :=
  match m with
  | (t, JS.Normal a) => let '(t', r) := f a in (t ++ t', r)
  | (t, JS.Throw e) => (t, JS.Throw e)
  end.

Definition emit (e : Effect) : M unit := ([e], JS.Normal tt).

Definition lift {A} (c : JS.Completion A) : M A := ([], c).

(** [try { body } catch (error) { handler }]. *)
Definition try_catch {A} (body : M A) (handler : JS.Error -> M A) : M A :=
  match body with
  | (t, JS.Throw e) => let '(t', r) := handler e in (t ++ t', r)
  | (t, JS.Normal a) => (t, JS.Normal a)
  end.

(** [await this.apiClient.post('', r)]. *)
Definition post (remote : Remote) (r : Request) : M JS.Value :=
  ([Post r], remote r).

Definition trace {A} (m : M A) : list Effect := fst m.
Definition outcome {A} (m : M A) : JS.Completion A := snd m.

End Host.

Declare Scope js_scope.
Delimit Scope js_scope with js.
Notation "'let*' x := m 'in' k" := (Host.bind m (fun x => k))
  (at level 10, x name, m at level 100, k at level 200) : js_scope.
Notation "'do' m 'then' k" := (Host.bind m (fun _ => k))
  (at level 10, m at level 100, k at level 200) : js_scope.

(* ===================================================================== *)
(** * railway-api.ts: class RailwayAPI                                     *)
(* ===================================================================== *)

Module RailwayAPI.
Import JS Host.
Local Open Scope js_scope.

Definition showErrorMessage (msg : string) : M unit := emit (ShowErrorMessage msg []).
Definition showWarningMessage (msg : string) : M unit := emit (ShowWarningMessage msg []).

(** [edges.map((edge: any) => edge.node)]. *)
Definition nodes (what : string) (edges : Value) : M (list Value) :=
  lift (array_map what (fun edge => get edge "node") edges).

(** [{ ...node, k1: v1, ..., kn: vn }]. *)
Definition object_with (node : Value) (extra : list (string * Value)) : Value :=
  Obj (fold_left (fun fs kv => set_field (fst kv) (snd kv) fs) extra (spread node)).

(** [edges.map((edge: any) => ({ ...edge.node, k1: v1, ... }))]. *)
Definition nodes_with (what : string) (extra : list (string * Value)) (edges : Value)
  : M (list Value) :=
  lift (array_map what
          (fun edge =>
             match get edge "node" with
             | Throw e => Throw e
             | Normal node => Normal (object_with node extra)
             end)
          edges).

(** The tail of the [try] block of [getProjects], from the comment
    "Universal query succeeded" on; [response_data] is [response.data] of
    whichever reply [response] holds at that point. *)
Definition getProjects_universal (response_data : Value) : M (list Value) :=
  let edges := opt_path response_data ["data"; "projects"; "edges"] in
  if truthy edges then nodes "response.data.data.projects.edges" edges
  else
    do showErrorMessage "No projects found. Make sure your token has access to projects."
    then ret [].

(** The [catch] block of [getProjects]. *)
Definition getProjects_catch (error : Error) : M (list Value) :=
  do match response error with
     | Some r =>
         if (status r =? 401)%Z || (status r =? 403)%Z then
           showErrorMessage "Railway API authentication failed. Please check your API token."
         else
           match data r with
           | Str s =>
               if truthy (Str s) && includes s "<html" then
                 showErrorMessage "Railway API returned an error page. Please check your API token and try again."
               else showErrorMessage ("Failed to fetch projects: " +:+ message_or_error error)
           | _ => showErrorMessage ("Failed to fetch projects: " +:+ message_or_error error)
           end
     | None => showErrorMessage ("Failed to fetch projects: " +:+ message_or_error error)
     end
  then ret [].

Definition getProjects (remote : Remote) : M (list Value) :=
  try_catch
    (let* response_data := post remote {| query := universalQuery; variables := [] |} in
     let* errors := lift (get response_data "errors") in
     if truthy errors then
       let* response_data := post remote {| query := personalQuery; variables := [] |} in
       let* errors := lift (get response_data "errors") in
       if truthy errors then
         let errorMsg := or_else (opt_get (index0 errors) "message") (Str "Unknown error") in
         let* lowered := lift (toLowerCase "errorMsg" errorMsg) in
         do (if negb (includes lowered "not authorized") then
               match errorMsg with
               | Str s => showErrorMessage ("Railway API error: " +:+ s)
               | _ => ret tt
               end
             else ret tt)
         then ret []
       else
         let edges := opt_path response_data ["data"; "me"; "projects"; "edges"] in
         if truthy edges then nodes "response.data.data.me.projects.edges" edges
         else getProjects_universal response_data
     else getProjects_universal response_data)
    getProjects_catch.


(** [getProjectEnvironments] and [getServices] differ in the query, in the
    field read under [project] and in the text of the error message. *)
Definition getProjectChildren (q : Query) (field_name what : string)
    (remote : Remote) (projectId : string) : M (list Value) :=
  try_catch
    (let* response_data :=
       post remote {| query := q; variables := [("projectId", Str projectId)] |} in
     let* errors := lift (get response_data "errors") in
     if truthy errors then ret []
     else
       let edges := opt_path response_data ["data"; "project"; field_name; "edges"] in
       if negb (truthy edges) then ret []
       else nodes_with ("response.data.data.project." +:+ field_name +:+ ".edges")
                       [("projectId", Str projectId)] edges)
    (fun error =>
       do showErrorMessage ("Failed to fetch " +:+ what +:+ ": " +:+ message_or_error error)
       then ret []).

Definition getProjectEnvironments : Remote -> string -> M (list Value) :=
  getProjectChildren environmentsQuery "environments" "environments".

Definition getServices : Remote -> string -> M (list Value) :=
  getProjectChildren servicesQuery "services" "services".

(** The tail of the [try] block of [getDeployments], from the comment
    "First query succeeded" on. *)
Definition getDeployments_first (serviceId environmentId : string)
    (response_data : Value) : M (list Value) :=
  let edges := opt_path response_data ["data"; "deployments"; "edges"] in
  if truthy edges then
    nodes_with "response.data.data.deployments.edges"
               [("serviceId", Str serviceId); ("environmentId", Str environmentId)] edges
  else ret [].

Definition getDeployments (remote : Remote) (serviceId environmentId : string)
  : M (list Value) :=
  try_catch
    (let* response_data :=
       post remote {| query := deploymentsQuery;
                      variables := [("serviceId", Str serviceId);
                                    ("environmentId", Str environmentId);
                                    ("first", Num 10)] |} in
     let* errors := lift (get response_data "errors") in
     if truthy errors then
       let* response_data :=
         post remote {| query := alternativeQuery;
                        variables := [("serviceId", Str serviceId);
                                      ("environmentId", Str environmentId)] |} in
       let* errors := lift (get response_data "errors") in
       if truthy errors then ret []
       else
         let edges := opt_path response_data ["data"; "service"; "deployments"; "edges"] in
         if truthy edges then
           nodes_with "response.data.data.service.deployments.edges"
                      [("serviceId", Str serviceId); ("environmentId", Str environmentId)] edges
         else getDeployments_first serviceId environmentId response_data
     else getDeployments_first serviceId environmentId response_data)
    (fun error => ret []).

(** The three [extractor]s of [getDeploymentLogs]. *)
Definition extractor (q : Query) (data : Value) : Completion Value :=
  match q with
  | deploymentLogsQuery => Normal (opt_get data "deploymentLogs")
  | deploymentObjectLogsQuery => Normal (opt_path data ["deployment"; "logs"])
  | buildLogsQuery =>
      let logs := opt_path data ["deployment"; "buildLogs"] in
      if truthy logs then
        match array_map "logs"
                (fun log => Normal (object_with log [("severity", Str "info")])) logs with
        | Normal xs => Normal (Arr xs)
        | Throw e => Throw e
        end
      else Normal Null
  | _ => Normal Undefined
  end.

(** One turn of the [for (const { query, extractor } of queries)] loop:
    [Some logs] when the body executes [return logs]. *)
Definition getDeploymentLogs_attempt (remote : Remote) (deploymentId : string)
    (limit : Z) (q : Query) : M (option Value) :=
  try_catch
    (let* response_data :=
       post remote {| query := q;
                      variables := [("deploymentId", Str deploymentId);
                                    ("limit", Num limit)] |} in
     let* errors := lift (get response_data "errors") in
     if negb (truthy errors) then
       let* data := lift (get response_data "data") in
       if truthy data then
         let* logs := lift (extractor q data) in
         if truthy logs then ret (Some logs) else ret None
       else ret None
     else ret None)
    (fun error => ret None).

Fixpoint getDeploymentLogs_loop (remote : Remote) (deploymentId : string)
    (limit : Z) (queries : list Query) : M Value :=
  match queries with
  | [] =>
      do showWarningMessage
           "Unable to fetch deployment logs. The logs may not be available yet."
      then ret (Arr [])
  | q :: queries' =>
      let* found := getDeploymentLogs_attempt remote deploymentId limit q in
      match found with
      | Some logs => ret logs
      | None => getDeploymentLogs_loop remote deploymentId limit queries'
      end
  end.

(** The result is whatever truthy value the extractor found, an array when
    the remote keeps to the schema. *)
Definition getDeploymentLogs (remote : Remote) (deploymentId : string) (limit : Z)
  : M Value :=
  getDeploymentLogs_loop remote deploymentId limit
    [deploymentLogsQuery; deploymentObjectLogsQuery; buildLogsQuery].

(** ** Failures, as the client tells them apart *)

(** [edges] is an array none of whose elements is [null] or [undefined]:
    what [edges.map(edge => ... edge.node ...)] needs to go through. *)
Definition mappable (edges : Value) : bool :=
  match edges with
  | Arr xs => forallb (λ edge, match edge with Undefined | Null => false | _ => true end) xs
  | _ => false
  end.

(** The first of the shapes [paths] that the reply has, if any: the edges
    the method goes on to map. *)
Fixpoint probe (paths : list (list string)) (response_data : Value) : option Value :=
  match paths with
  | [] => None
  | path :: paths' =>
      if truthy (opt_path response_data path) then Some (opt_path response_data path)
      else probe paths' response_data
  end.

(** A reply carries GraphQL errors. *)
Definition errors_present (reply : Completion Value) : bool :=
  match reply with
  | Normal response_data =>
      match get response_data "errors" with
      | Normal errors => truthy errors
      | Throw _ => false
      end
  | Throw _ => false
  end.

(** A failed request: the transport threw; the reply has no body to read; it
    carries errors; or it has none of the expected shapes, or edges that
    cannot be mapped. *)
Definition failed (paths : list (list string)) (reply : Completion Value) : bool :=
  match reply with
  | Throw _ => true
  | Normal response_data =>
      match get response_data "errors" with
      | Throw _ => true
      | Normal errors =>
          truthy errors ||
          match probe paths response_data with
          | None => true
          | Some edges => negb (mappable edges)
          end
      end
  end.

(** A failed log request: as above, with the extractor of the query in the
    place of the edges. *)
Definition logs_failed (q : Query) (reply : Completion Value) : bool :=
  match reply with
  | Throw _ => true
  | Normal response_data =>
      match get response_data "errors" with
      | Throw _ => true
      | Normal errors =>
          truthy errors || negb (truthy (opt_get response_data "data")) ||
          match extractor q (opt_get response_data "data") with
          | Normal logs => negb (truthy logs)
          | Throw _ => true
          end
      end
  end.

Definition environments_request (projectId : string) : Request :=
  {| query := environmentsQuery; variables := [("projectId", Str projectId)] |}.
Definition deployments_request (serviceId environmentId : string) : Request :=
  {| query := deploymentsQuery;
     variables := [("serviceId", Str serviceId); ("environmentId", Str environmentId);
                   ("first", Num 10)] |}.
Definition alternative_request (serviceId environmentId : string) : Request :=
  {| query := alternativeQuery;
     variables := [("serviceId", Str serviceId); ("environmentId", Str environmentId)] |}.
Definition logs_request (q : Query) (deploymentId : string) (limit : Z) : Request :=
  {| query := q; variables := [("deploymentId", Str deploymentId); ("limit", Num limit)] |}.

(** ** Rejected credentials *)

Definition universal_request : Request := {| query := universalQuery; variables := [] |}.
Definition personal_request : Request := {| query := personalQuery; variables := [] |}.

(** [error.response?.status === 401 || error.response?.status === 403]. *)
Definition rejects_credentials (e : Error) : bool :=
  match response e with
  | Some r => (status r =? 401)%Z || (status r =? 403)%Z
  | None => false
  end.

(** A reply with GraphQL errors of which the first says "not authorized",
    in any case of the letters: the test of [getProjects] before it shows
    an error. *)
Definition not_authorized (reply : Completion Value) : bool :=
  match reply with
  | Normal response_data =>
      match get response_data "errors" with
      | Normal errors =>
          truthy errors &&
          match or_else (opt_get (index0 errors) "message") (Str "Unknown error") with
          | Str s => includes (lower s) "not authorized"
          | _ => false
          end
      | Throw _ => false
      end
  | Throw _ => false
  end.

(** The message of the [catch] block of [getProjects] for a reply with
    status 401 or 403. *)
Definition authentication_failed : Effect :=
  ShowErrorMessage "Railway API authentication failed. Please check your API token." [].

Definition is_error_message (e : Effect) : bool :=
  match e with ShowErrorMessage _ _ => true | _ => false end.


End RailwayAPI.

(* ===================================================================== *)
(** * Timers of the extension host                                        *)
(* ===================================================================== *)

Module Timers.

(** The host's table of running intervals. [setInterval] hands out a fresh
    handle (a [Timeout] object, always truthy); [clearInterval] on a handle
    that is not running does nothing. *)
Record t : Type := { active : gset nat; next : nat }.

Definition empty : t := {| active := ∅; next := 0 |}.

Definition setInterval (tm : t) : nat * t :=
  (next tm, {| active := {[ next tm ]} ∪ active tm; next := S (next tm) |}).

Definition clearInterval (h : nat) (tm : t) : t :=
  {| active := active tm ∖ {[ h ]}; next := next tm |}.

(** Handles are handed out in increasing order. *)
Definition wf (tm : t) : Prop := ∀ h, h ∈ active tm → h < next tm.

End Timers.

(* ===================================================================== *)
(** * deployment-tree-provider.ts                                         *)
(* ===================================================================== *)

Module TreeProvider.
Import Host.

(** [RailwayDeployment['status']]. *)
Inductive DeploymentStatus : Type :=
| BUILDING | DEPLOYING | SUCCESS | FAILED | CANCELLED | CRASHED | REMOVED | REMOVING.

#[global] Instance DeploymentStatus_eq_dec : EqDecision DeploymentStatus.
Proof. solve_decision. Defined.

(** The string each status is at run time. *)
Definition status_string (s : DeploymentStatus) : string :=
  match s with
  | BUILDING => "BUILDING" | DEPLOYING => "DEPLOYING" | SUCCESS => "SUCCESS"
  | FAILED => "FAILED" | CANCELLED => "CANCELLED" | CRASHED => "CRASHED"
  | REMOVED => "REMOVED" | REMOVING => "REMOVING"
  end.

(** The interfaces of [railway-api.ts]; field names carry the interface as
    a prefix ([project_id] is [RailwayProject.id]). *)
Record RailwayProject : Type :=
  { project_id : string; project_name : string;
    project_description : option string;
    project_createdAt : string; project_updatedAt : string }.

Record RailwayEnvironment : Type :=
  { environment_id : string; environment_name : string;
    environment_projectId : string }.

Record RailwayService : Type :=
  { service_id : string; service_name : string; service_projectId : string }.

Record RailwayDeployment : Type :=
  { deployment_id : string; deployment_status : DeploymentStatus;
    deployment_staticUrl : option string;
    deployment_createdAt : string; deployment_updatedAt : string;
    deployment_serviceId : string; deployment_environmentId : string }.

(** [RailwayAPI] as the provider sees it, through the signatures of its
    methods: each returns an array and none rejects (every one of them
    wraps its body in [try]/[catch]). The record stands for the answers the
    remote would give at the time of the call. *)
Record Api : Type :=
  { getProjects : list RailwayProject;
    getProjectEnvironments : string -> list RailwayEnvironment;
    getServices : string -> list RailwayService;
    getDeployments : string -> string -> list RailwayDeployment }.

(** Date formatting and the wall clock, which belong to the host's locale:
    [toLocaleTimeString s] is [new Date(s).toLocaleTimeString()] and [now]
    is [new Date().toLocaleTimeString()]. *)
Record Clock : Type :=
  { toLocaleTimeString : string -> string;
    toLocaleString : string -> string;
    now : string }.

(** ** class DeploymentTreeItem *)

Inductive ItemType : Type := project | environment | service | deployment.

Definition itemType_string (ty : ItemType) : string :=
  match ty with
  | project => "project" | environment => "environment"
  | service => "service" | deployment => "deployment"
  end.

Inductive CollapsibleState : Type := NoChildren | Collapsed.

(** The [data] of an item ([any] in the source), by the call site of
    [getChildren] that builds it:
    a project; [{ ...env, projectId }]; [serviceData], a service with
    [environmentId], [serviceId] and [name] added; a deployment. *)
Inductive ItemData : Type :=
| ProjectData (p : RailwayProject)
| EnvironmentData (e : RailwayEnvironment) (projectId : string)
| ServiceData (s : RailwayService) (environmentId : string)
| DeploymentData (d : RailwayDeployment).

Record Command : Type :=
  { command : string; title : string; arguments : list ItemData }.

Record ThemeIcon : Type := { icon : string; color : option string }.

Record DeploymentTreeItem : Type :=
  { label : string;
    collapsibleState : CollapsibleState;
    itemType : ItemType;
    data : option ItemData;
    item_command : option Command;
    contextValue : string;
    iconPath : option ThemeIcon;
    tooltip : option string;
    description : option string }.

Definition getDeploymentIcon (status : DeploymentStatus) : ThemeIcon :=
  match status with
  | SUCCESS => {| icon := "check"; color := Some "charts.green" |}
  | FAILED | CRASHED => {| icon := "error"; color := Some "charts.red" |}
  | BUILDING | DEPLOYING => {| icon := "sync~spin"; color := Some "charts.blue" |}
  | CANCELLED | REMOVED | REMOVING =>
      {| icon := "circle-slash"; color := Some "charts.gray" |}
  end.

(** The constructor. An item of type ['deployment'] is only ever built with
    a deployment as its data; for any other data the model leaves the icon
    unset. *)
Definition new_DeploymentTreeItem (clock : Clock) (label : string)
    (collapsibleState : CollapsibleState) (itemType : ItemType)
    (data : option ItemData) (cmd : option Command) : DeploymentTreeItem :=
  let base icon tip desc :=
    {| label := label; collapsibleState := collapsibleState;
       itemType := itemType; data := data; item_command := cmd;
       contextValue := itemType_string itemType;
       iconPath := icon; tooltip := tip; description := desc |} in
  match itemType, data with
  | deployment, Some (DeploymentData d) =>
      base (Some (getDeploymentIcon (deployment_status d)))
           (Some (status_string (deployment_status d) +:+ " - "
                    +:+ toLocaleString clock (deployment_updatedAt d)))
           (Some (status_string (deployment_status d)))
  | deployment, _ => base None None None
  | project, _ => base (Some {| icon := "folder"; color := None |}) None None
  | environment, _ =>
      base (Some {| icon := "server-environment"; color := None |}) None None
  | service, _ =>
      base (Some {| icon := "server-process"; color := None |}) None None
  end.

(** ** A [Map] that is iterated: bindings in insertion order *)

Fixpoint map_get {V} (k : string) (m : list (string * V)) : option V :=
  match m with
  | [] => None
  | (k', v) :: m' => if String.eqb k k' then Some v else map_get k m'
  end.

(** [m.set(k, v)]: an existing key keeps its place, a new one goes last. *)
Fixpoint map_set {V} (k : string) (v : V) (m : list (string * V))
  : list (string * V) :=
  match m with
  | [] => [(k, v)]
  | (k', v') :: m' =>
      if String.eqb k k' then (k, v) :: m' else (k', v') :: map_set k v m'
  end.

(** ** class DeploymentTreeDataProvider *)

(** The private fields. [environments], [services] and [deploymentStatuses]
    are only read and written by key; [deployments] is also iterated. *)
Record Provider : Type :=
  { projects : list RailwayProject;
    environments : gmap string (list RailwayEnvironment);
    services : gmap string (list RailwayService);
    deployments : list (string * list RailwayDeployment);
    deploymentStatuses : gmap string DeploymentStatus;
    refreshInterval : option nat }.

(** The field initialisers. *)
Definition initial : Provider :=
  {| projects := []; environments := ∅; services := ∅; deployments := [];
     deploymentStatuses := ∅; refreshInterval := None |}.

Definition set_projects (v : list RailwayProject) (p : Provider) : Provider :=
  {| projects := v; environments := environments p; services := services p;
     deployments := deployments p; deploymentStatuses := deploymentStatuses p;
     refreshInterval := refreshInterval p |}.

Definition set_environments (v : gmap string (list RailwayEnvironment))
    (p : Provider) : Provider :=
  {| projects := projects p; environments := v; services := services p;
     deployments := deployments p; deploymentStatuses := deploymentStatuses p;
     refreshInterval := refreshInterval p |}.

Definition set_services (v : gmap string (list RailwayService))
    (p : Provider) : Provider :=
  {| projects := projects p; environments := environments p; services := v;
     deployments := deployments p; deploymentStatuses := deploymentStatuses p;
     refreshInterval := refreshInterval p |}.

Definition set_deployments (v : list (string * list RailwayDeployment))
    (p : Provider) : Provider :=
  {| projects := projects p; environments := environments p;
     services := services p; deployments := v;
     deploymentStatuses := deploymentStatuses p;
     refreshInterval := refreshInterval p |}.

Definition set_deploymentStatuses (v : gmap string DeploymentStatus)
    (p : Provider) : Provider :=
  {| projects := projects p; environments := environments p;
     services := services p; deployments := deployments p;
     deploymentStatuses := v; refreshInterval := refreshInterval p |}.

Definition set_refreshInterval (v : option nat) (p : Provider) : Provider :=
  {| projects := projects p; environments := environments p;
     services := services p; deployments := deployments p;
     deploymentStatuses := deploymentStatuses p; refreshInterval := v |}.

(** [refresh()]. *)
Definition refresh : list Effect := [FireTreeDataChanged].


(** [startAutoRefresh()]: stops the interval it holds, then starts one. *)
Definition startAutoRefresh (p : Provider) (tm : Timers.t)
  : Provider * Timers.t * list Effect :=
  let '(tm1, t1) :=
    match refreshInterval p with
    | Some h => (Timers.clearInterval h tm, [ClearInterval h])
    | None => (tm, [])
    end in
  let '(h, tm2) := Timers.setInterval tm1 in
  (set_refreshInterval (Some h) p, tm2, t1 ++ [SetInterval h 30000%Z]).

Definition stopAutoRefresh (p : Provider) (tm : Timers.t)
  : Provider * Timers.t * list Effect :=
  match refreshInterval p with
  | Some h =>
      (set_refreshInterval None p, Timers.clearInterval h tm, [ClearInterval h])
  | None => (p, tm, [])
  end.

(** [new DeploymentTreeDataProvider(railwayAPI)]. *)
Definition new_DeploymentTreeDataProvider (tm : Timers.t)
  : Provider * Timers.t * list Effect :=
  startAutoRefresh initial tm.

(** A call [notifyDeploymentStatusChange(deployment, previousStatus,
    currentStatus)]. *)
Record Transition : Type :=
  { changed : RailwayDeployment;
    previousStatus : DeploymentStatus;
    currentStatus : DeploymentStatus }.

(** [previousStatus && previousStatus !== currentStatus], on the strings. *)
Definition status_changed (previous : option DeploymentStatus)
    (current : DeploymentStatus) : bool :=
  match previous with
  | None => false
  | Some prev =>
      negb (String.eqb (status_string prev) "")
      && negb (String.eqb (status_string prev) (status_string current))
  end.

(** The body of the inner loop of [checkDeploymentStatuses], on the status
    map and the calls of [notifyDeploymentStatusChange] made so far. *)
Definition checkDeployment
    (acc : gmap string DeploymentStatus * list Transition)
    (d : RailwayDeployment) : gmap string DeploymentStatus * list Transition :=
  let '(statuses, calls) := acc in
  let previous := statuses !! deployment_id d in
  let current := deployment_status d in
  let statuses' := <[ deployment_id d := current ]> statuses in
  if status_changed previous current then
    match previous with
    | Some prev =>
        (statuses',
         calls ++ [{| changed := d; previousStatus := prev;
                      currentStatus := current |}])
    | None => (statuses', calls)
    end
  else (statuses', calls).

(** [checkDeploymentStatuses()]: the new provider and the calls of
    [notifyDeploymentStatusChange] it makes, in order. *)
Definition checkDeploymentStatuses (p : Provider) : Provider * list Transition :=
  let '(statuses, calls) :=
    fold_left
      (fun acc entry => fold_left checkDeployment (snd entry) acc)
      (deployments p) (deploymentStatuses p, []) in
  (set_deploymentStatuses statuses p, calls).

(** [notifyDeploymentStatusChange]: what it shows. *)
Definition notifyDeploymentStatusChange (clock : Clock) (tr : Transition)
  : list Effect :=
  let previous := status_string (previousStatus tr) in
  let current := status_string (currentStatus tr) in
  let wasBuilding := existsb (String.eqb previous) ["BUILDING"; "DEPLOYING"] in
  if wasBuilding then
    if String.eqb current "SUCCESS" then
      [ShowInformationMessage
         ("✅ Deployment successful! (" +:+ now clock +:+ ")") ["View Logs"]]
    else if String.eqb current "FAILED" || String.eqb current "CRASHED" then
      [ShowErrorMessage
         ("❌ Deployment " +:+ JS.lower current +:+ "! (" +:+ now clock +:+ ")")
         ["View Logs"]]
    else if String.eqb current "CANCELLED" then
      [ShowWarningMessage ("⚠️ Deployment cancelled (" +:+ now clock +:+ ")") []]
    else []
  else [].

(** The callback that [startAutoRefresh] hands to [setInterval]:
    [await this.checkDeploymentStatuses(); this.refresh();]. *)
Definition autoRefresh_tick (clock : Clock) (p : Provider)
  : Provider * list Effect :=
  let '(p', calls) := checkDeploymentStatuses p in
  (p', flat_map (notifyDeploymentStatusChange clock) calls ++ refresh).

Definition nl : string := String (ascii_of_nat 10) EmptyString.

Definition project_item (clock : Clock) (prj : RailwayProject) : DeploymentTreeItem :=
  new_DeploymentTreeItem clock (project_name prj) Collapsed project
    (Some (ProjectData prj)) None.

Definition environment_item (clock : Clock) (projectId : string)
    (env : RailwayEnvironment) : DeploymentTreeItem :=
  new_DeploymentTreeItem clock (environment_name env) Collapsed environment
    (Some (EnvironmentData env projectId)) None.

Definition with_tooltip (tip ctx : string) (i : DeploymentTreeItem)
  : DeploymentTreeItem :=
  {| label := label i; collapsibleState := collapsibleState i;
     itemType := itemType i; data := data i; item_command := item_command i;
     contextValue := ctx; iconPath := iconPath i; tooltip := Some tip;
     description := description i |}.

Definition service_item (clock : Clock) (environmentId : string)
    (svc : RailwayService) : DeploymentTreeItem :=
  let serviceData := ServiceData svc environmentId in
  with_tooltip
    ("Service: " +:+ service_name svc +:+ nl
       +:+ "Click to view application logs" +:+ nl +:+ "Expand to see deployments")
    "service"
    (new_DeploymentTreeItem clock (service_name svc) Collapsed service
       (Some serviceData)
       (Some {| command := "railwayMonitor.showApplicationLogs";
                title := "Show Application Logs";
                arguments := [serviceData] |})).

Definition deployment_item (clock : Clock) (d : RailwayDeployment)
  : DeploymentTreeItem :=
  with_tooltip
    ("Deployment: " +:+ String.substring 0 8 (deployment_id d) +:+ nl
       +:+ "Status: " +:+ status_string (deployment_status d) +:+ nl
       +:+ "Created: " +:+ toLocaleString clock (deployment_createdAt d) +:+ nl
       +:+ "Click to view deployment logs")
    "deployment"
    (new_DeploymentTreeItem clock
       (status_string (deployment_status d) +:+ " - "
          +:+ toLocaleTimeString clock (deployment_createdAt d))
       NoChildren deployment (Some (DeploymentData d))
       (Some {| command := "railwayMonitor.showDeploymentLogs";
                title := "Show Deployment Logs";
                arguments := [DeploymentData d] |})).

(** The key of [this.deployments]: [`${id}-${environmentId}`]. *)
Definition deployments_key (serviceId environmentId : string) : string :=
  serviceId +:+ "-" +:+ environmentId.

(** [getChildren(element)]. Items are only built by the four call sites
    above, so an element's data fits its type; for any other pairing the
    model answers like the final [return []]. *)
Definition getChildren (clock : Clock) (api : Api) (p : Provider)
    (element : option DeploymentTreeItem)
  : list DeploymentTreeItem * Provider * list Effect :=
  match element with
  | None =>
      let fetched := getProjects api in
      let p' := set_projects fetched p in
      if (length (projects p') =? 0)%nat then
        ([new_DeploymentTreeItem clock "No projects found" NoChildren project
            None None], p', [Call callGetProjects])
      else (map (project_item clock) (projects p'), p', [Call callGetProjects])
  | Some el =>
      match itemType el, data el with
      | project, Some (ProjectData prj) =>
          let projectId := project_id prj in
          match environments p !! projectId with
          | Some envs => (map (environment_item clock projectId) envs, p, [])
          | None =>
              let envs := getProjectEnvironments api projectId in
              (map (environment_item clock projectId) envs,
               set_environments (<[ projectId := envs ]> (environments p)) p,
               [Call (callGetProjectEnvironments projectId)])
          end
      | environment, Some (EnvironmentData env projectId) =>
          match services p !! projectId with
          | Some projectServices =>
              (map (service_item clock (environment_id env)) projectServices, p, [])
          | None =>
              let projectServices := getServices api projectId in
              (map (service_item clock (environment_id env)) projectServices,
               set_services (<[ projectId := projectServices ]> (services p)) p,
               [Call (callGetServices projectId)])
          end
      | service, Some (ServiceData svc environmentId) =>
          let key := deployments_key (service_id svc) environmentId in
          match map_get key (deployments p) with
          | Some serviceDeployments =>
              (map (deployment_item clock) serviceDeployments, p, [])
          | None =>
              let serviceDeployments :=
                getDeployments api (service_id svc) environmentId in
              (map (deployment_item clock) serviceDeployments,
               set_deployments (map_set key serviceDeployments (deployments p)) p,
               [Call (callGetDeployments (service_id svc) environmentId)])
          end
      | _, _ => ([], p, [])
      end
  end.

(** [clearCache()]. *)
Definition clearCache (p : Provider) : Provider * list Effect :=
  ({| projects := []; environments := ∅; services := ∅; deployments := [];
      deploymentStatuses := deploymentStatuses p;
      refreshInterval := refreshInterval p |},
   refresh).


(** ** A session of the provider *)

(** What happens to a provider between its construction and its end: the
    interval fires, the user runs the refresh command ([clearCache]), the
    host asks for the children of an element (against the answers [api] of
    the remote at that time). Here each of them runs to its end before the
    next begins; calls of [getChildren] that overlap are the matter of
    [AsyncProvider] below. *)
Inductive Op : Type :=
| tick
| clear
| expand (api : Api) (element : option DeploymentTreeItem).

(** The deployments that one run of [checkDeploymentStatuses] goes through,
    in the order of its two loops. *)
Definition cached_deployments (p : Provider) : list RailwayDeployment :=
  flat_map snd (deployments p).

Record Run : Type :=
  { observed : list RailwayDeployment;   (* deployments checked, in order *)
    dispatched : list Transition;        (* calls of notifyDeploymentStatusChange *)
    effects : list Effect;
    final : Provider }.

Definition do_op (clock : Clock) (p : Provider) (op : Op) : Run :=
  match op with
  | tick =>
      {| observed := cached_deployments p;
         dispatched := snd (checkDeploymentStatuses p);
         effects := snd (autoRefresh_tick clock p);
         final := fst (autoRefresh_tick clock p) |}
  | clear =>
      {| observed := []; dispatched := [];
         effects := snd (clearCache p); final := fst (clearCache p) |}
  | expand api element =>
      let '(_, p', t) := getChildren clock api p element in
      {| observed := []; dispatched := []; effects := t; final := p' |}
  end.

Fixpoint run (clock : Clock) (p : Provider) (ops : list Op) : Run :=
  match ops with
  | [] => {| observed := []; dispatched := []; effects := []; final := p |}
  | op :: ops' =>
      let r1 := do_op clock p op in
      let r2 := run clock (final r1) ops' in
      {| observed := observed r1 ++ observed r2;
         dispatched := dispatched r1 ++ dispatched r2;
         effects := effects r1 ++ effects r2;
         final := final r2 |}
  end.

(** The statuses seen for one deployment id, in order. *)
Definition statuses_of (id : string) (ds : list RailwayDeployment)
  : list DeploymentStatus :=
  map deployment_status (filter (λ d, deployment_id d = id) ds).

(** The transitions dispatched for one deployment id. *)
Definition transitions_of (id : string) (trs : list Transition)
  : list Transition :=
  filter (λ tr, deployment_id (changed tr) = id) trs.

(** The number of adjacent pairs [(s_i, s_{i+1})] with [s_i ≠ s_{i+1}]. *)
Definition adjacent_differing (l : list DeploymentStatus) : nat :=
  length (filter (λ ab : DeploymentStatus * DeploymentStatus, ab.1 ≠ ab.2)
                 (zip l (tail l))).

(** A message shown to the user. *)
Definition is_notification (e : Effect) : bool :=
  match e with
  | ShowInformationMessage _ _ | ShowWarningMessage _ _ | ShowErrorMessage _ _ => true
  | _ => false
  end.

Definition is_call (e : Effect) : bool :=
  match e with Call _ | Post _ => true | _ => false end.

End TreeProvider.

(* ===================================================================== *)
(** * log-viewer.ts: class LogViewerPanel                                  *)
(* ===================================================================== *)

Module LogViewer.
Import Host TreeProvider.

(** ['deployment' | 'application']. *)
Inductive LogType : Type := deploymentLogs | applicationLogs.

(** The [resource] of a panel is the argument of the command that opened
    it: the data of a deployment item or of a service item. The accessors
    are the properties the panel reads; [None] is [undefined]. *)
Definition resource_id (r : ItemData) : string :=
  match r with
  | ProjectData p => project_id p
  | EnvironmentData e _ => environment_id e
  | ServiceData s _ => service_id s
  | DeploymentData d => deployment_id d
  end.

Definition resource_name (r : ItemData) : option string :=
  match r with
  | ProjectData p => Some (project_name p)
  | EnvironmentData e _ => Some (environment_name e)
  | ServiceData s _ => Some (service_name s)
  | DeploymentData _ => None
  end.

Definition resource_serviceId (r : ItemData) : option string :=
  match r with
  | ServiceData s _ => Some (service_id s)
  | DeploymentData d => Some (deployment_serviceId d)
  | _ => None
  end.

Definition resource_environmentId (r : ItemData) : option string :=
  match r with
  | ServiceData _ environmentId => Some environmentId
  | DeploymentData d => Some (deployment_environmentId d)
  | _ => None
  end.

Definition nonempty (s : string) : bool := negb (String.eqb s "").

(** [resource.id ? resource.id.substring(0, 8) : fallback]. *)
Definition short_id (r : ItemData) (fallback : string) : string :=
  if nonempty (resource_id r) then String.substring 0 8 (resource_id r)
  else fallback.

Definition panel_title (logType : LogType) (r : ItemData) : string :=
  match logType with
  | deploymentLogs => "Railway Deployment Logs - " +:+ short_id r "Unknown"
  | applicationLogs =>
      "Railway Application Logs - " +:+
      match resource_name r with
      | Some n => if nonempty n then n else short_id r "Service"
      | None => short_id r "Service"
      end
  end.

(** The fields of a panel that change. *)
Record Panel : Type :=
  { resource : ItemData;
    logType : LogType;
    autoRefreshInterval : option nat }.

(** [refreshLogs()]. *)
Definition refreshLogs (p : Panel) : list Effect :=
  [Call match logType p with
        | deploymentLogs => callGetDeploymentLogs (resource_id (resource p)) 500
        | applicationLogs =>
            callGetApplicationLogs
              (if nonempty (resource_id (resource p))
               then Some (resource_id (resource p))
               else resource_serviceId (resource p))
              (resource_environmentId (resource p)) 500
        end;
   PostMessage "updateLogs"].

(** [updateResource(resource, logType)]. *)
Definition updateResource (r : ItemData) (ty : LogType) (p : Panel)
  : Panel * list Effect :=
  let p' := {| resource := r; logType := ty;
               autoRefreshInterval := autoRefreshInterval p |} in
  (p', SetPanelTitle (panel_title ty r) :: refreshLogs p').

(** [toggleAutoRefresh()]. *)
Definition toggleAutoRefresh (p : Panel) (tm : Timers.t)
  : Panel * Timers.t * list Effect :=
  match autoRefreshInterval p with
  | Some h =>
      ({| resource := resource p; logType := logType p;
          autoRefreshInterval := None |},
       Timers.clearInterval h tm,
       [ClearInterval h; PostMessage "autoRefreshStopped"])
  | None =>
      let '(h, tm') := Timers.setInterval tm in
      ({| resource := resource p; logType := logType p;
          autoRefreshInterval := Some h |},
       tm',
       [SetInterval h 5000%Z; PostMessage "autoRefreshStarted"])
  end.

(** [dispose()]; the static [currentPanel] is reset by the caller below. *)
Definition dispose (p : Panel) (tm : Timers.t) : Timers.t * list Effect :=
  match autoRefreshInterval p with
  | Some h => (Timers.clearInterval h tm, [ClearInterval h; DisposePanel])
  | None => (tm, [DisposePanel])
  end.

(** The static [LogViewerPanel.currentPanel] and the host's timers. *)
Record State : Type :=
  { currentPanel : option Panel; timers : Timers.t }.

(** What the host can make the log viewer do: the two [show...Logs]
    commands call [createOrShow]; the webview of the current panel posts a
    message; the user closes the panel. *)
Inductive Event : Type :=
| createOrShow (r : ItemData) (ty : LogType)
| onDidReceiveMessage (command : string)
| onDidDispose.

Definition step (st : State) (ev : Event) : State * list Effect :=
  match ev, currentPanel st with
  | createOrShow r ty, Some p =>
      let '(p', t) := updateResource r ty p in
      ({| currentPanel := Some p'; timers := timers st |}, RevealPanel :: t)
  | createOrShow r ty, None =>
      let p := {| resource := r; logType := ty; autoRefreshInterval := None |} in
      ({| currentPanel := Some p; timers := timers st |},
       CreateWebviewPanel (panel_title ty r) :: refreshLogs p)
  | onDidReceiveMessage c, Some p =>
      if String.eqb c "refresh" then (st, refreshLogs p)
      else if String.eqb c "toggleAutoRefresh" then
        let '(p', tm', t) := toggleAutoRefresh p (timers st) in
        ({| currentPanel := Some p'; timers := tm' |}, t)
      else if String.eqb c "clearLogs" then (st, [PostMessage "clearLogs"])
      else (st, [])
  | onDidDispose, Some p =>
      let '(tm', t) := dispose p (timers st) in
      ({| currentPanel := None; timers := tm' |}, t)
  | _, None => (st, [])
  end.

(** The state after a sequence of events. *)
Definition run (st : State) (evs : list Event) : State :=
  fold_left (fun s ev => fst (step s ev)) evs st.

(** No panel yet; [tm] holds whatever intervals the rest of the extension
    has started (the tree provider starts one when it is constructed). *)
Definition start (tm : Timers.t) : State :=
  {| currentPanel := None; timers := tm |}.

(** The intervals of the log viewer: those running now that were not
    running when it started. *)
Definition log_timers (tm0 : Timers.t) (st : State) : gset nat :=
  Timers.active (timers st) ∖ Timers.active tm0.

(** The interval the current panel holds, if any. *)
Definition panel_timer (st : State) : gset nat :=
  match currentPanel st with
  | Some p => match autoRefreshInterval p with Some h => {[ h ]} | None => ∅ end
  | None => ∅
  end.

(** The message the button "Auto-refresh" posts. *)
Definition toggle : Event := onDidReceiveMessage "toggleAutoRefresh".

(** What holds of every state the log viewer reaches from [start tm0]: the
    running intervals are those of [tm0] and the one the panel holds, whose
    handle is newer than all of [tm0]. *)
Definition timers_invariant (tm0 : Timers.t) (st : State) : Prop :=
  Timers.next tm0 ≤ Timers.next (timers st)
  ∧ (∀ h, h ∈ panel_timer st → Timers.next tm0 ≤ h < Timers.next (timers st))
  ∧ Timers.active (timers st) = Timers.active tm0 ∪ panel_timer st.

End LogViewer.

(* ===================================================================== *)
(** * Concrete inputs                                                     *)
(* ===================================================================== *)

Module Examples.
Import Host TreeProvider.

Definition clock0 : Clock :=
  {| toLocaleTimeString := λ s, s; toLocaleString := λ s, s; now := "12:00:00" |}.

(** The deployment [d1] of service [svc1] in environment [env1], at a
    given status. *)
Definition d1 (s : DeploymentStatus) : RailwayDeployment :=
  {| deployment_id := "d1"; deployment_status := s; deployment_staticUrl := None;
     deployment_createdAt := "2025-01-01T00:00:00Z";
     deployment_updatedAt := "2025-01-01T00:00:00Z";
     deployment_serviceId := "svc1"; deployment_environmentId := "env1" |}.

Definition prj1 : RailwayProject :=
  {| project_id := "p1"; project_name := "demo"; project_description := None;
     project_createdAt := "2025-01-01T00:00:00Z";
     project_updatedAt := "2025-01-01T00:00:00Z" |}.

Definition env1 : RailwayEnvironment :=
  {| environment_id := "env1"; environment_name := "production";
     environment_projectId := "p1" |}.

Definition svc1 : RailwayService :=
  {| service_id := "svc1"; service_name := "web"; service_projectId := "p1" |}.

(** A remote whose only deployment is [d1], at status [s]. *)
Definition api_with (s : DeploymentStatus) : Api :=
  {| getProjects := [prj1]; getProjectEnvironments := λ _, [env1];
     getServices := λ _, [svc1]; getDeployments := λ _ _, [d1 s] |}.

(** A remote with nothing at all. *)
Definition api_empty : Api :=
  {| getProjects := []; getProjectEnvironments := λ _, [];
     getServices := λ _, []; getDeployments := λ _ _, [] |}.

(** The user expands the service, the interval fires, the user refreshes:
    three times, while [d1] goes from building to deploying to success. *)
Definition scenario (clock : Clock) : list Op :=
  [expand (api_with BUILDING) (Some (service_item clock "env1" svc1)); tick; clear;
   expand (api_with DEPLOYING) (Some (service_item clock "env1" svc1)); tick; clear;
   expand (api_with SUCCESS) (Some (service_item clock "env1" svc1)); tick].

(** Both project queries answered with a GraphQL error "Not Authorized". *)
Definition remote_not_authorized : Remote :=
  λ _, JS.Normal (JS.Obj [("errors", JS.Arr [JS.Obj [("message", JS.Str "Not Authorized")]])]).

(** Every request rejected with HTTP status 401. *)
Definition remote_401 : Remote :=
  λ _, JS.Throw {| JS.name := "AxiosError";
                JS.message := "Request failed with status code 401";
                JS.response := Some {| JS.status := 401; JS.data := JS.Obj [] |} |}.

(** The universal query refused with a GraphQL error, the personal one
    rejected with HTTP status 403. *)
Definition remote_403_personal : Remote :=
  λ r, match query r with
       | universalQuery => JS.Normal (JS.Obj [("errors", JS.Arr [JS.Obj [("message", JS.Str "Bad query")]])])
       | _ => JS.Throw {| JS.name := "AxiosError";
                       JS.message := "Request failed with status code 403";
                       JS.response := Some {| JS.status := 403; JS.data := JS.Str "Forbidden" |} |}
       end.



(** A remote that keeps to the schema: one project, one environment, and
    one deployment that only the alternative query of [getDeployments]
    finds. *)
Definition remote_ok : Remote :=
  λ r, match query r with
       | universalQuery =>
           JS.Normal (JS.Obj [("data", JS.Obj [("projects", JS.Obj [("edges",
             JS.Arr [JS.Obj [("node",
               JS.Obj [("id", JS.Str "p1"); ("name", JS.Str "demo")])]])])])])
       | environmentsQuery =>
           JS.Normal (JS.Obj [("data", JS.Obj [("project", JS.Obj [("environments",
             JS.Obj [("edges",
               JS.Arr [JS.Obj [("node",
                 JS.Obj [("id", JS.Str "env1"); ("name", JS.Str "production")])]])])])])])
       | alternativeQuery =>
           JS.Normal (JS.Obj [("data", JS.Obj [("service", JS.Obj [("deployments",
             JS.Obj [("edges",
               JS.Arr [JS.Obj [("node",
                 JS.Obj [("id", JS.Str "d1"); ("status", JS.Str "SUCCESS")])]])])])])])
       | buildLogsQuery =>
           JS.Normal (JS.Obj [("data", JS.Obj [("deployment", JS.Obj [("buildLogs",
             JS.Arr [JS.Obj [("message", JS.Str "build started");
                             ("timestamp", JS.Str "2025-01-01T00:00:00Z")]])])])])
       | _ =>
           JS.Normal (JS.Obj [("errors",
             JS.Arr [JS.Obj [("message", JS.Str "Cannot query field")]])])
       end.

(** A reply of the expected shape whose edges are not edges. *)
Definition remote_junk : Remote :=
  λ _, JS.Normal (JS.Obj [("data", JS.Obj [("project", JS.Obj [("environments",
         JS.Obj [("edges", JS.Arr [JS.Num 1])])])])]).


End Examples.

(* ===================================================================== *)
(** * railway-api.ts: credentials, application logs, deployment status    *)
(* ===================================================================== *)

Module RailwayClient.
Import JS.

(** The GraphQL documents of the methods modelled here. *)
Inductive Query : Type :=
| introspectionQuery         (* initialize: __schema { queryType { name } } *)
| testQuery                  (* initialize: __typename *)
| serviceTypeQuery           (* getApplicationLogs: __type(name: "Service") *)
| logsQuery                  (* getApplicationLogs, query 1 *)
| serviceLogsQuery           (* getApplicationLogs, query 2 *)
| serviceInstanceLogsQuery   (* getApplicationLogs, query 3 *)
| latestDeploymentLogsQuery  (* getApplicationLogs, query 4 *)
| deploymentStatusQuery.     (* getDeploymentStatus *)

Record Request : Type :=
  { query : Query; variables : list (string * Value) }.

(** [ConfigUpdate v] is [config.update('apiToken', v, Global)], with [None]
    for [undefined]; [ShowInputBox] is the prompt for the token. *)
Inductive Effect : Type :=
| Post (r : Request)
| ShowErrorMessage (msg : string)
| ShowWarningMessage (msg : string)
| ShowInputBox
| ConfigUpdate (value : option string).

Definition Remote : Type := Request -> Completion Value.

Definition M (A : Type) : Type := list Effect * Completion A.

Definition ret {A} (a : A) : M A := ([], Normal a).

Definition bind {A B} (m : M A) (f : A -> M B) : M B :=
  match m with
  | (t, Normal a) => let '(t', r) := f a in (t ++ t', r)
  | (t, Throw e) => (t, Throw e)
  end.

Definition emit (e : Effect) : M unit := ([e], Normal tt).

Definition lift {A} (c : Completion A) : M A := ([], c).

Definition try_catch {A} (body : M A) (handler : Error -> M A) : M A :=
  match body with
  | (t, Throw e) => let '(t', r) := handler e in (t ++ t', r)
  | (t, Normal a) => (t, Normal a)
  end.

Definition post (remote : Remote) (r : Request) : M Value :=
  ([Post r], remote r).

Definition trace {A} (m : M A) : list Effect := fst m.
Definition outcome {A} (m : M A) : Completion A := snd m.

End RailwayClient.

Declare Scope client_scope.
Delimit Scope client_scope with client.
Notation "'let*' x := m 'in' k" := (RailwayClient.bind m (fun x => k))
  (at level 10, x name, m at level 100, k at level 200) : client_scope.
Notation "'do' m 'then' k" := (RailwayClient.bind m (fun _ => k))
  (at level 10, m at level 100, k at level 200) : client_scope.

Module Credentials.
Import JS RailwayClient.
Local Open Scope client_scope.

Section WithTrim.

(** [String.prototype.trim] of the language. *)
Variable trim : string -> string.

(** The fields of [RailwayAPI] that change: [apiToken], and the
    [Authorization] entry of [apiClient.defaults.headers.common]. *)
Record Client : Type :=
  { apiToken : option string; authorization : option string }.

(** [new RailwayAPI()]. *)
Definition new_RailwayAPI : Client := {| apiToken := None; authorization := None |}.

(** [!token] for [string | undefined]. *)
Definition absent (token : option string) : bool :=
  match token with
  | None => true
  | Some s => String.eqb s ""
  end.

(** [getApiToken()]: [setting] is what [config.get('apiToken')] returns,
    [answer] what the user gives to the input box (asked only when the
    setting is absent). The result is the token, the setting afterwards and
    what was done to the host. *)
Definition getApiToken (setting answer : option string)
  : option string * option string * list Effect :=
  if absent setting then
    if absent answer then (answer, setting, [ShowInputBox])
    else
      let token := option_map trim answer in
      (token, token, [ShowInputBox; ConfigUpdate token])
  else (setting, setting, []).

(** The [catch] block of [initialize]. *)
Definition initialize_catch (error : Error) : M bool :=
  do (match response error with
      | Some r =>
          if (status r =? 401)%Z || (status r =? 403)%Z then
            emit (ShowErrorMessage
                    "Railway API authentication failed. Please check your API token.")
          else
            emit (ShowErrorMessage
                    ("Failed to connect to Railway API: " +:+
                     (if String.eqb (message error) "" then "Unknown error"
                      else message error)))
      | None =>
          emit (ShowErrorMessage
                  ("Failed to connect to Railway API: " +:+
                   (if String.eqb (message error) "" then "Unknown error"
                    else message error)))
      end)
  then ret false.

(** The block [if (response.data.errors) { ... }] of [initialize] and the
    [return true] after it. *)
Definition initialize_errors (errors : Value) : M bool :=
  if truthy errors then
    let errorMessage :=
      or_else (opt_get (index0 errors) "message") (Str "Unknown error") in
    let* lowered := lift (toLowerCase "errorMessage" errorMessage) in
    if includes lowered "not authorized" then ret true
    else
      do (match errorMessage with
          | Str s => emit (ShowErrorMessage ("Railway API error: " +:+ s))
          | _ => ret tt
          end)
      then ret false
  else ret true.

(** What [initialize] makes of the reply to its test query: the page of
    HTML first ([typeof response.data === 'string']; the [errors] of a
    string are [undefined]), then the GraphQL errors. *)
Definition initialize_check (response_data : Value) : M bool :=
  match response_data with
  | Str s =>
      if includes s "<html" then
        do emit (ShowErrorMessage
                   "Railway API token appears to be invalid. Please set a valid token.")
        then ret false
      else initialize_errors Undefined
  | _ =>
      let* errors := lift (get response_data "errors") in
      initialize_errors errors
  end.

(** The [try] block of [initialize] with its [catch]. *)
Definition initialize_test (remote : Remote) : M bool :=
  try_catch
    (let* _ := post remote {| query := introspectionQuery; variables := [] |} in
     let* response_data := post remote {| query := testQuery; variables := [] |} in
     initialize_check response_data)
    initialize_catch.

(** [initialize()]: the result, the client and the setting afterwards, and
    what was done to the host. *)
Definition initialize (setting answer : option string) (remote : Remote) (c : Client)
  : bool * Client * option string * list Effect :=
  let '(token, setting', t) := getApiToken setting answer in
  match token with
  | Some s =>
      if String.eqb s "" then
        (false, {| apiToken := token; authorization := authorization c |}, setting', t)
      else
        let c' := {| apiToken := Some (trim s);
                     authorization := Some ("Bearer " +:+ trim s) |} in
        match initialize_test remote with
        | (t', Normal b) => (b, c', setting', t ++ t')
        | (t', Throw _) => (false, c', setting', t ++ t')
        end
  | None =>
      (false, {| apiToken := None; authorization := authorization c |}, setting', t)
  end.

(** [clearApiToken()]: the client and the setting afterwards. *)
Definition clearApiToken (c : Client) : Client * option string * list Effect :=
  ({| apiToken := None; authorization := None |}, None, [ConfigUpdate None]).

End WithTrim.
End Credentials.

Module ClientQueries.
Import JS RailwayClient.
Local Open Scope client_scope.

(** [getDeploymentStatus(deploymentId)]: the status, or [null]. *)
Definition getDeploymentStatus (remote : Remote) (deploymentId : string) : M Value :=
  try_catch
    (let* response_data :=
       post remote {| query := deploymentStatusQuery;
                      variables := [("deploymentId", Str deploymentId)] |} in
     let* errors := lift (get response_data "errors") in
     if truthy errors then ret Null
     else ret (or_else (opt_path response_data ["data"; "deployment"; "status"]) Null))
    (fun error => ret Null).

(** [v?.[0]]. *)
Definition opt_index0 (v : Value) : Value :=
  match v with
  | Undefined | Null => Undefined
  | _ => index0 v
  end.

(** The four [extractor]s of [getApplicationLogs]. *)
Definition extractor (q : Query) (data : Value) : Value :=
  match q with
  | logsQuery => opt_get data "logs"
  | serviceLogsQuery => opt_path data ["service"; "logs"]
  | serviceInstanceLogsQuery => opt_path data ["serviceInstance"; "logs"]
  | latestDeploymentLogsQuery =>
      opt_path (opt_index0 (opt_path data ["deployments"; "edges"])) ["node"; "logs"]
  | _ => Undefined
  end.

(** [JSON.stringify(response.data, null, 2).substring(0, 500)], evaluated
    for a log line: [JSON.stringify(undefined)] is [undefined], which has no
    [substring]. *)
Definition stringify_substring (response_data : Value) : Completion unit :=
  match response_data with
  | Undefined =>
      Throw (TypeError "Cannot read properties of undefined (reading 'substring')")
  | _ => Normal tt
  end.

Section WithComparison.

(** [v > 0] of the language, for [v] a string, an array or an object (the
    number it converts to is positive). *)
Variable positive : Value -> bool.

(** [logs.length > 0] for a truthy [logs]. *)
Definition length_positive (logs : Value) : bool :=
  match logs with
  | Arr xs => (0 <? length xs)
  | Str s => (0 <? String.length s)
  | Obj fs =>
      match field "length" fs with
      | Undefined | Null => false
      | Bool b => b
      | Num n => (0 <? n)%Z
      | v => positive v
      end
  | _ => false
  end.

(** The first [try] of [getApplicationLogs]: the request for the fields of
    the type [Service]; what it finds is only logged. *)
Definition introspect (remote : Remote) : M unit :=
  try_catch
    (let* _ := post remote {| query := serviceTypeQuery; variables := [] |} in ret tt)
    (fun e => ret tt).

Definition application_logs_request (q : Query) (serviceId environmentId : string)
    (limit : Z) : Request :=
  {| query := q;
     variables := [("serviceId", Str serviceId); ("environmentId", Str environmentId);
                   ("limit", Num limit)] |}.

(** One turn of the loop over [queries]: [Some logs] when the body
    executes [return logs]. *)
Definition getApplicationLogs_attempt (remote : Remote)
    (serviceId environmentId : string) (limit : Z) (q : Query) : M (option Value) :=
  try_catch
    (let* response_data :=
       post remote (application_logs_request q serviceId environmentId limit) in
     let* _ := lift (stringify_substring response_data) in
     let* errors := lift (get response_data "errors") in
     if negb (truthy errors) then
       let* data := lift (get response_data "data") in
       if truthy data then
         let logs := extractor q data in
         if truthy logs && length_positive logs then ret (Some logs) else ret None
       else ret None
     else ret None)
    (fun error => ret None).

Fixpoint getApplicationLogs_loop (remote : Remote) (serviceId environmentId : string)
    (limit : Z) (queries : list Query) : M Value :=
  match queries with
  | [] =>
      do emit (ShowWarningMessage
                 "Unable to fetch application logs. Logs may not be available for this service.")
      then ret (Arr [])
  | q :: queries' =>
      let* found := getApplicationLogs_attempt remote serviceId environmentId limit q in
      match found with
      | Some logs => ret logs
      | None => getApplicationLogs_loop remote serviceId environmentId limit queries'
      end
  end.

Definition getApplicationLogs (remote : Remote) (serviceId environmentId : string)
    (limit : Z) : M Value :=
  do introspect remote
  then getApplicationLogs_loop remote serviceId environmentId limit
         [logsQuery; serviceLogsQuery; serviceInstanceLogsQuery;
          latestDeploymentLogsQuery].

End WithComparison.
End ClientQueries.

(* ===================================================================== *)
(** * log-viewer.ts: the nonce of the webview                             *)
(* ===================================================================== *)

Module Nonce.

(** [s.charAt(i)]: the empty string out of range. *)
Definition charAt (s : string) (i : nat) : string :=
  match String.get i s with
  | Some c => String c EmptyString
  | None => EmptyString
  end.

Definition possible : string :=
  "ABCDEFGHIJKLMNOPQRSTUVWXYZabcdefghijklmnopqrstuvwxyz0123456789".

(** The loop of [getNonce] from [i] on, with [n] turns to go; [draws k] is
    [Math.floor(Math.random() * possible.length)] of turn [k]. *)
Fixpoint getNonce_loop (draws : nat -> nat) (n i : nat) (text : string) : string :=
  match n with
  | 0 => text
  | S n' => getNonce_loop draws n' (S i) (text +:+ charAt possible (draws i))
  end.

(** [getNonce()]. *)
Definition getNonce (draws : nat -> nat) : string := getNonce_loop draws 32 0 "".

Definition chars (s : string) : list ascii := list_ascii_of_string s.

End Nonce.

(* ===================================================================== *)
(** * What a trace holds                                                  *)
(* ===================================================================== *)

Module ApiFacts.
Import JS Host RailwayAPI.

(** The requests of a trace, in order. *)
Definition posts (t : list Effect) : list Request :=
  omap (λ e, match e with Post r => Some r | _ => None end) t.

(** The messages a trace shows to the user. *)
Definition shown (t : list Effect) : list Effect :=
  filter TreeProvider.is_notification t.

(** The fields of [{ ...node, k1: v1, ..., kn: vn }]. *)
Definition object_fields (node : Value) (extra : list (string * Value))
  : list (string * Value) :=
  fold_left (λ fs kv, set_field kv.1 kv.2 fs) extra (spread node).

(** The request of [getProjectEnvironments] and of [getServices]. *)
Definition children_request (q : Query) (projectId : string) : Request :=
  {| query := q; variables := [("projectId", Str projectId)] |}.

(** What [getDeployments] adds to every node. *)
Definition parent_ids (serviceId environmentId : string) : list (string * Value) :=
  [("serviceId", Str serviceId); ("environmentId", Str environmentId)].

(** The queries [getDeploymentLogs] gets to: each one of [queries] up to
    and including the first that does not fail. *)
Fixpoint attempted (remote : Remote) (deploymentId : string) (limit : Z)
    (queries : list Query) : list Query :=
  match queries with
  | [] => []
  | q :: queries' =>
      q :: (if logs_failed q (remote (logs_request q deploymentId limit))
            then attempted remote deploymentId limit queries' else [])
  end.

Definition all_failed (remote : Remote) (deploymentId : string) (limit : Z)
    (queries : list Query) : bool :=
  forallb (λ q, logs_failed q (remote (logs_request q deploymentId limit))) queries.

Definition deployment_logs_warning : Effect :=
  ShowWarningMessage "Unable to fetch deployment logs. The logs may not be available yet." [].

End ApiFacts.

Module ClientFacts.
Import JS RailwayClient.

Definition posts (t : list Effect) : list Request :=
  omap (λ e, match e with Post r => Some r | _ => None end) t.

Definition errors_shown (t : list Effect) : list string :=
  omap (λ e, match e with ShowErrorMessage m => Some m | _ => None end) t.

Definition warnings_shown (t : list Effect) : list string :=
  omap (λ e, match e with ShowWarningMessage m => Some m | _ => None end) t.

(** The prompt for the token and the writes of the setting. *)
Definition asks_or_stores (e : Effect) : bool :=
  match e with ShowInputBox | ConfigUpdate _ => true | _ => false end.

Definition status_request (deploymentId : string) : Request :=
  {| query := deploymentStatusQuery; variables := [("deploymentId", Str deploymentId)] |}.

Definition application_logs_warning : Effect :=
  ShowWarningMessage
    "Unable to fetch application logs. Logs may not be available for this service.".

Definition application_logs_queries : list Query :=
  [logsQuery; serviceLogsQuery; serviceInstanceLogsQuery; latestDeploymentLogsQuery].

Definition introspection_request : Request :=
  {| query := introspectionQuery; variables := [] |}.

Definition test_request : Request := {| query := testQuery; variables := [] |}.

(** The token [initialize] goes on with. *)
Definition token_found (trim : string -> string) (setting answer : option string)
  : option string :=
  (Credentials.getApiToken trim setting answer).1.1.

End ClientFacts.

(* ===================================================================== *)
(** * What a session of the provider and of the log viewer holds          *)
(* ===================================================================== *)

Module ProviderFacts.
Import Host TreeProvider.

(** Deployments of the same id have the same status. *)
Definition consistent (ds : list RailwayDeployment) : Prop :=
  ∀ d d', d ∈ ds → d' ∈ ds → deployment_id d = deployment_id d' →
          deployment_status d = deployment_status d'.

(** The calls of [startAutoRefresh] and [stopAutoRefresh] a provider gets:
    the first from its constructor, the second from [deactivate]. *)
Inductive TimerOp : Type := start_refresh | stop_refresh.

Definition timer_step (s : Provider * Timers.t) (op : TimerOp) : Provider * Timers.t :=
  match op with
  | start_refresh => (startAutoRefresh s.1 s.2).1
  | stop_refresh => (stopAutoRefresh s.1 s.2).1
  end.

(** The provider as constructed, then a sequence of such calls. *)
Definition timer_run (tm0 : Timers.t) (ops : list TimerOp) : Provider * Timers.t :=
  fold_left timer_step ops (new_DeploymentTreeDataProvider tm0).1.

(** The intervals the provider has running: those running now that were
    not running before it was constructed. *)
Definition provider_timers (tm0 : Timers.t) (s : Provider * Timers.t) : gset nat :=
  Timers.active s.2 ∖ Timers.active tm0.

(** The interval [this.refreshInterval] holds, if any. *)
Definition held (p : Provider) : gset nat :=
  match refreshInterval p with Some h => {[ h ]} | None => ∅ end.

(** What holds of the provider and the timers after every call: the
    running intervals are those of [tm0] and the one the provider holds,
    whose handle is newer than all of [tm0]. *)
Definition timer_invariant (tm0 : Timers.t) (s : Provider * Timers.t) : Prop :=
  Timers.next tm0 ≤ Timers.next s.2
  ∧ (∀ h, h ∈ held s.1 → Timers.next tm0 ≤ h < Timers.next s.2)
  ∧ Timers.active s.2 = Timers.active tm0 ∪ held s.1.

(** The type of the items one level below an element; the root is [None]. *)
Definition level_below (element : option ItemType) : ItemType :=
  match element with
  | None => project
  | Some project => environment
  | Some environment => service
  | Some service | Some deployment => deployment
  end.

End ProviderFacts.

(* ===================================================================== *)
(** * deployment-tree-provider.ts: calls of [getChildren] that overlap    *)
(* ===================================================================== *)

Module AsyncProvider.
Import Host TreeProvider.

(** [getChildren] is an [async] method. On a miss it reads the cache, stops
    at [await this.railwayAPI...] and writes the cache when the promise
    settles; until then other calls of [getChildren], the interval callback
    and [clearCache] run. A call that waits is what is left of it to do. *)
Inductive Suspended : Type :=
| awaitProjects
| awaitEnvironments (projectId : string)
| awaitServices (projectId environmentId : string)
| awaitDeployments (serviceId environmentId : string).

(** The call of the API a suspended call waits for. *)
Definition awaited (w : Suspended) : ApiCall :=
  match w with
  | awaitProjects => callGetProjects
  | awaitEnvironments projectId => callGetProjectEnvironments projectId
  | awaitServices projectId _ => callGetServices projectId
  | awaitDeployments serviceId environmentId => callGetDeployments serviceId environmentId
  end.

Inductive Started : Type :=
| returned (items : list DeploymentTreeItem)
| suspended (w : Suspended).

(** [getChildren(element)] up to its [return] or its [await]. *)
Definition getChildren_start (clock : Clock) (p : Provider)
    (element : option DeploymentTreeItem) : Started * list Effect :=
  match element with
  | None => (suspended awaitProjects, [Call callGetProjects])
  | Some el =>
      match itemType el, data el with
      | project, Some (ProjectData prj) =>
          let projectId := project_id prj in
          match environments p !! projectId with
          | Some envs => (returned (map (environment_item clock projectId) envs), [])
          | None =>
              (suspended (awaitEnvironments projectId),
               [Call (callGetProjectEnvironments projectId)])
          end
      | environment, Some (EnvironmentData env projectId) =>
          match services p !! projectId with
          | Some projectServices =>
              (returned (map (service_item clock (environment_id env)) projectServices), [])
          | None =>
              (suspended (awaitServices projectId (environment_id env)),
               [Call (callGetServices projectId)])
          end
      | service, Some (ServiceData svc environmentId) =>
          let key := deployments_key (service_id svc) environmentId in
          match map_get key (deployments p) with
          | Some serviceDeployments =>
              (returned (map (deployment_item clock) serviceDeployments), [])
          | None =>
              (suspended (awaitDeployments (service_id svc) environmentId),
               [Call (callGetDeployments (service_id svc) environmentId)])
          end
      | _, _ => (returned [], [])
      end
  end.

(** The rest of [getChildren] once the promise has settled with the answer
    of [api]: the write of the cache and the items returned. *)
Definition getChildren_resume (clock : Clock) (api : Api) (p : Provider)
    (w : Suspended) : list DeploymentTreeItem * Provider :=
  match w with
  | awaitProjects =>
      let p' := set_projects (getProjects api) p in
      if (length (projects p') =? 0)%nat then
        ([new_DeploymentTreeItem clock "No projects found" NoChildren project
            None None], p')
      else (map (project_item clock) (projects p'), p')
  | awaitEnvironments projectId =>
      let envs := getProjectEnvironments api projectId in
      (map (environment_item clock projectId) envs,
       set_environments (<[ projectId := envs ]> (environments p)) p)
  | awaitServices projectId environmentId =>
      let projectServices := getServices api projectId in
      (map (service_item clock environmentId) projectServices,
       set_services (<[ projectId := projectServices ]> (services p)) p)
  | awaitDeployments serviceId environmentId =>
      let serviceDeployments := getDeployments api serviceId environmentId in
      (map (deployment_item clock) serviceDeployments,
       set_deployments
         (map_set (deployments_key serviceId environmentId) serviceDeployments
                  (deployments p)) p)
  end.

(** The provider and the calls of [getChildren] that wait. *)
Record State : Type :=
  { provider : Provider; waiting : list Suspended }.

(** What runs to its next [await] or to its end, one at a time. The
    interval callback is [check] then, after its [await], [fire]. *)
Inductive Op : Type :=
| check                                        (* the body of checkDeploymentStatuses *)
| fire                                         (* refresh(), in the interval callback *)
| clear                                        (* clearCache() *)
| call (element : option DeploymentTreeItem)   (* getChildren, to its return or await *)
| settle (i : nat) (api : Api).                (* the i-th waiting call goes on *)

Definition step (clock : Clock) (s : State) (op : Op) : State * list Effect :=
  match op with
  | check =>
      ({| provider := (checkDeploymentStatuses (provider s)).1; waiting := waiting s |},
       flat_map (notifyDeploymentStatusChange clock) (checkDeploymentStatuses (provider s)).2)
  | fire => (s, refresh)
  | clear =>
      ({| provider := (clearCache (provider s)).1; waiting := waiting s |},
       (clearCache (provider s)).2)
  | call element =>
      match getChildren_start clock (provider s) element with
      | (returned _, t) => (s, t)
      | (suspended w, t) =>
          ({| provider := provider s; waiting := waiting s ++ [w] |}, t)
      end
  | settle i api =>
      match waiting s !! i with
      | Some w =>
          ({| provider := (getChildren_resume clock api (provider s) w).2;
              waiting := delete i (waiting s) |}, [])
      | None => (s, [])
      end
  end.

Fixpoint run (clock : Clock) (s : State) (ops : list Op) : State * list Effect :=
  match ops with
  | [] => (s, [])
  | op :: ops' =>
      let r1 := step clock s op in
      let r2 := run clock r1.1 ops' in
      (r2.1, r1.2 ++ r2.2)
  end.

(** Nothing waits. *)
Definition quiet (p : Provider) : State := {| provider := p; waiting := [] |}.

Definition is_clear (op : Op) : bool :=
  match op with clear => true | _ => false end.

Definition is_root_call (op : Op) : bool :=
  match op with call None => true | _ => false end.

#[global] Instance ApiCall_eq_dec : EqDecision ApiCall.
Proof. solve_decision. Defined.

(** The effect is the call [c] of the API. *)
Definition calls (c : ApiCall) (e : Effect) : bool :=
  match e with Call c' => bool_decide (c' = c) | _ => false end.

(** A call of [getChildren] waits for [c]. *)
Definition in_flight (c : ApiCall) (s : State) : bool :=
  bool_decide (c ∈ awaited <$> waiting s).

(** The cache holds what [c] fetches. The project list is not a cache:
    the root is fetched at every call. *)
Definition stored (c : ApiCall) (p : Provider) : bool :=
  match c with
  | callGetProjectEnvironments projectId => bool_decide (is_Some (environments p !! projectId))
  | callGetServices projectId => bool_decide (is_Some (services p !! projectId))
  | callGetDeployments serviceId environmentId =>
      bool_decide (is_Some (map_get (deployments_key serviceId environmentId) (deployments p)))
  | _ => false
  end.

Definition cached (c : ApiCall) : bool :=
  match c with
  | callGetProjectEnvironments _ | callGetServices _ | callGetDeployments _ _ => true
  | _ => false
  end.

(** [1] when [c] is neither stored nor on its way. *)
Definition due (c : ApiCall) (s : State) : nat :=
  if stored c (provider s) || in_flight c s then 0 else 1.

(** The calls [c] of a run that are made while a call of [getChildren]
    already waits for [c]. *)
Fixpoint overlapping (clock : Clock) (c : ApiCall) (s : State) (ops : list Op) : nat :=
  match ops with
  | [] => 0
  | op :: ops' =>
      (if in_flight c s then length (filter (calls c) (step clock s op).2) else 0)
      + overlapping clock c (step clock s op).1 ops'
  end.

(** The key of the deployments cache a waiting call will write. *)
Definition deployments_target (w : Suspended) : option string :=
  match w with
  | awaitDeployments serviceId environmentId => Some (deployments_key serviceId environmentId)
  | _ => None
  end.

(** The entries that no waiting call is about to write. *)
Definition settled_environment (s : State) k v : Prop :=
  environments (provider s) !! k = Some v
  ∧ in_flight (callGetProjectEnvironments k) s = false.

Definition settled_service (s : State) k v : Prop :=
  services (provider s) !! k = Some v ∧ in_flight (callGetServices k) s = false.

Definition settled_deployment (s : State) k v : Prop :=
  map_get k (deployments (provider s)) = Some v
  ∧ Some k ∉ deployments_target <$> waiting s.

End AsyncProvider.

Module TitleFacts.
Import Host LogViewer.

(** The titles a trace gives to the panel, in order. *)
Definition titles (t : list Effect) : list string :=
  omap (λ e, match e with
             | CreateWebviewPanel title | SetPanelTitle title => Some title
             | _ => None
             end) t.

Definition title_prefix (ty : LogType) : string :=
  match ty with
  | deploymentLogs => "Railway Deployment Logs - "
  | applicationLogs => "Railway Application Logs - "
  end.

End TitleFacts.

Module PanelFacts.
Import Host LogViewer.

(** What a sequence of events emits, in order. *)
Fixpoint effects (st : State) (evs : list Event) : list Effect :=
  match evs with
  | [] => []
  | ev :: evs' => (step st ev).2 ++ effects (step st ev).1 evs'
  end.

Definition is_create (e : Effect) : bool :=
  match e with CreateWebviewPanel _ => true | _ => false end.

Definition is_dispose (e : Effect) : bool :=
  match e with DisposePanel => true | _ => false end.

Definition is_reveal (e : Effect) : bool :=
  match e with RevealPanel => true | _ => false end.

Definition is_createOrShow (ev : Event) : bool :=
  match ev with createOrShow _ _ => true | _ => false end.

(** The number of panels that exist: [currentPanel] or none. *)
Definition open_panels (st : State) : nat :=
  match currentPanel st with Some _ => 1 | None => 0 end.

End PanelFacts.

(* ===================================================================== *)
(** * More concrete inputs                                                *)
(* ===================================================================== *)

Module ClientExamples.
Import JS RailwayClient.

(** [trim] for strings whose only white space is the space. *)
Fixpoint trim_start (s : string) : string :=
  match s with
  | String c s' => if Ascii.eqb c " " then trim_start s' else s
  | EmptyString => EmptyString
  end.

Definition trim (s : string) : string :=
  String.rev (trim_start (String.rev (trim_start s))).

(** The endpoint is reachable; the test query is answered with a GraphQL
    error "Not Authorized". *)
Definition remote_test_refused : Remote :=
  λ r, match query r with
       | testQuery =>
           Normal (Obj [("errors", Arr [Obj [("message", Str "Not Authorized")]])])
       | _ =>
           Normal (Obj [("data", Obj [("__schema",
             Obj [("queryType", Obj [("name", Str "Query")])])])])
       end.

End ClientExamples.

Module ShapeExamples.
Import JS Host.



End ShapeExamples.

Module ProviderExamples.
Import Host TreeProvider.

(** A provider whose deployments cache holds [d1], building. *)
Definition cached_building : Provider :=
  set_deployments [("svc1-env1", [Examples.d1 BUILDING])] initial.

End ProviderExamples.

(* ===================================================================== *)
(** * Properties of the transition detector                               *)
(* ===================================================================== *)

Section TransitionDetector.
Import Host TreeProvider.

(** [!==] on two statuses is disequality: the eight strings differ, and
    none is empty. *)
Lemma status_changed_spec prev cur :
  status_changed (Some prev) cur = bool_decide (prev ≠ cur).
Proof. destruct prev, cur; reflexivity. Qed.

Lemma adjacent_differing_cons a b l :
  adjacent_differing (a :: b :: l)
  = (if decide (a = b) then 0 else 1) + adjacent_differing (b :: l).
Proof.
  unfold adjacent_differing. simpl zip. rewrite filter_cons. simpl.
  destruct (decide (a = b)); destruct (decide (a ≠ b)); simpl; done.
Qed.

(** Counting over a sequence cut in two: the second half starts from the
    last status of the first. *)
Lemma adjacent_differing_app l1 l2 :
  adjacent_differing (l1 ++ l2)
  = adjacent_differing l1 + adjacent_differing (option_list (last l1) ++ l2).
Proof.
  induction l1 as [|a [|b l1] IH]; [done | done |].
  change ((a :: b :: l1) ++ l2) with (a :: b :: (l1 ++ l2)).
  rewrite !adjacent_differing_cons, last_cons_cons.
  change (b :: l1 ++ l2) with ((b :: l1) ++ l2). rewrite IH. lia.
Qed.

Lemma last_option_list_app {A} (l1 l2 : list A) :
  last (l1 ++ l2) = last (option_list (last l1) ++ l2).
Proof.
  rewrite !last_app. destruct (last l2); [done|]. by destruct (last l1).
Qed.

(** One deployment checked: its status is stored, and a call is made when
    a different status was stored before. *)
Lemma checkDeployment_eq m calls d :
  checkDeployment (m, calls) d
  = (<[ deployment_id d := deployment_status d ]> m,
     calls ++ match m !! deployment_id d with
              | Some prev =>
                  if decide (prev = deployment_status d) then []
                  else [{| changed := d; previousStatus := prev;
                           currentStatus := deployment_status d |}]
              | None => []
              end).
Proof.
  unfold checkDeployment. destruct (m !! deployment_id d) as [prev|] eqn:E.
  - rewrite status_changed_spec. destruct (decide (prev = deployment_status d)).
    + rewrite bool_decide_eq_false_2 by (intros H; done). by rewrite app_nil_r.
    + by rewrite bool_decide_eq_true_2.
  - simpl. by rewrite app_nil_r.
Qed.

(** A run of the loop body over any list of deployments, for one id [dep]:
    the calls made for [dep] are the changes in the sequence that starts
    with the stored status of [dep] and goes on with the statuses seen for
    it; and the status stored at the end is the last of that sequence. *)
Lemma checkDeployment_fold dep ds : ∀ m calls,
  let r := fold_left checkDeployment ds (m, calls) in
  length (transitions_of dep r.2)
  = length (transitions_of dep calls)
    + adjacent_differing (option_list (m !! dep) ++ statuses_of dep ds)
  ∧ r.1 !! dep = last (option_list (m !! dep) ++ statuses_of dep ds).
Proof.
  induction ds as [|d ds IH]; intros m calls; cbn [fold_left].
  - unfold statuses_of. simpl. rewrite app_nil_r. split.
    + destruct (m !! dep); simpl; unfold adjacent_differing; simpl; lia.
    + by destruct (m !! dep).
  - rewrite checkDeployment_eq.
    specialize (IH (<[deployment_id d:=deployment_status d]> m)
      (calls ++ match m !! deployment_id d with
                | Some prev =>
                    if decide (prev = deployment_status d) then []
                    else [{| changed := d; previousStatus := prev;
                             currentStatus := deployment_status d |}]
                | None => []
                end)).
    simpl in IH. destruct IH as [IH1 IH2]. rewrite IH1, IH2. clear IH1 IH2.
    unfold statuses_of, transitions_of.
    rewrite filter_app, length_app, filter_cons.
    destruct (decide (deployment_id d = dep)) as [Heq|Hne]; [subst dep|].
    + rewrite lookup_insert_eq. simpl.
      destruct (m !! deployment_id d) as [prev|]; simpl.
      * rewrite adjacent_differing_cons. split; [|done].
        destruct (decide (prev = deployment_status d)); [simpl; lia|].
        rewrite filter_cons. simpl. rewrite decide_True by reflexivity.
        simpl. lia.
      * split; [lia|done].
    + rewrite lookup_insert_ne by done. split; [|done].
      destruct (m !! deployment_id d) as [prev|]; [|simpl; lia].
      destruct (decide (prev = deployment_status d)); [simpl; lia|].
      rewrite filter_cons. simpl. rewrite decide_False by (simpl; done).
      simpl. lia.
Qed.

Lemma fold_left_flat_map {A B C} (f : A → C → A) (g : B → list C) l : ∀ a,
  fold_left (λ acc x, fold_left f (g x) acc) l a = fold_left f (flat_map g l) a.
Proof.
  induction l as [|x l IH]; intros a; simpl; [done|].
  by rewrite fold_left_app, IH.
Qed.

(** The two loops of [checkDeploymentStatuses] are one pass over the
    cached deployments. *)
Lemma checkDeploymentStatuses_eq p :
  checkDeploymentStatuses p
  = (set_deploymentStatuses
       (fold_left checkDeployment (cached_deployments p)
                  (deploymentStatuses p, [])).1 p,
     (fold_left checkDeployment (cached_deployments p)
                (deploymentStatuses p, [])).2).
Proof.
  unfold checkDeploymentStatuses, cached_deployments.
  rewrite (fold_left_flat_map checkDeployment snd).
  by destruct (fold_left _ _ _).
Qed.

(** [getChildren] does not touch the status map. *)
Lemma getChildren_statuses clock api p element :
  deploymentStatuses (getChildren clock api p element).1.2 = deploymentStatuses p.
Proof.
  unfold getChildren. repeat (case_match; simplify_eq; try done).
Qed.

Lemma do_op_count clock dep p op :
  let r := do_op clock p op in
  length (transitions_of dep (dispatched r))
  = adjacent_differing
      (option_list (deploymentStatuses p !! dep) ++ statuses_of dep (observed r))
  ∧ deploymentStatuses (final r) !! dep
    = last (option_list (deploymentStatuses p !! dep) ++ statuses_of dep (observed r)).
Proof.
  assert (Hnil : ∀ o : option DeploymentStatus,
             0 = adjacent_differing (option_list o ++ [])
             ∧ o = last (option_list o ++ [])).
  { intros [s|]; done. }
  destruct op as [| |api el]; simpl.
  - unfold autoRefresh_tick. rewrite checkDeploymentStatuses_eq. simpl.
    pose proof (checkDeployment_fold dep (cached_deployments p)
                  (deploymentStatuses p) []) as H.
    simpl in H. exact H.
  - apply Hnil.
  - pose proof (getChildren_statuses clock api p el) as Hs.
    destruct (getChildren clock api p el) as [[items p'] t]. simpl in *.
    rewrite Hs. apply Hnil.
Qed.

(** The same over a whole session, from any provider. *)
Lemma run_count clock dep ops : ∀ p,
  let r := run clock p ops in
  length (transitions_of dep (dispatched r))
  = adjacent_differing
      (option_list (deploymentStatuses p !! dep) ++ statuses_of dep (observed r))
  ∧ deploymentStatuses (final r) !! dep
    = last (option_list (deploymentStatuses p !! dep) ++ statuses_of dep (observed r)).
Proof.
  induction ops as [|op ops IH]; intros p; cbn [run].
  - cbn. destruct (deploymentStatuses p !! dep); done.
  - cbn zeta. cbn [observed dispatched final].
    destruct (do_op_count clock dep p op) as [H1 H2].
    destruct (IH (final (do_op clock p op))) as [I1 I2].
    cbn zeta in *.
    unfold transitions_of, statuses_of in *.
    rewrite !filter_app, length_app, map_app, app_assoc.
    rewrite adjacent_differing_app.
    rewrite (last_option_list_app (_ ++ _) (map _ _)).
    rewrite <- H2, H1, I1, I2. done.
Qed.

(** C1. For every deployment id and every session of a new provider
    (ticks, refreshes and expansions in any order), the number of calls of
    [notifyDeploymentStatusChange] made for that id equals the number of
    adjacent pairs of differing statuses in the sequence of statuses that
    [checkDeploymentStatuses] saw for it; and so for the body of its loop
    run over any list of deployments from an empty status map. In particular a deployment whose
    id has no stored status yet causes no call, whatever its status; and
    the same status seen twice in a row causes at most one call, none the
    second time. *)
Theorem checkDeploymentStatuses_counts_adjacent_changes :
  (∀ clock ops dep,
     let r := run clock initial ops in
     length (transitions_of dep (dispatched r))
     = adjacent_differing (statuses_of dep (observed r)))
  ∧ (∀ ds dep,
       length (transitions_of dep (fold_left checkDeployment ds (∅, [])).2)
       = adjacent_differing (statuses_of dep ds))
  ∧ (∀ statuses calls d,
       statuses !! deployment_id d = None →
       (checkDeployment (statuses, calls) d).2 = calls)
  ∧ (∀ statuses calls d d',
       deployment_id d' = deployment_id d →
       deployment_status d' = deployment_status d →
       length (fold_left checkDeployment [d; d'] (statuses, calls)).2
       ≤ S (length calls)
       ∧ (checkDeployment (checkDeployment (statuses, calls) d) d').2
         = (checkDeployment (statuses, calls) d).2).
Proof.
  split; [|split; [|split]].
  - intros clock ops dep r. subst r.
    destruct (run_count clock dep ops initial) as [H _].
    rewrite H. simpl. by rewrite lookup_empty.
  - intros ds dep.
    destruct (checkDeployment_fold dep ds ∅ []) as [H _].
    rewrite H. simpl. by rewrite lookup_empty.
  - intros statuses calls d Hnone. rewrite checkDeployment_eq, Hnone.
    simpl. apply app_nil_r.
  - intros statuses calls d d' Hid Hst. cbn [fold_left].
    rewrite checkDeployment_eq. rewrite (checkDeployment_eq _ _ d').
    rewrite Hid, Hst, lookup_insert_eq.
    rewrite decide_True by done. rewrite app_nil_r. cbn [snd].
    split; [|done]. rewrite length_app.
    destruct (statuses !! deployment_id d) as [prev|]; [|simpl; lia].
    destruct (decide (prev = deployment_status d)); simpl; lia.
Qed.

Lemma checkDeploymentStatuses_counts_adjacent_changes_witness :
  (<[ "d1" := BUILDING ]> (∅ : gmap string DeploymentStatus)) !! "d2" = None
  ∧ (checkDeployment
       (<[ "d1" := BUILDING ]> ∅, [])
       {| deployment_id := "d2"; deployment_status := FAILED;
          deployment_staticUrl := None; deployment_createdAt := "";
          deployment_updatedAt := ""; deployment_serviceId := "svc1";
          deployment_environmentId := "env1" |}).2 = []
  ∧ length (fold_left checkDeployment
              [Examples.d1 SUCCESS; Examples.d1 SUCCESS]
              (<[ "d1" := BUILDING ]> ∅, [])).2 ≤ 1.
Proof.
  destruct checkDeploymentStatuses_counts_adjacent_changes
    as (_ & _ & Hfirst & Htwice).
  split; [reflexivity|]. split.
  - apply Hfirst. reflexivity.
  - apply (Htwice (<[ "d1" := BUILDING ]> ∅) [] (Examples.d1 SUCCESS)
                  (Examples.d1 SUCCESS)); reflexivity.
Defined.

End TransitionDetector.

(* ===================================================================== *)
(** * Properties of the tree poll                                         *)
(* ===================================================================== *)

Section TreePoll.
Import Host TreeProvider.

Lemma notifyDeploymentStatusChange_no_call clock tr :
  filter is_call (notifyDeploymentStatusChange clock tr) = [].
Proof.
  destruct tr as [d prev cur]. unfold notifyDeploymentStatusChange. simpl.
  destruct prev, cur; reflexivity.
Qed.

Lemma flat_map_notify_no_call clock trs :
  filter is_call (flat_map (notifyDeploymentStatusChange clock) trs) = [].
Proof.
  induction trs as [|tr trs IH]; simpl; [done|].
  by rewrite filter_app, notifyDeploymentStatusChange_no_call, IH.
Qed.

Lemma statuses_of_elem d ds :
  d ∈ ds → statuses_of (deployment_id d) ds ≠ [].
Proof.
  intros Hin. unfold statuses_of.
  assert (d ∈ filter (λ d0, deployment_id d0 = deployment_id d) ds) as H.
  { apply list_elem_of_filter. done. }
  destruct (filter _ ds); [by apply not_elem_of_nil in H|done].
Qed.

(** What a tick of the tree poll does. It checks each deployment held in
    the cache, in the order of the cache and as it is cached: it stores its
    status and calls [notifyDeploymentStatusChange] when a different status
    was stored; then it fires the tree-changed signal, last. It calls no
    method of [RailwayAPI] and writes no cache level. *)
Theorem autoRefresh_tick_checks_cache clock p :
  let r := autoRefresh_tick clock p in
  filter is_call r.2 = []
  ∧ (projects r.1, environments r.1, services r.1, deployments r.1)
    = (projects p, environments p, services p, deployments p)
  ∧ (deploymentStatuses r.1, (checkDeploymentStatuses p).2)
    = fold_left checkDeployment (cached_deployments p) (deploymentStatuses p, [])
  ∧ (∀ d, d ∈ cached_deployments p →
          deploymentStatuses r.1 !! deployment_id d
          = last (statuses_of (deployment_id d) (cached_deployments p)))
  ∧ r.2 = flat_map (notifyDeploymentStatusChange clock) (checkDeploymentStatuses p).2
            ++ [FireTreeDataChanged].
Proof.
  unfold autoRefresh_tick. rewrite checkDeploymentStatuses_eq. cbn [fst snd].
  destruct (fold_left checkDeployment (cached_deployments p) (deploymentStatuses p, []))
    as [statuses calls] eqn:E.
  cbn [fst snd]. split; [|split; [|split; [|split]]]; try done.
  - rewrite filter_app, flat_map_notify_no_call. done.
  - intros d Hin. simpl.
    pose proof (checkDeployment_fold (deployment_id d) (cached_deployments p)
                  (deploymentStatuses p) []) as [_ H].
    rewrite E in H. simpl in H. rewrite H, last_app.
    pose proof (statuses_of_elem d _ Hin) as Hne.
    destruct (last (statuses_of _ _)) eqn:El; [done|].
    apply last_None in El. done.
Qed.

(** C2. Every tick is to fetch again each deployment held in the cache, to
    store what it fetched and to check the fetched deployment. The code
    does not: with the cache holding [d1] as BUILDING (stored when the user
    expanded the service) and the remote now reporting it as SUCCESS, the
    tick fetches nothing, leaves the cached entry as it was, records
    BUILDING, the cached status, and shows nothing; all it emits is the
    tree-changed signal. When the host then asks for the children of the
    service again it is served from the cache, so the next tick sees
    BUILDING again and the change to SUCCESS is never dispatched. *)
Lemma autoRefresh_tick_no_refetch :
  let el := Some (service_item Examples.clock0 "env1" Examples.svc1) in
  let p := final (run Examples.clock0 initial [expand (Examples.api_with BUILDING) el]) in
  let r := autoRefresh_tick Examples.clock0 p in
  cached_deployments p = [Examples.d1 BUILDING]
  ∧ getDeployments (Examples.api_with SUCCESS) "svc1" "env1" = [Examples.d1 SUCCESS]
  ∧ r.2 = [FireTreeDataChanged]
  ∧ map_get (deployments_key "svc1" "env1") (deployments r.1)
    = Some [Examples.d1 BUILDING]
  ∧ map_get (deployments_key "svc1" "env1") (deployments r.1)
    ≠ Some (getDeployments (Examples.api_with SUCCESS) "svc1" "env1")
  ∧ deploymentStatuses r.1 !! "d1" = Some BUILDING
  ∧ (let s := run Examples.clock0 initial
                [expand (Examples.api_with BUILDING) el; tick;
                 expand (Examples.api_with SUCCESS) el; tick] in
     filter is_call (effects s) = [Call (callGetDeployments "svc1" "env1")]
     ∧ observed s = [Examples.d1 BUILDING; Examples.d1 BUILDING]
     ∧ dispatched s = []).
Proof. vm_compute. repeat split; discriminate. Qed.

(** C5, as the code has it. A call of [notifyDeploymentStatusChange] shows
    a message if and only if the previous status is BUILDING or DEPLOYING
    and the current one is SUCCESS, FAILED, CRASHED or CANCELLED. Then
    SUCCESS gives an information message, FAILED and CRASHED an error
    message, both with the action "View Logs", and CANCELLED a warning
    without action. A deployment seen BUILDING, then DEPLOYING, then
    SUCCESS at three ticks causes two calls and one message, the success
    message, for the change from DEPLOYING to SUCCESS. *)
Theorem notifyDeploymentStatusChange_policy clock :
  (∀ tr,
     filter is_notification (notifyDeploymentStatusChange clock tr) ≠ []
     ↔ (previousStatus tr = BUILDING ∨ previousStatus tr = DEPLOYING)
       ∧ currentStatus tr ∈ [SUCCESS; FAILED; CRASHED; CANCELLED])
  ∧ (∀ tr,
       previousStatus tr = BUILDING ∨ previousStatus tr = DEPLOYING →
       currentStatus tr = SUCCESS →
       notifyDeploymentStatusChange clock tr
       = [ShowInformationMessage
            ("✅ Deployment successful! (" +:+ now clock +:+ ")") ["View Logs"]])
  ∧ (∀ tr,
       previousStatus tr = BUILDING ∨ previousStatus tr = DEPLOYING →
       currentStatus tr = FAILED ∨ currentStatus tr = CRASHED →
       notifyDeploymentStatusChange clock tr
       = [ShowErrorMessage
            ("❌ Deployment " +:+ JS.lower (status_string (currentStatus tr))
               +:+ "! (" +:+ now clock +:+ ")") ["View Logs"]])
  ∧ (∀ tr,
       previousStatus tr = BUILDING ∨ previousStatus tr = DEPLOYING →
       currentStatus tr = CANCELLED →
       notifyDeploymentStatusChange clock tr
       = [ShowWarningMessage ("⚠️ Deployment cancelled (" +:+ now clock +:+ ")") []])
  ∧ (let r := run clock initial (Examples.scenario clock) in
     statuses_of "d1" (observed r) = [BUILDING; DEPLOYING; SUCCESS]
     ∧ dispatched r
       = [ {| changed := Examples.d1 DEPLOYING;
              previousStatus := BUILDING; currentStatus := DEPLOYING |};
           {| changed := Examples.d1 SUCCESS;
              previousStatus := DEPLOYING; currentStatus := SUCCESS |} ]
     ∧ filter is_notification (effects r)
       = [ShowInformationMessage
            ("✅ Deployment successful! (" +:+ now clock +:+ ")") ["View Logs"]]).
Proof.
  split; [|split; [|split; [|split]]].
  - intros [d prev cur]. cbn [previousStatus currentStatus].
    rewrite !elem_of_cons, elem_of_nil.
    destruct prev, cur; (split; [intros H | intros [Hp Hc]]);
      first [ by exfalso; apply H
            | by (split; [auto | auto 6])
            | by destruct Hp as [Hp|Hp]; discriminate Hp
            | by destruct Hc as [Hc|[Hc|[Hc|[Hc|[]]]]]; discriminate Hc
            | done ].
  - intros [d prev cur]. cbn [previousStatus currentStatus].
    intros [->| ->] ->; reflexivity.
  - intros [d prev cur]. cbn [previousStatus currentStatus].
    intros [->| ->] [->| ->]; reflexivity.
  - intros [d prev cur]. cbn [previousStatus currentStatus].
    intros [->| ->] ->; reflexivity.
  - vm_compute. done.
Qed.

Lemma notifyDeploymentStatusChange_policy_witness :
  notifyDeploymentStatusChange Examples.clock0
    {| changed := Examples.d1 SUCCESS; previousStatus := DEPLOYING;
       currentStatus := SUCCESS |}
  = [ShowInformationMessage "✅ Deployment successful! (12:00:00)" ["View Logs"]]
  ∧ notifyDeploymentStatusChange Examples.clock0
      {| changed := Examples.d1 CRASHED; previousStatus := BUILDING;
         currentStatus := CRASHED |}
    = [ShowErrorMessage "❌ Deployment crashed! (12:00:00)" ["View Logs"]]
  ∧ notifyDeploymentStatusChange Examples.clock0
      {| changed := Examples.d1 CANCELLED; previousStatus := BUILDING;
         currentStatus := CANCELLED |}
    = [ShowWarningMessage "⚠️ Deployment cancelled (12:00:00)" []].
Proof.
  destruct (notifyDeploymentStatusChange_policy Examples.clock0)
    as (_ & Hs & Hf & Hc & _).
  split; [|split].
  - apply (Hs {| changed := Examples.d1 SUCCESS; previousStatus := DEPLOYING;
                 currentStatus := SUCCESS |}); [right|]; reflexivity.
  - apply (Hf {| changed := Examples.d1 CRASHED; previousStatus := BUILDING;
                 currentStatus := CRASHED |}); [left|right]; reflexivity.
  - apply (Hc {| changed := Examples.d1 CANCELLED; previousStatus := BUILDING;
                 currentStatus := CANCELLED |}); [left|]; reflexivity.
Defined.

(** C5, as stated, fails: a change from BUILDING to DEPLOYING is a change
    from a building status, and nothing is shown for it. *)
Lemma notifyDeploymentStatusChange_building_to_deploying :
  let tr := {| changed := Examples.d1 DEPLOYING; previousStatus := BUILDING;
               currentStatus := DEPLOYING |} in
  notifyDeploymentStatusChange Examples.clock0 tr = []
  ∧ ¬ (filter is_notification (notifyDeploymentStatusChange Examples.clock0 tr) ≠ []
       ↔ previousStatus tr = BUILDING ∨ previousStatus tr = DEPLOYING).
Proof.
  split; [reflexivity|]. intros [_ H]. apply H; [by left | reflexivity].
Qed.

End TreePoll.

(* ===================================================================== *)
(** * Properties of the hierarchical cache                                *)
(* ===================================================================== *)

Section Cache.
Import Host TreeProvider.

Lemma map_get_set {V} k (v : V) m : map_get k (map_set k v m) = Some v.
Proof.
  induction m as [|[k' v'] m IH]; simpl.
  - by rewrite String.eqb_refl.
  - destruct (String.eqb k k') eqn:E; simpl.
    + by rewrite String.eqb_refl.
    + by rewrite E.
Qed.

Lemma map_get_set_ne {V} k k' (v : V) m :
  k ≠ k' → map_get k' (map_set k v m) = map_get k' m.
Proof.
  intros Hne. induction m as [|[k0 v0] m IH]; simpl.
  - destruct (String.eqb_spec k' k); [congruence|done].
  - destruct (String.eqb_spec k k0) as [->|]; simpl.
    + destruct (String.eqb_spec k' k0); [congruence|done].
    + by rewrite IH.
Qed.

Lemma getChildren_project clock api p prj :
  getChildren clock api p (Some (project_item clock prj))
  = match environments p !! project_id prj with
    | Some envs => (map (environment_item clock (project_id prj)) envs, p, [])
    | None =>
        (map (environment_item clock (project_id prj))
             (getProjectEnvironments api (project_id prj)),
         set_environments
           (<[ project_id prj := getProjectEnvironments api (project_id prj) ]>
              (environments p)) p,
         [Call (callGetProjectEnvironments (project_id prj))])
    end.
Proof. reflexivity. Qed.

Lemma getChildren_environment clock api p env projectId :
  getChildren clock api p (Some (environment_item clock projectId env))
  = match services p !! projectId with
    | Some projectServices =>
        (map (service_item clock (environment_id env)) projectServices, p, [])
    | None =>
        (map (service_item clock (environment_id env)) (getServices api projectId),
         set_services (<[ projectId := getServices api projectId ]> (services p)) p,
         [Call (callGetServices projectId)])
    end.
Proof. reflexivity. Qed.

Lemma getChildren_service clock api p svc environmentId :
  getChildren clock api p (Some (service_item clock environmentId svc))
  = match map_get (deployments_key (service_id svc) environmentId) (deployments p) with
    | Some serviceDeployments => (map (deployment_item clock) serviceDeployments, p, [])
    | None =>
        (map (deployment_item clock) (getDeployments api (service_id svc) environmentId),
         set_deployments
           (map_set (deployments_key (service_id svc) environmentId)
                    (getDeployments api (service_id svc) environmentId)
                    (deployments p)) p,
         [Call (callGetDeployments (service_id svc) environmentId)])
    end.
Proof. reflexivity. Qed.

(** C9. What is stored under a key at a cache level is what a read of
    that key returns, for every sequence of entities, the empty one
    included: for the project list, which [getChildren] assigns from
    [getProjects]; for the three maps, by [set] then [get]; and through
    [getChildren], where a miss stores what the API returned and the next
    call on the same element renders the same items from the cache, without
    calling the API. *)
Theorem cache_round_trip clock api p :
  projects (getChildren clock api p None).1.2 = getProjects api
  ∧ (∀ k v, environments (set_environments (<[ k := v ]> (environments p)) p) !! k = Some v)
  ∧ (∀ k v, services (set_services (<[ k := v ]> (services p)) p) !! k = Some v)
  ∧ (∀ k v, map_get k (deployments (set_deployments (map_set k v (deployments p)) p)) = Some v)
  ∧ (∀ prj,
       environments p !! project_id prj = None →
       let el := Some (project_item clock prj) in
       let r := getChildren clock api p el in
       environments r.1.2 !! project_id prj
       = Some (getProjectEnvironments api (project_id prj))
       ∧ ∀ api', getChildren clock api' r.1.2 el = (r.1.1, r.1.2, []))
  ∧ (∀ env projectId,
       services p !! projectId = None →
       let el := Some (environment_item clock projectId env) in
       let r := getChildren clock api p el in
       services r.1.2 !! projectId = Some (getServices api projectId)
       ∧ ∀ api', getChildren clock api' r.1.2 el = (r.1.1, r.1.2, []))
  ∧ (∀ svc environmentId,
       map_get (deployments_key (service_id svc) environmentId) (deployments p) = None →
       let el := Some (service_item clock environmentId svc) in
       let r := getChildren clock api p el in
       map_get (deployments_key (service_id svc) environmentId) (deployments r.1.2)
       = Some (getDeployments api (service_id svc) environmentId)
       ∧ ∀ api', getChildren clock api' r.1.2 el = (r.1.1, r.1.2, [])).
Proof.
  split; [|split; [|split; [|split; [|split; [|split]]]]].
  - unfold getChildren. cbn [set_projects projects]. by destruct (_ =? _).
  - intros k v. cbn [set_environments environments]. apply lookup_insert_eq.
  - intros k v. cbn [set_services services]. apply lookup_insert_eq.
  - intros k v. cbn [set_deployments deployments]. apply map_get_set.
  - intros prj Hmiss el r. subst el r. rewrite getChildren_project, Hmiss.
    cbn [fst snd set_environments environments]. rewrite lookup_insert_eq.
    split; [done|]. intros api'. rewrite getChildren_project.
    cbn [set_environments environments]. by rewrite lookup_insert_eq.
  - intros env projectId Hmiss el r. subst el r. rewrite getChildren_environment, Hmiss.
    cbn [fst snd set_services services]. rewrite lookup_insert_eq.
    split; [done|]. intros api'. rewrite getChildren_environment.
    cbn [set_services services]. by rewrite lookup_insert_eq.
  - intros svc environmentId Hmiss el r. subst el r. rewrite getChildren_service, Hmiss.
    cbn [fst snd set_deployments deployments]. rewrite map_get_set.
    split; [done|]. intros api'. rewrite getChildren_service.
    cbn [set_deployments deployments]. by rewrite map_get_set.
Qed.

Lemma cache_round_trip_witness :
  environments initial !! project_id Examples.prj1 = None
  ∧ environments
      (getChildren Examples.clock0 Examples.api_empty initial
         (Some (project_item Examples.clock0 Examples.prj1))).1.2
    !! project_id Examples.prj1 = Some []
  ∧ map_get (deployments_key "svc1" "env1") (deployments initial) = None
  ∧ map_get (deployments_key "svc1" "env1")
      (deployments
         (getChildren Examples.clock0 (Examples.api_with SUCCESS) initial
            (Some (service_item Examples.clock0 "env1" Examples.svc1))).1.2)
    = Some [Examples.d1 SUCCESS].
Proof.
  split; [reflexivity|]. split.
  - destruct (cache_round_trip Examples.clock0 Examples.api_empty initial)
      as (_ & _ & _ & _ & H & _).
    apply (H Examples.prj1). reflexivity.
  - split; [reflexivity|].
    destruct (cache_round_trip Examples.clock0 (Examples.api_with SUCCESS) initial)
      as (_ & _ & _ & _ & _ & _ & H).
    apply (H Examples.svc1 "env1"). reflexivity.
Defined.

(** C7. After [clearCache] every level is empty at once: the project list
    is the empty array, as in a new provider, and a [get] of any key in
    the environments, the services or the deployments returns nothing,
    whatever was stored before. *)
Theorem clearCache_empties_every_level p k :
  let p' := (clearCache p).1 in
  projects p' = []
  ∧ environments p' !! k = None
  ∧ services p' !! k = None
  ∧ map_get k (deployments p') = None
  ∧ cached_deployments p' = []
  ∧ (projects p', environments p', services p', deployments p')
    = (projects initial, environments initial, services initial, deployments initial).
Proof. simpl. repeat split; apply lookup_empty. Qed.

(** C10. [clearCache] leaves the map of last known statuses as it is: the
    status stored for every deployment id is the same before and after, so
    a deployment checked after a refresh is compared with the status it had
    before the refresh, as if no refresh had happened. *)
Theorem clearCache_keeps_statuses p :
  deploymentStatuses (clearCache p).1 = deploymentStatuses p
  ∧ (∀ id, deploymentStatuses (clearCache p).1 !! id = deploymentStatuses p !! id)
  ∧ (∀ calls d,
       checkDeployment (deploymentStatuses (clearCache p).1, calls) d
       = checkDeployment (deploymentStatuses p, calls) d)
  ∧ (∀ clock, deploymentStatuses (final (do_op clock p clear)) = deploymentStatuses p).
Proof. done. Qed.

End Cache.

(* ===================================================================== *)
(** * Properties of the log poll                                          *)
(* ===================================================================== *)

Section LogPoll.
Import Host TreeProvider LogViewer.
#[local] Set Warnings "-clear-no-such-hyp".

Lemma timers_invariant_start tm0 : timers_invariant tm0 (start tm0).
Proof.
  unfold timers_invariant, panel_timer; simpl. split; [lia|]. split; [set_solver|].
  apply leibniz_equiv. set_solver.
Qed.

Lemma fresh_not_initial tm0 (h : nat) :
  Timers.wf tm0 → Timers.next tm0 ≤ h → h ∉ Timers.active tm0.
Proof. intros Hwf Hle Hin. apply Hwf in Hin. lia. Qed.

Lemma toggleAutoRefresh_invariant tm0 st p :
  Timers.wf tm0 → currentPanel st = Some p → timers_invariant tm0 st →
  timers_invariant tm0 {| currentPanel := Some (toggleAutoRefresh p (timers st)).1.1;
             timers := (toggleAutoRefresh p (timers st)).1.2 |}.
Proof.
  intros Hwf Ep (Hn & Hh & Ha). unfold timers_invariant, panel_timer in *. rewrite Ep in *.
  unfold toggleAutoRefresh. destruct (autoRefreshInterval p) as [h|]; simpl.
  - split; [done|]. split; [set_solver|]. rewrite Ha.
    pose proof (fresh_not_initial tm0 h Hwf) as Hf.
    assert (Timers.next tm0 ≤ h) by (apply Hh; set_solver).
    apply leibniz_equiv. set_solver.
  - split; [lia|]. split.
    + intros h Hin. apply elem_of_singleton in Hin. subst. lia.
    + rewrite Ha. apply leibniz_equiv. set_solver.
Qed.

Lemma dispose_invariant tm0 st p :
  Timers.wf tm0 → currentPanel st = Some p → timers_invariant tm0 st →
  timers_invariant tm0 {| currentPanel := None; timers := (dispose p (timers st)).1 |}.
Proof.
  intros Hwf Ep (Hn & Hh & Ha). unfold timers_invariant, panel_timer in *. rewrite Ep in *.
  unfold dispose. destruct (autoRefreshInterval p) as [h|]; simpl.
  - split; [done|]. split; [set_solver|]. rewrite Ha.
    pose proof (fresh_not_initial tm0 h Hwf) as Hf.
    assert (Timers.next tm0 ≤ h) by (apply Hh; set_solver).
    apply leibniz_equiv. set_solver.
  - split; [done|]. split; [set_solver|]. rewrite Ha.
    apply leibniz_equiv. set_solver.
Qed.

Lemma same_timers_invariant tm0 st st' :
  timers st' = timers st → panel_timer st' = panel_timer st →
  timers_invariant tm0 st → timers_invariant tm0 st'.
Proof. unfold timers_invariant. by intros -> ->. Qed.

Lemma step_invariant tm0 st ev :
  Timers.wf tm0 → timers_invariant tm0 st → timers_invariant tm0 (step st ev).1.
Proof.
  intros Hwf Hi. unfold step.
  destruct ev as [r ty|c|], (currentPanel st) as [p|] eqn:Ep; simpl; try done.
  - apply (same_timers_invariant tm0 st); [done| |done].
    unfold panel_timer. by rewrite Ep.
  - apply (same_timers_invariant tm0 st); [done| |done].
    unfold panel_timer. by rewrite Ep.
  - destruct (String.eqb c "refresh"); [done|].
    destruct (String.eqb c "toggleAutoRefresh").
    + pose proof (toggleAutoRefresh_invariant tm0 st p Hwf Ep Hi) as H.
      by destruct (toggleAutoRefresh p (timers st)) as [[p' tm'] t].
    + by destruct (String.eqb c "clearLogs").
  - pose proof (dispose_invariant tm0 st p Hwf Ep Hi) as H.
    by destruct (dispose p (timers st)) as [tm' t].
Qed.

Lemma run_app st evs1 evs2 : run st (evs1 ++ evs2) = run (run st evs1) evs2.
Proof. unfold run. by rewrite fold_left_app. Qed.

Lemma run_invariant tm0 evs : ∀ st,
  Timers.wf tm0 → timers_invariant tm0 st → timers_invariant tm0 (run st evs).
Proof.
  induction evs as [|ev evs IH]; intros st Hwf Hi; [done|].
  simpl. apply IH; [done|]. by apply step_invariant.
Qed.

Lemma log_timers_panel tm0 st :
  Timers.wf tm0 → timers_invariant tm0 st → log_timers tm0 st = panel_timer st.
Proof.
  intros Hwf (Hn & Hh & Ha). unfold log_timers. rewrite Ha.
  apply leibniz_equiv. 
  assert (∀ h, h ∈ panel_timer st → h ∉ Timers.active tm0).
  { intros h Hin Hin0. apply Hwf in Hin0. apply Hh in Hin. lia. }
  set_solver.
Qed.

Lemma panel_timer_size st : size (panel_timer st) ≤ 1.
Proof.
  unfold panel_timer. destruct (currentPanel st) as [p|]; [|by rewrite size_empty; lia].
  destruct (autoRefreshInterval p); [by rewrite size_singleton | rewrite size_empty; lia].
Qed.

Lemma toggle_on st p :
  currentPanel st = Some p → autoRefreshInterval p = None →
  ∃ p', currentPanel (step st toggle).1 = Some p'
        ∧ autoRefreshInterval p' = Some (Timers.next (timers st)).
Proof.
  intros Ep Eh. unfold step, toggle. rewrite Ep. simpl.
  unfold toggleAutoRefresh. rewrite Eh. simpl. eauto.
Qed.

Lemma toggle_off st p h :
  currentPanel st = Some p → autoRefreshInterval p = Some h →
  ∃ p', currentPanel (step st toggle).1 = Some p' ∧ autoRefreshInterval p' = None.
Proof.
  intros Ep Eh. unfold step, toggle. rewrite Ep. simpl.
  unfold toggleAutoRefresh. rewrite Eh. simpl. eauto.
Qed.

Lemma panel_timer_on st p h :
  currentPanel st = Some p → autoRefreshInterval p = Some h → size (panel_timer st) = 1.
Proof. intros Ep Eh. unfold panel_timer. rewrite Ep, Eh. apply size_singleton. Qed.

Lemma panel_timer_off st p :
  currentPanel st = Some p → autoRefreshInterval p = None → size (panel_timer st) = 0.
Proof. intros Ep Eh. unfold panel_timer. by rewrite Ep, Eh. Qed.

Ltac no_interval H :=
  simpl in H; repeat (destruct H as [H|H]; [discriminate|]); contradiction.

(** C8. Started with whatever intervals [tm0] the rest of the extension
    runs, the log viewer has at most one interval of its own running after
    every sequence of events. From a panel whose auto-refresh is off,
    toggling once leaves exactly one, twice none, three times exactly one.
    A step starts an interval only when the log viewer has none running.
    After the panel is disposed none is running. *)
Theorem toggleAutoRefresh_one_timer tm0 :
  Timers.wf tm0 →
  (∀ evs, size (log_timers tm0 (run (start tm0) evs)) ≤ 1)
  ∧ (∀ evs p,
       currentPanel (run (start tm0) evs) = Some p →
       autoRefreshInterval p = None →
       size (log_timers tm0 (run (start tm0) (evs ++ [toggle]))) = 1
       ∧ size (log_timers tm0 (run (start tm0) (evs ++ [toggle; toggle]))) = 0
       ∧ size (log_timers tm0 (run (start tm0) (evs ++ [toggle; toggle; toggle]))) = 1)
  ∧ (∀ evs ev h ms,
       In (SetInterval h ms) (step (run (start tm0) evs) ev).2 →
       log_timers tm0 (run (start tm0) evs) = ∅)
  ∧ (∀ evs, log_timers tm0 (run (start tm0) (evs ++ [onDidDispose])) = ∅).
Proof.
  intros Hwf.
  assert (Hinv : ∀ evs, timers_invariant tm0 (run (start tm0) evs)).
  { intros evs. apply run_invariant; [done | apply timers_invariant_start]. }
  split; [|split; [|split]].
  - intros evs. rewrite log_timers_panel by done. apply panel_timer_size.
  - intros evs p Ep Eh. rewrite !log_timers_panel by done. rewrite !run_app.
    set (st := run (start tm0) evs) in *.
    destruct (toggle_on st p Ep Eh) as (p1 & Ep1 & Eh1).
    destruct (toggle_off _ p1 _ Ep1 Eh1) as (p2 & Ep2 & Eh2).
    destruct (toggle_on _ p2 Ep2 Eh2) as (p3 & Ep3 & Eh3).
    split; [|split].
    + exact (panel_timer_on _ _ _ Ep1 Eh1).
    + exact (panel_timer_off _ _ Ep2 Eh2).
    + exact (panel_timer_on _ _ _ Ep3 Eh3).
  - intros evs ev h ms Hin. rewrite log_timers_panel by done.
    set (st := run (start tm0) evs) in *.
    unfold step in Hin. unfold panel_timer.
    destruct ev as [r ty|c|], (currentPanel st) as [p|] eqn:Ep;
      simpl in Hin; try done; try (exfalso; no_interval Hin).
    + destruct (String.eqb c "refresh"); [exfalso; no_interval Hin|].
      destruct (String.eqb c "toggleAutoRefresh").
      * unfold toggleAutoRefresh in Hin.
        destruct (autoRefreshInterval p) as [h'|] eqn:Eh; [|done].
        exfalso. no_interval Hin.
      * exfalso. destruct (String.eqb c "clearLogs"); no_interval Hin.
    + exfalso. unfold dispose in Hin. destruct (autoRefreshInterval p); no_interval Hin.
  - intros evs. rewrite log_timers_panel by done. rewrite run_app.
    set (st := run (start tm0) evs) in *.
    unfold panel_timer. simpl. unfold step.
    destruct (currentPanel st) as [p|] eqn:Ep; simpl; [|by rewrite Ep].
    by destruct (dispose p _).
Qed.

Lemma toggleAutoRefresh_one_timer_witness :
  Timers.wf Timers.empty
  ∧ size (log_timers Timers.empty
            (run (start Timers.empty)
               [createOrShow (DeploymentData (Examples.d1 BUILDING)) deploymentLogs;
                toggle; toggle; toggle])) = 1
  ∧ log_timers Timers.empty
      (run (start Timers.empty)
         [createOrShow (DeploymentData (Examples.d1 BUILDING)) deploymentLogs;
          toggle; onDidDispose]) = ∅.
Proof.
  assert (Hwf : Timers.wf Timers.empty).
  { intros h Hin. simpl in Hin. by apply not_elem_of_empty in Hin. }
  split; [exact Hwf|].
  destruct (toggleAutoRefresh_one_timer Timers.empty Hwf) as (_ & Htoggle & _ & Hdispose).
  split.
  - apply (Htoggle [createOrShow (DeploymentData (Examples.d1 BUILDING)) deploymentLogs]
             {| resource := DeploymentData (Examples.d1 BUILDING);
                logType := deploymentLogs; autoRefreshInterval := None |});
      reflexivity.
  - apply (Hdispose [createOrShow (DeploymentData (Examples.d1 BUILDING)) deploymentLogs;
                     toggle]).
Defined.

End LogPoll.

(* ===================================================================== *)
(** * Properties of the remote resource client                            *)
(* ===================================================================== *)

Section RemoteResourceClient.
Import JS Host RailwayAPI.

#[local] Arguments opt_path : simpl never.


Lemma outcome_try_catch {A} (body : M A) (handler : Error → M A) :
  outcome (try_catch body handler)
  = match outcome body with
    | Normal a => Normal a
    | Throw e => outcome (handler e)
    end.
Proof.
  destruct body as [t [a|e]]; simpl; [done|]. by destruct (handler e).
Qed.

Lemma outcome_bind {A B} (m : M A) (f : A → M B) :
  outcome (bind m f)
  = match outcome m with
    | Normal a => outcome (f a)
    | Throw e => Throw e
    end.
Proof.
  destruct m as [t [a|e]]; simpl; [|done]. by destruct (f a).
Qed.

Lemma get_opt_get v p x : get v p = Normal x → opt_get v p = x.
Proof. destruct v; simpl; intros; by simplify_eq. Qed.




Lemma trace_try_catch {A} (body : M A) (handler : Error → M A) :
  trace (try_catch body handler)
  = trace body ++ match outcome body with
                  | Normal _ => []
                  | Throw e => trace (handler e)
                  end.
Proof.
  destruct body as [t [a|e]]; simpl; [by rewrite app_nil_r|].
  by destruct (handler e).
Qed.

Lemma trace_bind {A B} (m : M A) (f : A → M B) :
  trace (bind m f)
  = trace m ++ match outcome m with
               | Normal a => trace (f a)
               | Throw _ => []
               end.
Proof.
  destruct m as [t [a|e]]; simpl; [|by rewrite app_nil_r]. by destruct (f a).
Qed.

Lemma trace_post remote r : trace (post remote r) = [Post r].
Proof. done. Qed.

Lemma outcome_post remote r : outcome (post remote r) = remote r.
Proof. done. Qed.

Lemma outcome_lift {A} (c : Completion A) : outcome (lift c) = c.
Proof. done. Qed.

Lemma outcome_ret {A} (a : A) : outcome (ret a) = Normal a.
Proof. done. Qed.








Lemma getDeploymentLogs_attempt_failed remote deploymentId limit q :
  logs_failed q (remote (logs_request q deploymentId limit)) = true →
  outcome (getDeploymentLogs_attempt remote deploymentId limit q) = Normal None.
Proof.
  intros H. unfold getDeploymentLogs_attempt.
  rewrite outcome_try_catch, outcome_bind, outcome_post.
  fold (logs_request q deploymentId limit).
  destruct (remote (logs_request _ _ _)) as [d|e]; [|reflexivity].
  rewrite outcome_bind, outcome_lift. simpl in H.
  destruct (get d "errors") as [errors|e] eqn:Ee; [|reflexivity].
  destruct (truthy errors); [reflexivity|]. simpl in H. cbv beta iota. simpl negb. cbv iota.
  rewrite outcome_bind, outcome_lift.
  destruct (get d "data") as [data|e] eqn:Ed; [|reflexivity].
  rewrite (get_opt_get _ _ _ Ed) in H.
  destruct (truthy data); [|reflexivity]. simpl in H.
  rewrite outcome_bind, outcome_lift.
  destruct (extractor q data) as [logs|e]; [|reflexivity].
  apply negb_true_iff in H. by rewrite H.
Qed.



(** The client at work on a remote that keeps to the schema: entities come
    back with the ids of their parents added, [getDeployments] falls back
    on its alternative query, [getDeploymentLogs] on its third. *)
Lemma fetch_returns_entities :
  getProjects Examples.remote_ok
  = ([Post universal_request],
     Normal [Obj [("id", Str "p1"); ("name", Str "demo")]])
  ∧ getProjectEnvironments Examples.remote_ok "p1"
    = ([Post (environments_request "p1")],
       Normal [Obj [("id", Str "env1"); ("name", Str "production");
                    ("projectId", Str "p1")]])
  ∧ getDeployments Examples.remote_ok "svc1" "env1"
    = ([Post (deployments_request "svc1" "env1");
        Post (alternative_request "svc1" "env1")],
       Normal [Obj [("id", Str "d1"); ("status", Str "SUCCESS");
                    ("serviceId", Str "svc1"); ("environmentId", Str "env1")]])
  ∧ getDeploymentLogs Examples.remote_ok "d1" 500
    = ([Post (logs_request deploymentLogsQuery "d1" 500);
        Post (logs_request deploymentObjectLogsQuery "d1" 500);
        Post (logs_request buildLogsQuery "d1" 500)],
       Normal (Arr [Obj [("message", Str "build started");
                         ("timestamp", Str "2025-01-01T00:00:00Z");
                         ("severity", Str "info")]])).
Proof. repeat split. Qed.

(** What the client does not tell from a good reply: edges that are an
    array of anything but [null]. Each becomes an entity, here one with
    the project id alone. *)
Lemma getProjectEnvironments_maps_any_edges :
  failed [["data"; "project"; "environments"; "edges"]]
         (Examples.remote_junk (environments_request "p1")) = false
  ∧ outcome (getProjectEnvironments Examples.remote_junk "p1")
    = Normal [Obj [("projectId", Str "p1")]].
Proof. split; reflexivity. Qed.




Lemma getProjects_catch_unauthorized e :
  rejects_credentials e = true →
  getProjects_catch e = ([authentication_failed], Normal []).
Proof.
  unfold rejects_credentials, getProjects_catch. destruct (response e) as [r|]; [|done].
  intros ->. reflexivity.
Qed.

Lemma getProjects_rejected remote e :
  remote universal_request = Throw e → rejects_credentials e = true →
  getProjects remote = ([Post universal_request; authentication_failed], Normal []).
Proof.
  intros Hu He. unfold getProjects, post. fold universal_request. rewrite Hu.
  cbn [bind try_catch]. by rewrite getProjects_catch_unauthorized.
Qed.

Lemma getProjects_personal_rejected remote e :
  errors_present (remote universal_request) = true →
  remote personal_request = Throw e → rejects_credentials e = true →
  getProjects remote
  = ([Post universal_request; Post personal_request; authentication_failed], Normal []).
Proof.
  intros Hu Hp He. unfold getProjects, post.
  fold universal_request personal_request. unfold errors_present in Hu.
  destruct (remote universal_request) as [d|]; [|done].
  destruct (get d "errors") as [errors|] eqn:E; [|done].
  rewrite Hp. cbn [bind lift]. rewrite E. cbn [bind lift]. rewrite Hu.
  cbn [bind try_catch app]. by rewrite getProjects_catch_unauthorized.
Qed.

Lemma getProjects_not_authorized remote :
  errors_present (remote universal_request) = true →
  not_authorized (remote personal_request) = true →
  getProjects remote = ([Post universal_request; Post personal_request], Normal []).
Proof.
  intros Hu Hp. unfold getProjects, post.
  fold universal_request personal_request. unfold errors_present in Hu.
  unfold not_authorized in Hp.
  destruct (remote universal_request) as [d|]; [|done].
  destruct (get d "errors") as [errors|] eqn:E; [|done].
  destruct (remote personal_request) as [d2|]; [|done].
  destruct (get d2 "errors") as [errors2|] eqn:E2; [|done].
  apply andb_true_iff in Hp as [Ht Hp].
  cbn [bind lift]. rewrite E. cbn [bind lift]. rewrite Hu.
  cbn [bind lift]. rewrite E2. cbn [bind lift]. rewrite Ht.
  destruct (or_else _ _) as [| | | |s| |]; try done.
  unfold toLowerCase. cbn [bind lift]. rewrite Hp. reflexivity.
Qed.


(** C4, as the code has it. When a request of [getProjects] is rejected
    with HTTP status 401 or 403, [getProjects] returns the empty sequence
    and shows the authentication error once, in that call. When both
    queries are answered with GraphQL errors and the first error of the
    second says "not authorized", it returns the empty sequence and shows
    nothing. No call is held back afterwards: [getChildren] at the root
    calls [getProjects] whatever the provider holds, and [getProjects]
    posts the universal query whatever the remote answered before. *)
Theorem getProjects_unauthorized remote :
  (∀ e,
     remote universal_request = Throw e → rejects_credentials e = true →
     getProjects remote
     = ([Post universal_request; authentication_failed], Normal []))
  ∧ (∀ e,
       errors_present (remote universal_request) = true →
       remote personal_request = Throw e → rejects_credentials e = true →
       getProjects remote
       = ([Post universal_request; Post personal_request; authentication_failed],
          Normal []))
  ∧ (errors_present (remote universal_request) = true →
     not_authorized (remote personal_request) = true →
     getProjects remote
     = ([Post universal_request; Post personal_request], Normal []))
  ∧ (∃ t, trace (getProjects remote) = Post universal_request :: t)
  ∧ (∀ clock api p,
       (TreeProvider.getChildren clock api p None).2 = [Call callGetProjects]).
Proof.
  split; [|split; [|split; [|split]]].
  - apply getProjects_rejected.
  - apply getProjects_personal_rejected.
  - apply getProjects_not_authorized.
  - unfold getProjects. fold universal_request.
    rewrite trace_try_catch, trace_bind, trace_post.
    eexists. reflexivity.
  - intros clock api p. unfold TreeProvider.getChildren.
    by destruct (_ =? _).
Qed.

Lemma getProjects_unauthorized_witness :
  getProjects Examples.remote_401
  = ([Post universal_request; authentication_failed], Normal [])
  ∧ getProjects Examples.remote_403_personal
    = ([Post universal_request; Post personal_request; authentication_failed],
       Normal [])
  ∧ getProjects Examples.remote_not_authorized
    = ([Post universal_request; Post personal_request], Normal []).
Proof.
  split; [|split].
  - destruct (getProjects_unauthorized Examples.remote_401) as (H & _).
    eapply H; reflexivity.
  - destruct (getProjects_unauthorized Examples.remote_403_personal) as (_ & H & _).
    eapply H; reflexivity.
  - destruct (getProjects_unauthorized Examples.remote_not_authorized)
      as (_ & _ & H & _).
    apply H; reflexivity.
Defined.

(** C4, as stated, fails. With both queries answered "Not Authorized",
    [getProjects] returns the empty sequence and shows no error at all, not
    one. With every request rejected with status 401 and the credential
    unchanged, a second call posts the query again and shows the error
    again. *)
Lemma getProjects_unauthorized_not_once :
  not_authorized (Examples.remote_not_authorized personal_request) = true
  ∧ outcome (getProjects Examples.remote_not_authorized) = Normal []
  ∧ length (filter is_error_message
              (trace (getProjects Examples.remote_not_authorized))) ≠ 1
  ∧ trace (bind (getProjects Examples.remote_401)
                (λ _, getProjects Examples.remote_401))
    = [Post universal_request; authentication_failed;
       Post universal_request; authentication_failed].
Proof. vm_compute. repeat split; discriminate. Qed.

End RemoteResourceClient.

(* ===================================================================== *)
(** * Replies of the remote, request by request                         *)
(* ===================================================================== *)

Section RemoteResourceReplies.
Import JS Host RailwayAPI ApiFacts.
#[local] Set Warnings "-clear-no-such-hyp".

Lemma lift_eq {A} (c : Completion A) : lift c = ([], c).
Proof. done. Qed.

Lemma getProjects_catch_one e :
  ∃ msg, getProjects_catch e = ([ShowErrorMessage msg []], Normal []).
Proof.
  unfold getProjects_catch.
  destruct (response e) as [r|]; [|eauto].
  destruct (_ || _); [eauto|].
  destruct (data r); eauto. destruct (_ && _); eauto.
Qed.

Lemma getProjects_universal_cases d :
  (∃ v, getProjects_universal d = ([], Normal v))
  ∨ (∃ e, getProjects_universal d = ([], Throw e))
  ∨ (∃ msg, getProjects_universal d = ([ShowErrorMessage msg []], Normal [])).
Proof.
  unfold getProjects_universal.
  destruct (truthy _).
  - unfold nodes, lift. destruct (array_map _ _ _); eauto.
  - right. right. eauto.
Qed.

(** X1. [getProjects] never throws and shows at most one message; when it
    returns a project it shows none. It sends the universal query, and the
    personal query after it exactly when the first reply carries GraphQL
    errors; it sends nothing else. *)
Theorem getProjects_summary remote :
  ∃ v, outcome (getProjects remote) = Normal v
       ∧ length (shown (trace (getProjects remote))) ≤ 1
       ∧ (v ≠ [] → shown (trace (getProjects remote)) = [])
       ∧ posts (trace (getProjects remote))
         = universal_request ::
           (if errors_present (remote universal_request) then [personal_request] else []).
Proof.
  unfold getProjects, post. fold universal_request personal_request.
  unfold errors_present.
  destruct (remote universal_request) as [d|e]; cbn [bind try_catch].
  2:{ destruct (getProjects_catch_one e) as [msg ->]. exists []. simpl. repeat split; done || lia. }
  rewrite lift_eq. destruct (get d "errors") as [errors|e]; cbn [bind try_catch app].
  2:{ destruct (getProjects_catch_one e) as [msg ->]. exists []. simpl. repeat split; done || lia. }
  destruct (truthy errors).
  - destruct (remote personal_request) as [d2|e]; cbn [bind try_catch app].
    2:{ destruct (getProjects_catch_one e) as [msg ->]. exists []. simpl. repeat split; done || lia. }
    rewrite lift_eq. destruct (get d2 "errors") as [errors2|e]; cbn [bind try_catch app].
    2:{ destruct (getProjects_catch_one e) as [msg ->]. exists []. simpl. repeat split; done || lia. }
    destruct (truthy errors2).
    + destruct (or_else _ _) as [| | | |s| |]; cbn [toLowerCase lift bind try_catch app];
        try (match goal with |- context [getProjects_catch ?e] =>
               destruct (getProjects_catch_one e) as [msg ->] end;
             exists []; simpl; repeat split; done || lia).
      destruct (includes (lower s) "not authorized"); exists []; simpl; repeat split; done || lia.
    + destruct (truthy (opt_path d2 ["data"; "me"; "projects"; "edges"])).
      * unfold nodes. rewrite lift_eq. destruct (array_map _ _ _) as [v|e]; cbn [try_catch app].
        -- exists v. simpl. repeat split; done || lia.
        -- destruct (getProjects_catch_one e) as [msg ->]. exists []. simpl. repeat split; done || lia.
      * destruct (getProjects_universal_cases d2) as [[v ->]|[[e ->]|[msg ->]]]; cbn [try_catch app].
        -- exists v. simpl. repeat split; done || lia.
        -- destruct (getProjects_catch_one e) as [msg ->]. exists []. simpl. repeat split; done || lia.
        -- exists []. simpl. repeat split; done || lia.
  - destruct (getProjects_universal_cases d) as [[v ->]|[[e ->]|[msg ->]]]; cbn [try_catch app].
    + exists v. simpl. repeat split; done || lia.
    + destruct (getProjects_catch_one e) as [msg ->]. exists []. simpl. repeat split; done || lia.
    + exists []. simpl. repeat split; done || lia.
Qed.

Lemma field_set_field k v fs : field k (set_field k v fs) = v.
Proof.
  induction fs as [|[k' v'] fs IH]; simpl.
  - by rewrite String.eqb_refl.
  - destruct (String.eqb k k') eqn:E; simpl; [by rewrite String.eqb_refl | by rewrite E].
Qed.

Lemma field_set_field_ne k k' v fs :
  k ≠ k' → field k' (set_field k v fs) = field k' fs.
Proof.
  intros Hne. induction fs as [|[k0 v0] fs IH]; simpl.
  - destruct (String.eqb_spec k' k); [congruence|done].
  - destruct (String.eqb_spec k k0) as [->|]; simpl.
    + destruct (String.eqb_spec k' k0); [congruence|done].
    + by rewrite IH.
Qed.

Lemma object_with_fields node extra : object_with node extra = Obj (object_fields node extra).
Proof. done. Qed.

Lemma fold_set_field_other k extra : ∀ fs,
  k ∉ extra.*1 →
  field k (fold_left (λ fs kv, set_field kv.1 kv.2 fs) extra fs) = field k fs.
Proof.
  induction extra as [|[k0 v0] extra IH]; intros fs Hk; simpl; [done|].
  rewrite IH by set_solver. apply field_set_field_ne. set_solver.
Qed.

Lemma fold_set_field_in k v extra : ∀ fs,
  NoDup extra.*1 → (k, v) ∈ extra →
  field k (fold_left (λ fs kv, set_field kv.1 kv.2 fs) extra fs) = v.
Proof.
  induction extra as [|[k0 v0] extra IH]; intros fs Hnd Hin; simpl.
  - by apply elem_of_nil in Hin.
  - apply NoDup_cons in Hnd as [Hk0 Hnd]. apply elem_of_cons in Hin as [Heq|Hin].
    + simplify_eq. rewrite fold_set_field_other by done. apply field_set_field.
    + by apply IH.
Qed.

(** [{ ...node, extra }] holds each added field, and the fields of the
    node under every other name. *)
Lemma object_fields_spec node extra :
  NoDup extra.*1 →
  (∀ k v, (k, v) ∈ extra → field k (object_fields node extra) = v)
  ∧ (∀ k, k ∉ extra.*1 → field k (object_fields node extra) = field k (spread node)).
Proof.
  intros Hnd. split.
  - intros k v Hin. by apply fold_set_field_in.
  - intros k Hk. by apply fold_set_field_other.
Qed.

Lemma map_completion_mappable extra xs :
  forallb (λ edge, match edge with Undefined | Null => false | _ => true end) xs = true →
  map_completion
    (λ edge, match get edge "node" with
             | Throw e => Throw e
             | Normal node => Normal (object_with node extra)
             end) xs
  = Normal (map (λ edge, object_with (opt_get edge "node") extra) xs).
Proof.
  induction xs as [|x xs IH]; simpl; [done|].
  intros H. apply andb_true_iff in H as [Hx H]. rewrite (IH H).
  by destruct x.
Qed.

Lemma nodes_with_mappable what extra xs :
  mappable (Arr xs) = true →
  nodes_with what extra (Arr xs)
  = ([], Normal (map (λ edge, object_with (opt_get edge "node") extra) xs)).
Proof.
  intros H. unfold nodes_with, lift. simpl. by rewrite map_completion_mappable.
Qed.

Lemma mappable_Arr edges : mappable edges = true → ∃ xs, edges = Arr xs.
Proof. destruct edges; try done. eauto. Qed.

Lemma truthy_Arr xs : truthy (Arr xs) = true.
Proof. done. Qed.

#[local] Arguments opt_path : simpl never.

Lemma getProjectChildren_thrown q field_name what remote projectId e :
  remote (children_request q projectId) = Throw e →
  getProjectChildren q field_name what remote projectId
  = ([Post (children_request q projectId);
      ShowErrorMessage ("Failed to fetch " +:+ what +:+ ": " +:+ message_or_error e) []],
     Normal []).
Proof.
  intros H. unfold getProjectChildren, post. fold (children_request q projectId).
  by rewrite H.
Qed.

Lemma getProjectChildren_errors q field_name what remote projectId :
  errors_present (remote (children_request q projectId)) = true →
  getProjectChildren q field_name what remote projectId
  = ([Post (children_request q projectId)], Normal []).
Proof.
  unfold errors_present, getProjectChildren, post. fold (children_request q projectId).
  destruct (remote _) as [d|e]; [|done].
  destruct (get d "errors") as [errors|e] eqn:Eg; [|done].
  intros H. cbn [bind try_catch lift app]. by rewrite Eg, H.
Qed.

Lemma getProjectChildren_ok q field_name what remote projectId :
  failed [["data"; "project"; field_name; "edges"]]
         (remote (children_request q projectId)) = false →
  ∃ d xs,
    remote (children_request q projectId) = Normal d
    ∧ opt_path d ["data"; "project"; field_name; "edges"] = Arr xs
    ∧ getProjectChildren q field_name what remote projectId
      = ([Post (children_request q projectId)],
         Normal (map (λ edge, object_with (opt_get edge "node")
                                [("projectId", Str projectId)]) xs)).
Proof.
  unfold failed, getProjectChildren, post. fold (children_request q projectId).
  destruct (remote _) as [d|e]; [|done].
  destruct (get d "errors") as [errors|e] eqn:Eg; [|done].
  destruct (truthy errors) eqn:Ee; [done|]. cbn [orb probe].
  set (edges := opt_path d ["data"; "project"; field_name; "edges"]).
  destruct (truthy edges) eqn:Et; [|done].
  intros Hm. apply negb_false_iff in Hm.
  destruct (mappable_Arr _ Hm) as [xs Hxs]. exists d, xs.
  split; [done|]. split; [done|].
  cbn [bind try_catch lift app]. rewrite Eg, Ee. fold edges. rewrite Et. cbn [negb].
  rewrite Hxs in *. rewrite nodes_with_mappable by done. done.
Qed.

Lemma getProjectChildren_trace q field_name what remote projectId :
  trace (getProjectChildren q field_name what remote projectId)
  = [Post (children_request q projectId)]
  ∨ ∃ msg, trace (getProjectChildren q field_name what remote projectId)
           = [Post (children_request q projectId); ShowErrorMessage msg []].
Proof.
  unfold getProjectChildren. fold (children_request q projectId).
  rewrite trace_try_catch, trace_bind, trace_post, outcome_bind, outcome_post.
  destruct (remote _) as [d|e]; [|right; simpl; eauto].
  rewrite trace_bind, outcome_bind, outcome_lift. unfold lift at 1. cbn [trace fst app].
  destruct (get d "errors") as [errors|e]; [|right; simpl; eauto].
  destruct (truthy errors); [by left|].
  destruct (negb _); [by left|].
  unfold nodes_with, lift. cbn [trace outcome fst snd app].
  destruct (array_map _ _ _); [by left | right; simpl; eauto].
Qed.

(** What holds of the entities mapped from [xs] with [extra] added. *)
Lemma mapped_entities extra xs :
  NoDup extra.*1 →
  let v := map (λ edge, object_with (opt_get edge "node") extra) xs in
  length v = length xs
  ∧ ∀ i edge, xs !! i = Some edge →
      ∃ fs, v !! i = Some (Obj fs)
            ∧ (∀ k x, (k, x) ∈ extra → field k fs = x)
            ∧ (∀ k, k ∉ extra.*1 → field k fs = field k (spread (opt_get edge "node"))).
Proof.
  intros Hnd v. subst v. split; [by rewrite length_map|].
  intros i edge Hi. exists (object_fields (opt_get edge "node") extra).
  rewrite list_lookup_fmap, Hi. split; [done|].
  by apply object_fields_spec.
Qed.

(** X2. When the reply to [getProjectEnvironments] (or [getServices]) does
    not fail, the method sends its one request, shows nothing and returns
    one entity for each edge of the reply, in the order of the edges: the
    fields of the edge's node, with [projectId] set to the project asked
    for, whatever the node said. *)
Theorem getProjectChildren_entities q field_name what remote projectId :
  failed [["data"; "project"; field_name; "edges"]]
         (remote (children_request q projectId)) = false →
  ∃ d xs v,
    remote (children_request q projectId) = Normal d
    ∧ opt_path d ["data"; "project"; field_name; "edges"] = Arr xs
    ∧ getProjectChildren q field_name what remote projectId
      = ([Post (children_request q projectId)], Normal v)
    ∧ length v = length xs
    ∧ ∀ i edge, xs !! i = Some edge →
        ∃ fs, v !! i = Some (Obj fs)
              ∧ field "projectId" fs = Str projectId
              ∧ ∀ k, k ≠ "projectId" → field k fs = field k (spread (opt_get edge "node")).
Proof.
  intros H. destruct (getProjectChildren_ok q field_name what remote projectId H)
    as (d & xs & Hd & Hxs & Heq).
  exists d, xs. eexists. split; [done|]. split; [done|]. split; [exact Heq|].
  destruct (mapped_entities [("projectId", Str projectId)] xs) as [Hlen Hall].
  { simpl. apply NoDup_singleton. }
  split; [exact Hlen|]. intros i edge Hi.
  destruct (Hall i edge Hi) as (fs & Hv & Hin & Hout). exists fs.
  split; [done|]. split.
  - apply Hin. set_solver.
  - intros k Hk. apply Hout. set_solver.
Qed.

Lemma getDeployments_first_trace serviceId environmentId d :
  trace (getDeployments_first serviceId environmentId d) = [].
Proof.
  unfold getDeployments_first. destruct (truthy _); [|done].
  unfold nodes_with, lift. done.
Qed.

(** X4. [getDeployments] never shows a message, whatever the remote does:
    its [catch] only logs. It sends the first query, and the alternative
    one after it exactly when the first reply carries GraphQL errors. *)
Theorem getDeployments_silent remote serviceId environmentId :
  shown (trace (getDeployments remote serviceId environmentId)) = []
  ∧ posts (trace (getDeployments remote serviceId environmentId))
    = deployments_request serviceId environmentId ::
      (if errors_present (remote (deployments_request serviceId environmentId))
       then [alternative_request serviceId environmentId] else []).
Proof.
  unfold getDeployments.
  fold (deployments_request serviceId environmentId).
  fold (alternative_request serviceId environmentId).
  rewrite trace_try_catch, trace_bind, trace_post, outcome_bind, outcome_post.
  unfold errors_present.
  destruct (remote (deployments_request _ _)) as [d|e]; [|done].
  rewrite trace_bind, outcome_bind, outcome_lift. unfold lift at 1. cbn [trace fst app].
  destruct (get d "errors") as [errors|e]; [|done].
  destruct (truthy errors).
  - rewrite trace_bind, trace_post, outcome_bind, outcome_post.
    destruct (remote (alternative_request _ _)) as [d2|e]; [|done].
    rewrite trace_bind, outcome_bind, outcome_lift. unfold lift at 1. cbn [trace fst app].
    destruct (get d2 "errors") as [errors2|e]; [|done].
    destruct (truthy errors2); [done|].
    destruct (truthy _).
    + unfold nodes_with, lift. cbn [trace outcome fst snd].
      by destruct (array_map _ _ _).
    + rewrite getDeployments_first_trace. by destruct (outcome _).
  - rewrite getDeployments_first_trace. by destruct (outcome _).
Qed.

Lemma getDeployments_first_ok remote serviceId environmentId :
  failed [["data"; "deployments"; "edges"]]
         (remote (deployments_request serviceId environmentId)) = false →
  ∃ d xs,
    remote (deployments_request serviceId environmentId) = Normal d
    ∧ opt_path d ["data"; "deployments"; "edges"] = Arr xs
    ∧ getDeployments remote serviceId environmentId
      = ([Post (deployments_request serviceId environmentId)],
         Normal (map (λ edge, object_with (opt_get edge "node")
                                (parent_ids serviceId environmentId)) xs)).
Proof.
  unfold failed, getDeployments, post.
  fold (deployments_request serviceId environmentId).
  destruct (remote _) as [d|e]; [|done].
  destruct (get d "errors") as [errors|e] eqn:Eg; [|done].
  destruct (truthy errors) eqn:Ee; [done|]. cbn [orb probe].
  set (edges := opt_path d ["data"; "deployments"; "edges"]).
  destruct (truthy edges) eqn:Et; [|done].
  intros Hm. apply negb_false_iff in Hm.
  destruct (mappable_Arr _ Hm) as [xs Hxs]. exists d, xs.
  split; [done|]. split; [done|].
  cbn [bind try_catch lift app]. rewrite Eg, Ee.
  unfold getDeployments_first. fold edges. rewrite Et.
  rewrite Hxs in *. rewrite nodes_with_mappable by done. done.
Qed.

Lemma getDeployments_fallback_ok remote serviceId environmentId :
  errors_present (remote (deployments_request serviceId environmentId)) = true →
  failed [["data"; "service"; "deployments"; "edges"]]
         (remote (alternative_request serviceId environmentId)) = false →
  ∃ d xs,
    remote (alternative_request serviceId environmentId) = Normal d
    ∧ opt_path d ["data"; "service"; "deployments"; "edges"] = Arr xs
    ∧ getDeployments remote serviceId environmentId
      = ([Post (deployments_request serviceId environmentId);
          Post (alternative_request serviceId environmentId)],
         Normal (map (λ edge, object_with (opt_get edge "node")
                                (parent_ids serviceId environmentId)) xs)).
Proof.
  unfold errors_present, failed, getDeployments, post.
  fold (deployments_request serviceId environmentId).
  fold (alternative_request serviceId environmentId).
  destruct (remote (deployments_request _ _)) as [d|e]; [|done].
  destruct (get d "errors") as [errors|e] eqn:Eg; [|done].
  intros Ee.
  destruct (remote (alternative_request _ _)) as [d2|e]; [|done].
  destruct (get d2 "errors") as [errors2|e] eqn:Eg2; [|done].
  destruct (truthy errors2) eqn:Ee2; [done|]. cbn [orb probe].
  set (edges := opt_path d2 ["data"; "service"; "deployments"; "edges"]).
  destruct (truthy edges) eqn:Et; [|done].
  intros Hm. apply negb_false_iff in Hm.
  destruct (mappable_Arr _ Hm) as [xs Hxs]. exists d2, xs.
  split; [done|]. split; [done|].
  cbn [bind try_catch lift app]. rewrite Eg, Ee. cbn [bind try_catch lift app].
  rewrite Eg2, Ee2. fold edges. rewrite Et.
  rewrite Hxs in *. rewrite nodes_with_mappable by done. done.
Qed.

(** X5. When the query that [getDeployments] ends on does not fail (the
    first one, or the alternative one after a first reply with errors), the
    method returns one entity for each edge under the path of that query,
    in order: the fields of the node, with [serviceId] and [environmentId]
    set to those asked for. *)
Theorem getDeployments_entities remote serviceId environmentId req path :
  (req, path) = (deployments_request serviceId environmentId,
                 ["data"; "deployments"; "edges"])
  ∨ ((req, path) = (alternative_request serviceId environmentId,
                    ["data"; "service"; "deployments"; "edges"])
     ∧ errors_present (remote (deployments_request serviceId environmentId)) = true) →
  failed [path] (remote req) = false →
  ∃ d xs v,
    remote req = Normal d
    ∧ opt_path d path = Arr xs
    ∧ outcome (getDeployments remote serviceId environmentId) = Normal v
    ∧ last (posts (trace (getDeployments remote serviceId environmentId))) = Some req
    ∧ length v = length xs
    ∧ ∀ i edge, xs !! i = Some edge →
        ∃ fs, v !! i = Some (Obj fs)
              ∧ field "serviceId" fs = Str serviceId
              ∧ field "environmentId" fs = Str environmentId
              ∧ ∀ k, k ≠ "serviceId" → k ≠ "environmentId" →
                     field k fs = field k (spread (opt_get edge "node")).
Proof.
  assert (Hnd : NoDup (parent_ids serviceId environmentId).*1).
  { simpl. apply NoDup_cons. split; [set_solver|]. apply NoDup_singleton. }
  assert (Hmapped : ∀ xs,
    let v := map (λ edge, object_with (opt_get edge "node")
                            (parent_ids serviceId environmentId)) xs in
    length v = length xs
    ∧ ∀ i edge, xs !! i = Some edge →
        ∃ fs, v !! i = Some (Obj fs)
              ∧ field "serviceId" fs = Str serviceId
              ∧ field "environmentId" fs = Str environmentId
              ∧ ∀ k, k ≠ "serviceId" → k ≠ "environmentId" →
                     field k fs = field k (spread (opt_get edge "node"))).
  { intros xs.
    destruct (mapped_entities (parent_ids serviceId environmentId) xs Hnd) as [Hlen Hall].
    split; [exact Hlen|]. intros i edge Hi.
    destruct (Hall i edge Hi) as (fs & Hv & Hin & Hout). exists fs.
    split; [done|]. split; [apply Hin; set_solver|]. split; [apply Hin; set_solver|].
    intros k Hk1 Hk2. apply Hout. set_solver. }
  intros [[= -> ->]|[[= -> ->] He]] Hok.
  - destruct (getDeployments_first_ok _ _ _ Hok) as (d & xs & Hd & Hxs & Heq).
    exists d, xs. eexists. rewrite Heq. split; [done|]. split; [done|].
    split; [reflexivity|]. split; [done|]. apply Hmapped.
  - destruct (getDeployments_fallback_ok _ _ _ He Hok) as (d & xs & Hd & Hxs & Heq).
    exists d, xs. eexists. rewrite Heq. split; [done|]. split; [done|].
    split; [reflexivity|]. split; [done|]. apply Hmapped.
Qed.

Lemma getDeploymentLogs_attempt_trace remote deploymentId limit q :
  trace (getDeploymentLogs_attempt remote deploymentId limit q)
  = [Post (logs_request q deploymentId limit)].
Proof.
  unfold getDeploymentLogs_attempt. fold (logs_request q deploymentId limit).
  rewrite trace_try_catch, trace_bind, trace_post, outcome_bind, outcome_post.
  destruct (remote _) as [d|e]; [|done].
  rewrite trace_bind, outcome_bind, outcome_lift. unfold lift at 1. cbn [trace fst app].
  destruct (get d "errors") as [errors|e]; [|done].
  destruct (negb (truthy errors)); [|done].
  rewrite trace_bind, outcome_bind, outcome_lift. unfold lift at 1. cbn [trace fst app].
  destruct (get d "data") as [data|e]; [|done].
  destruct (truthy data); [|done].
  rewrite trace_bind, outcome_bind, outcome_lift. unfold lift at 1. cbn [trace fst app].
  destruct (extractor q data) as [logs|e]; [|done].
  by destruct (truthy logs).
Qed.

Lemma getDeploymentLogs_attempt_ok remote deploymentId limit q :
  logs_failed q (remote (logs_request q deploymentId limit)) = false →
  ∃ d logs,
    remote (logs_request q deploymentId limit) = Normal d
    ∧ truthy (opt_get d "errors") = false
    ∧ extractor q (opt_get d "data") = Normal logs
    ∧ truthy logs = true
    ∧ outcome (getDeploymentLogs_attempt remote deploymentId limit q) = Normal (Some logs).
Proof.
  unfold logs_failed, getDeploymentLogs_attempt. fold (logs_request q deploymentId limit).
  rewrite outcome_try_catch, outcome_bind, outcome_post.
  destruct (remote _) as [d|e]; [|done].
  rewrite outcome_bind, outcome_lift.
  destruct (get d "errors") as [errors|e] eqn:Eg; [|done].
  destruct (truthy errors) eqn:Ee; [done|]. cbn [orb negb].
  rewrite outcome_bind, outcome_lift.
  assert (Hd : get d "data" = Normal (opt_get d "data")).
  { destruct d; try done. }
  rewrite Hd. destruct (truthy (opt_get d "data")) eqn:Et; [|done]. cbn [orb negb].
  rewrite outcome_bind, outcome_lift.
  destruct (extractor q (opt_get d "data")) as [logs|e] eqn:Ex; [|done].
  intros Hl. apply negb_false_iff in Hl. exists d, logs.
  rewrite (get_opt_get _ _ _ Eg), Ee, Hl. done.
Qed.

Lemma getDeploymentLogs_loop_spec remote deploymentId limit qs :
  trace (getDeploymentLogs_loop remote deploymentId limit qs)
  = map (λ q, Post (logs_request q deploymentId limit))
        (attempted remote deploymentId limit qs)
    ++ (if all_failed remote deploymentId limit qs then [deployment_logs_warning] else [])
  ∧ ∃ v, outcome (getDeploymentLogs_loop remote deploymentId limit qs) = Normal v
         ∧ truthy v = true
         ∧ (all_failed remote deploymentId limit qs = true → v = Arr [])
         ∧ (all_failed remote deploymentId limit qs = false →
            ∃ q d, last (attempted remote deploymentId limit qs) = Some q
                   ∧ remote (logs_request q deploymentId limit) = Normal d
                   ∧ extractor q (opt_get d "data") = Normal v).
Proof.
  induction qs as [|q qs [IHt (v & IHo & IHv & IHa & IHs)]].
  - split; [done|]. exists (Arr []). done.
  - cbn [getDeploymentLogs_loop attempted all_failed forallb].
    rewrite trace_bind, outcome_bind, getDeploymentLogs_attempt_trace.
    destruct (logs_failed q (remote (logs_request q deploymentId limit))) eqn:Ef.
    + rewrite (getDeploymentLogs_attempt_failed _ _ _ _ Ef). cbn [andb].
      split; [by rewrite IHt|]. exists v. split; [done|]. split; [done|].
      split; [done|]. intros Haf. destruct (IHs Haf) as (q' & d & Hl & Hd & He).
      exists q', d. split; [|done].
      destruct (attempted remote deploymentId limit qs) eqn:Ea; [done|].
      by rewrite last_cons_cons.
    + destruct (getDeploymentLogs_attempt_ok _ _ _ _ Ef) as (d & logs & Hd & _ & He & Ht & Ho).
      rewrite Ho. cbn [andb]. split; [done|]. exists logs.
      split; [done|]. split; [done|]. split; [done|]. intros _. exists q, d. done.
Qed.

(** X3. What [getProjectEnvironments] and [getServices] tell the user: a
    reply with GraphQL errors gives the empty list without a word; a
    rejected request gives it with the message "Failed to fetch ...: " and
    the message of the error. In every case the trace is the one request,
    followed by at most one error message, and then the result is empty. *)
Theorem getProjectChildren_reporting q field_name what remote projectId :
  (errors_present (remote (children_request q projectId)) = true →
   getProjectChildren q field_name what remote projectId
   = ([Post (children_request q projectId)], Normal []))
  ∧ (∀ e, remote (children_request q projectId) = Throw e →
          getProjectChildren q field_name what remote projectId
          = ([Post (children_request q projectId);
              ShowErrorMessage
                ("Failed to fetch " +:+ what +:+ ": " +:+ message_or_error e) []],
             Normal []))
  ∧ (trace (getProjectChildren q field_name what remote projectId)
     = [Post (children_request q projectId)]
     ∨ ∃ msg, trace (getProjectChildren q field_name what remote projectId)
              = [Post (children_request q projectId); ShowErrorMessage msg []]
              ∧ outcome (getProjectChildren q field_name what remote projectId) = Normal []).
Proof.
  split; [apply getProjectChildren_errors|]. split; [apply getProjectChildren_thrown|].
  unfold getProjectChildren. fold (children_request q projectId).
  rewrite trace_try_catch, trace_bind, trace_post, outcome_try_catch, !outcome_bind, outcome_post.
  destruct (remote _) as [d|e]; [|right; simpl; eauto].
  rewrite trace_bind, !outcome_bind, outcome_lift. unfold lift at 1. cbn [trace fst app].
  destruct (get d "errors") as [errors|e]; [|right; simpl; eauto].
  destruct (truthy errors); [by left|].
  destruct (negb _); [by left|].
  unfold nodes_with, lift. cbn [trace outcome fst snd app].
  destruct (array_map _ _ _); [by left | right; simpl; eauto].
Qed.

Lemma map_completion_total {A B} (f : A → B) xs :
  map_completion (λ x, Normal (f x)) xs = Normal (map f xs).
Proof. induction xs as [|x xs IH]; simpl; [done|]. by rewrite IH. Qed.

Lemma buildLogs_extracted data logs :
  extractor buildLogsQuery data = Normal logs → truthy logs = true →
  ∃ xs, opt_path data ["deployment"; "buildLogs"] = Arr xs
        ∧ logs = Arr (map (λ log, object_with log [("severity", Str "info")]) xs).
Proof.
  unfold extractor. set (raw := opt_path data ["deployment"; "buildLogs"]).
  destruct (truthy raw) eqn:Et; [|by intros [= <-]].
  destruct raw as [| | | | |xs|]; try done.
  cbn [array_map]. rewrite map_completion_total. intros [= <-] _. eauto.
Qed.

(** X7. When only the third query of [getDeploymentLogs] answers, the
    result has one entry for each build log, in order, with [severity] set
    to ['info'] and every other field as in the log; nothing is shown. *)
Theorem getDeploymentLogs_build_logs remote deploymentId limit :
  logs_failed deploymentLogsQuery
    (remote (logs_request deploymentLogsQuery deploymentId limit)) = true →
  logs_failed deploymentObjectLogsQuery
    (remote (logs_request deploymentObjectLogsQuery deploymentId limit)) = true →
  logs_failed buildLogsQuery
    (remote (logs_request buildLogsQuery deploymentId limit)) = false →
  ∃ d xs v,
    remote (logs_request buildLogsQuery deploymentId limit) = Normal d
    ∧ opt_path (opt_get d "data") ["deployment"; "buildLogs"] = Arr xs
    ∧ outcome (getDeploymentLogs remote deploymentId limit) = Normal (Arr v)
    ∧ shown (trace (getDeploymentLogs remote deploymentId limit)) = []
    ∧ length v = length xs
    ∧ ∀ i log, xs !! i = Some log →
        ∃ fs, v !! i = Some (Obj fs)
              ∧ field "severity" fs = Str "info"
              ∧ ∀ k, k ≠ "severity" → field k fs = field k (spread log).
Proof.
  intros H1 H2 H3.
  destruct (getDeploymentLogs_attempt_ok _ _ _ _ H3) as (d & logs & Hd & _ & He & Ht & Ho).
  destruct (buildLogs_extracted _ _ He Ht) as (xs & Hxs & ->).
  exists d, xs. eexists. split; [done|]. split; [done|].
  unfold getDeploymentLogs. cbn [getDeploymentLogs_loop].
  rewrite !trace_bind, !outcome_bind, !getDeploymentLogs_attempt_trace.
  rewrite (getDeploymentLogs_attempt_failed _ _ _ _ H1).
  rewrite !trace_bind, !outcome_bind, !getDeploymentLogs_attempt_trace.
  rewrite (getDeploymentLogs_attempt_failed _ _ _ _ H2).
  rewrite !trace_bind, !outcome_bind, !getDeploymentLogs_attempt_trace.
  rewrite Ho. split; [reflexivity|]. split; [done|].
  split; [by rewrite length_map|].
  intros i log Hi. exists (object_fields log [("severity", Str "info")]).
  rewrite list_lookup_fmap, Hi. split; [done|].
  destruct (object_fields_spec log [("severity", Str "info")]) as [Hin Hout].
  { simpl. apply NoDup_singleton. }
  split; [apply Hin; set_solver|]. intros k Hk. apply Hout. set_solver.
Qed.

(** X6. [getDeploymentLogs] tries its three queries in order and stops at
    the first that does not fail: the requests sent are exactly those
    queries, the warning is shown exactly when all three failed, and then
    the result is the empty array; otherwise the result is what the
    extractor of the last query tried makes of its reply, and is truthy. *)
Theorem getDeploymentLogs_search remote deploymentId limit :
  let queries := [deploymentLogsQuery; deploymentObjectLogsQuery; buildLogsQuery] in
  trace (getDeploymentLogs remote deploymentId limit)
  = map (λ q, Post (logs_request q deploymentId limit))
        (attempted remote deploymentId limit queries)
    ++ (if all_failed remote deploymentId limit queries
        then [deployment_logs_warning] else [])
  ∧ ∃ v, outcome (getDeploymentLogs remote deploymentId limit) = Normal v
         ∧ truthy v = true
         ∧ (all_failed remote deploymentId limit queries = true → v = Arr [])
         ∧ (all_failed remote deploymentId limit queries = false →
            ∃ q d, last (attempted remote deploymentId limit queries) = Some q
                   ∧ remote (logs_request q deploymentId limit) = Normal d
                   ∧ extractor q (opt_get d "data") = Normal v).
Proof. apply getDeploymentLogs_loop_spec. Qed.

Lemma getProjectChildren_entities_witness :
  failed [["data"; "project"; "environments"; "edges"]]
         (Examples.remote_ok (children_request environmentsQuery "p1")) = false
  ∧ ∃ d xs v,
      Examples.remote_ok (children_request environmentsQuery "p1") = Normal d
      ∧ opt_path d ["data"; "project"; "environments"; "edges"] = Arr xs
      ∧ getProjectChildren environmentsQuery "environments" "environments"
          Examples.remote_ok "p1"
        = ([Post (children_request environmentsQuery "p1")], Normal v)
      ∧ length v = length xs
      ∧ ∀ i edge, xs !! i = Some edge →
          ∃ fs, v !! i = Some (Obj fs)
                ∧ field "projectId" fs = Str "p1"
                ∧ ∀ k, k ≠ "projectId" → field k fs = field k (spread (opt_get edge "node")).
Proof.
  split; [reflexivity|].
  apply (getProjectChildren_entities environmentsQuery "environments" "environments"
           Examples.remote_ok "p1").
  reflexivity.
Defined.

Lemma getDeployments_entities_witness :
  errors_present (Examples.remote_ok (deployments_request "svc1" "env1")) = true
  ∧ failed [["data"; "service"; "deployments"; "edges"]]
           (Examples.remote_ok (alternative_request "svc1" "env1")) = false
  ∧ ∃ d xs v,
      Examples.remote_ok (alternative_request "svc1" "env1") = Normal d
      ∧ opt_path d ["data"; "service"; "deployments"; "edges"] = Arr xs
      ∧ outcome (getDeployments Examples.remote_ok "svc1" "env1") = Normal v
      ∧ last (posts (trace (getDeployments Examples.remote_ok "svc1" "env1")))
        = Some (alternative_request "svc1" "env1")
      ∧ length v = length xs
      ∧ ∀ i edge, xs !! i = Some edge →
          ∃ fs, v !! i = Some (Obj fs)
                ∧ field "serviceId" fs = Str "svc1"
                ∧ field "environmentId" fs = Str "env1"
                ∧ ∀ k, k ≠ "serviceId" → k ≠ "environmentId" →
                       field k fs = field k (spread (opt_get edge "node")).
Proof.
  split; [reflexivity|]. split; [reflexivity|].
  apply (getDeployments_entities Examples.remote_ok "svc1" "env1"
           (alternative_request "svc1" "env1")
           ["data"; "service"; "deployments"; "edges"]).
  - right. split; reflexivity.
  - reflexivity.
Defined.

Lemma getDeploymentLogs_build_logs_witness :
  logs_failed deploymentLogsQuery
    (Examples.remote_ok (logs_request deploymentLogsQuery "d1" 500)) = true
  ∧ logs_failed deploymentObjectLogsQuery
      (Examples.remote_ok (logs_request deploymentObjectLogsQuery "d1" 500)) = true
  ∧ logs_failed buildLogsQuery
      (Examples.remote_ok (logs_request buildLogsQuery "d1" 500)) = false
  ∧ ∃ d xs v,
      Examples.remote_ok (logs_request buildLogsQuery "d1" 500) = Normal d
      ∧ opt_path (opt_get d "data") ["deployment"; "buildLogs"] = Arr xs
      ∧ outcome (getDeploymentLogs Examples.remote_ok "d1" 500) = Normal (Arr v)
      ∧ shown (trace (getDeploymentLogs Examples.remote_ok "d1" 500)) = []
      ∧ length v = length xs
      ∧ ∀ i log, xs !! i = Some log →
          ∃ fs, v !! i = Some (Obj fs)
                ∧ field "severity" fs = Str "info"
                ∧ ∀ k, k ≠ "severity" → field k fs = field k (spread log).
Proof.
  split; [reflexivity|]. split; [reflexivity|]. split; [reflexivity|].
  apply (getDeploymentLogs_build_logs Examples.remote_ok "d1" 500); reflexivity.
Defined.

End RemoteResourceReplies.

(* ===================================================================== *)
(** * Deployment status and application logs                            *)
(* ===================================================================== *)

Section StatusAndLogs.
Import JS RailwayClient ClientFacts ClientQueries.
#[local] Arguments opt_path : simpl never.

Lemma client_outcome_try_catch {A} (body : M A) (handler : Error → M A) :
  outcome (try_catch body handler)
  = match outcome body with
    | Normal a => Normal a
    | Throw e => outcome (handler e)
    end.
Proof. destruct body as [t [a|e]]; simpl; [done|]. by destruct (handler e). Qed.

Lemma client_outcome_bind {A B} (m : M A) (f : A → M B) :
  outcome (bind m f)
  = match outcome m with
    | Normal a => outcome (f a)
    | Throw e => Throw e
    end.
Proof. destruct m as [t [a|e]]; simpl; [|done]. by destruct (f a). Qed.

Lemma client_trace_try_catch {A} (body : M A) (handler : Error → M A) :
  trace (try_catch body handler)
  = trace body ++ match outcome body with
                  | Normal _ => []
                  | Throw e => trace (handler e)
                  end.
Proof.
  destruct body as [t [a|e]]; simpl; [by rewrite app_nil_r|]. by destruct (handler e).
Qed.

Lemma client_trace_bind {A B} (m : M A) (f : A → M B) :
  trace (bind m f)
  = trace m ++ match outcome m with
               | Normal a => trace (f a)
               | Throw _ => []
               end.
Proof.
  destruct m as [t [a|e]]; simpl; [|by rewrite app_nil_r]. by destruct (f a).
Qed.

Lemma or_else_null v : or_else v Null = Null ∨ truthy (or_else v Null) = true.
Proof. unfold or_else. destruct (truthy v) eqn:E; [by right | by left]. Qed.

(** X8. [getDeploymentStatus] sends one request, shows nothing and never
    throws. Its result is [null] or truthy: the status of the reply when the
    reply has no errors (and [null] when that status is missing or falsy),
    and [null] whenever the request is rejected or the reply has errors. *)
Theorem getDeploymentStatus_null_or_status remote deploymentId :
  trace (getDeploymentStatus remote deploymentId) = [Post (status_request deploymentId)]
  ∧ ∃ v, outcome (getDeploymentStatus remote deploymentId) = Normal v
         ∧ (v = Null ∨ truthy v = true)
         ∧ (∀ d, remote (status_request deploymentId) = Normal d →
                 truthy (opt_get d "errors") = false →
                 v = or_else (opt_path d ["data"; "deployment"; "status"]) Null)
         ∧ ((∀ d, remote (status_request deploymentId) = Normal d →
                  truthy (opt_get d "errors") = true) → v = Null).
Proof.
  unfold getDeploymentStatus. fold (status_request deploymentId).
  rewrite client_trace_try_catch, client_trace_bind, client_outcome_try_catch,
    !client_outcome_bind.
  unfold post at 1 2 3 4. cbn [trace outcome fst snd].
  destruct (remote (status_request deploymentId)) as [d|e].
  - rewrite client_trace_bind, !client_outcome_bind. unfold lift. cbn [trace outcome fst snd].
    destruct (get d "errors") as [errors|e] eqn:Eg.
    + destruct (truthy errors) eqn:Et.
      * split; [done|]. exists Null. split; [done|]. split; [by left|]. split.
        -- intros d' [= <-]. rewrite (get_opt_get _ _ _ Eg), Et. done.
        -- done.
      * split; [done|]. eexists. split; [reflexivity|]. split; [apply or_else_null|]. split.
        -- intros d' [= <-] _. done.
        -- intros H. specialize (H d eq_refl). rewrite (get_opt_get _ _ _ Eg), Et in H. done.
    + split; [done|]. exists Null. split; [done|]. split; [by left|]. split; [|done].
      intros d' [= <-]. destruct d; done.
  - split; [done|]. exists Null. split; [done|]. split; [by left|]. done.
Qed.

Lemma getApplicationLogs_attempt_cases positive remote serviceId environmentId limit q :
  ∃ found,
    getApplicationLogs_attempt positive remote serviceId environmentId limit q
    = ([Post (application_logs_request q serviceId environmentId limit)], Normal found)
    ∧ ∀ logs, found = Some logs →
        truthy logs = true ∧ length_positive positive logs = true.
Proof.
  unfold getApplicationLogs_attempt, post.
  destruct (remote _) as [d|e]; cbn [bind try_catch lift app];
    [|exists None; split; [done|]; intros ? [=]].
  destruct (stringify_substring d) as [[]|e]; cbn [bind try_catch lift app];
    [|exists None; split; [done|]; intros ? [=]].
  destruct (get d "errors") as [errors|e]; cbn [bind try_catch lift app];
    [|exists None; split; [done|]; intros ? [=]].
  destruct (negb (truthy errors)); [|exists None; split; [done|]; intros ? [=]].
  cbn [bind try_catch lift app].
  destruct (get d "data") as [data|e]; cbn [bind try_catch lift app];
    [|exists None; split; [done|]; intros ? [=]].
  destruct (truthy data); [|exists None; split; [done|]; intros ? [=]].
  destruct (truthy (extractor q data) && length_positive positive (extractor q data)) eqn:E.
  - exists (Some (extractor q data)). split; [done|]. intros logs [= <-].
    by apply andb_true_iff in E.
  - exists None. split; [done|]. intros ? [=].
Qed.

Lemma getApplicationLogs_loop_cases positive remote serviceId environmentId limit qs :
  ∃ tried v,
    tried `prefix_of` qs
    ∧ ((v = Arr [] ∧ tried = qs
        ∧ getApplicationLogs_loop positive remote serviceId environmentId limit qs
          = (map (λ q, Post (application_logs_request q serviceId environmentId limit)) qs
               ++ [application_logs_warning], Normal v))
       ∨ (truthy v = true ∧ length_positive positive v = true
          ∧ getApplicationLogs_loop positive remote serviceId environmentId limit qs
            = (map (λ q, Post (application_logs_request q serviceId environmentId limit)) tried,
               Normal v))).
Proof.
  induction qs as [|q qs (tried & v & Hp & IH)].
  - exists [], (Arr []). split; [done|]. left. done.
  - cbn [getApplicationLogs_loop].
    destruct (getApplicationLogs_attempt_cases positive remote serviceId environmentId limit q)
      as (found & -> & Hf).
    destruct found as [logs|]; cbn [bind app].
    + exists [q], logs. split; [by apply prefix_cons, prefix_nil|]. right.
      destruct (Hf logs eq_refl) as [Ht Hl]. done.
    + exists (q :: tried), v. split; [by apply prefix_cons|].
      destruct IH as [(-> & -> & ->)|(Ht & Hl & ->)]; [left|right]; done.
Qed.

Lemma posts_requests {A} (f : A → Request) (xs : list A) (t : list Effect) :
  posts (map (λ x, Post (f x)) xs ++ t) = map f xs ++ posts t.
Proof. induction xs as [|x xs IH]; [done|]. cbn. by rewrite <- IH. Qed.

Lemma errors_shown_requests {A} (f : A → Request) (xs : list A) (t : list Effect) :
  errors_shown (map (λ x, Post (f x)) xs ++ t) = errors_shown t.
Proof. induction xs as [|x xs IH]; [done|]. cbn. by rewrite <- IH. Qed.

Lemma warnings_shown_requests {A} (f : A → Request) (xs : list A) (t : list Effect) :
  warnings_shown (map (λ x, Post (f x)) xs ++ t) = warnings_shown t.
Proof. induction xs as [|x xs IH]; [done|]. cbn. by rewrite <- IH. Qed.

Lemma getApplicationLogs_eq positive remote serviceId environmentId limit :
  getApplicationLogs positive remote serviceId environmentId limit
  = (Post {| query := serviceTypeQuery; variables := [] |}
       :: trace (getApplicationLogs_loop positive remote serviceId environmentId limit
                   application_logs_queries),
     outcome (getApplicationLogs_loop positive remote serviceId environmentId limit
                application_logs_queries)).
Proof.
  unfold getApplicationLogs, introspect, post. fold application_logs_queries.
  destruct (remote _); cbn [bind try_catch ret app];
    by destruct (getApplicationLogs_loop _ _ _ _ _ _).
Qed.

(** X9. [getApplicationLogs] first asks for the fields of the type
    [Service], then tries a prefix of its four queries, in order. It never
    throws and never shows an error. Either all four queries were tried, the
    result is the empty array and the warning is shown; or the result is
    truthy, of positive length, and nothing is shown: an empty result never
    goes without the warning. *)
Theorem getApplicationLogs_never_empty_silently positive remote serviceId environmentId limit :
  ∃ tried v,
    tried `prefix_of` application_logs_queries
    ∧ outcome (getApplicationLogs positive remote serviceId environmentId limit) = Normal v
    ∧ posts (trace (getApplicationLogs positive remote serviceId environmentId limit))
      = {| query := serviceTypeQuery; variables := [] |}
        :: map (λ q, application_logs_request q serviceId environmentId limit) tried
    ∧ errors_shown (trace (getApplicationLogs positive remote serviceId environmentId limit)) = []
    ∧ ((v = Arr [] ∧ tried = application_logs_queries
        ∧ warnings_shown
            (trace (getApplicationLogs positive remote serviceId environmentId limit))
          = ["Unable to fetch application logs. Logs may not be available for this service."])
       ∨ (truthy v = true ∧ length_positive positive v = true
          ∧ warnings_shown
              (trace (getApplicationLogs positive remote serviceId environmentId limit))
            = [])).
Proof.
  rewrite getApplicationLogs_eq.
  destruct (getApplicationLogs_loop_cases positive remote serviceId environmentId limit
              application_logs_queries) as (tried & v & Hp & H).
  exists tried, v. split; [done|]. cbn [trace outcome fst snd].
  destruct H as [(-> & -> & ->)|(Ht & Hl & ->)]; cbn [trace outcome fst snd].
  - cbn. split; [done|]. split; [done|]. split; [done|]. left. done.
  - change (Post ?r :: ?t) with (map (λ x : Request, Post (id x)) [r] ++ t).
    rewrite posts_requests, errors_shown_requests, warnings_shown_requests.
    rewrite <- (app_nil_r (map _ tried)).
    rewrite posts_requests, errors_shown_requests, warnings_shown_requests.
    split; [done|]. split; [by rewrite app_nil_r|]. split; [done|]. by right.
Qed.

End StatusAndLogs.

(* ===================================================================== *)
(** * The API token                                                     *)
(* ===================================================================== *)

Section ApiToken.
Import JS RailwayClient ClientFacts Credentials.
Variable trim : string → string.

Lemma initialize_catch_one e :
  ∃ msg, initialize_catch e = ([ShowErrorMessage msg], Normal false).
Proof.
  unfold initialize_catch. destruct (response e) as [r|]; [|eauto].
  destruct (_ || _); eauto.
Qed.

Lemma initialize_errors_cases errors :
  initialize_errors errors = ([], Normal true)
  ∨ (∃ msg, initialize_errors errors = ([ShowErrorMessage msg], Normal false))
  ∨ (∃ e, initialize_errors errors = ([], Throw e)).
Proof.
  unfold initialize_errors. destruct (truthy errors); [|by left].
  cbv zeta. destruct (or_else _ _) as [| | | |s| |];
    cbn [toLowerCase bind lift app]; eauto.
  destruct (includes (lower s) "not authorized"); eauto.
Qed.

Lemma initialize_check_cases d :
  initialize_check d = ([], Normal true)
  ∨ (∃ msg, initialize_check d = ([ShowErrorMessage msg], Normal false))
  ∨ (∃ e, initialize_check d = ([], Throw e)).
Proof.
  destruct d as [| | | |s|xs|fs]; cbn [initialize_check get bind lift app]; eauto;
    try apply (initialize_errors_cases Undefined).
  - destruct (includes s "<html"); eauto.
  - destruct (initialize_errors_cases (field "errors" fs)) as [->|[[msg ->]|[e ->]]]; eauto.
Qed.

Lemma initialize_test_cases remote :
  initialize_test remote = ([Post introspection_request; Post test_request], Normal true)
  ∨ ∃ msg,
      initialize_test remote = ([Post introspection_request; ShowErrorMessage msg], Normal false)
      ∨ initialize_test remote
        = ([Post introspection_request; Post test_request; ShowErrorMessage msg], Normal false).
Proof.
  unfold initialize_test, post. fold introspection_request test_request.
  destruct (remote introspection_request) as [d0|e]; cbn [bind try_catch app].
  2:{ destruct (initialize_catch_one e) as [msg ->]. right. exists msg. by left. }
  destruct (remote test_request) as [d|e]; cbn [bind try_catch app].
  2:{ destruct (initialize_catch_one e) as [msg ->]. right. exists msg. by right. }
  destruct (initialize_check_cases d) as [->|[[msg ->]|[e ->]]]; cbn [try_catch app].
  - by left.
  - right. exists msg. by right.
  - destruct (initialize_catch_one e) as [msg ->]. right. exists msg. by right.
Qed.

Lemma getApiToken_quiet setting answer :
  posts (getApiToken trim setting answer).2 = []
  ∧ errors_shown (getApiToken trim setting answer).2 = [].
Proof.
  unfold getApiToken. destruct (absent setting); [|done]. by destruct (absent answer).
Qed.

(** X10. What [initialize] does and tells. Without a token (none stored and
    none given, or an empty one) it returns [false], sends nothing, shows
    nothing and leaves the [Authorization] header as it was. With a token it
    stores the trimmed token and sets the header to ["Bearer "] and the
    token; if it then returns [true] both test requests were sent and
    nothing was shown; if it returns [false] exactly one error message was
    shown, after one or two requests. *)
Theorem initialize_reports setting answer remote c :
  let r := initialize trim setting answer remote c in
  let b := r.1.1.1 in
  let c' := r.1.1.2 in
  let t := r.2 in
  (absent (token_found trim setting answer) = true →
   b = false ∧ posts t = [] ∧ errors_shown t = []
   ∧ apiToken c' = token_found trim setting answer
   ∧ authorization c' = authorization c)
  ∧ (absent (token_found trim setting answer) = false →
     (∃ s, token_found trim setting answer = Some s
           ∧ apiToken c' = Some (trim s)
           ∧ authorization c' = Some ("Bearer " +:+ trim s))
     ∧ (b = true →
        posts t = [introspection_request; test_request] ∧ errors_shown t = [])
     ∧ (b = false →
        length (errors_shown t) = 1
        ∧ (posts t = [introspection_request]
           ∨ posts t = [introspection_request; test_request]))).
Proof.
  unfold token_found, initialize.
  destruct (getApiToken trim setting answer) as [[token setting'] t0] eqn:Eg.
  destruct (getApiToken_quiet setting answer) as [Hp0 He0]. rewrite Eg in Hp0, He0.
  cbn [fst snd] in *.
  destruct token as [s|]; cbn [absent].
  - destruct (String.eqb s "") eqn:Es; cbn [fst snd].
    + split; [done|]. done.
    + split; [done|]. intros _.
      destruct (initialize_test_cases remote) as [->|[msg [->| ->]]]; cbn [fst snd];
        unfold posts, errors_shown in *; rewrite !omap_app, ?Hp0, ?He0; cbn;
        (split; [eauto|]); split; try done; intros _; split; eauto.
  - cbn [fst snd]. split; [done|]. done.
Qed.

(** X11. With a token, a reachable endpoint and a test query refused with
    a GraphQL error whose first message contains "not authorized" (in any
    case of letters), [initialize] returns [true] and shows no error. *)
Theorem initialize_accepts_not_authorized setting answer remote c d0 :
  absent (token_found trim setting answer) = false →
  remote introspection_request = Normal d0 →
  RailwayAPI.not_authorized (remote test_request) = true →
  (initialize trim setting answer remote c).1.1.1 = true
  ∧ errors_shown (initialize trim setting answer remote c).2 = [].
Proof.
  intros Ha H0 Hna.
  assert (Ht : initialize_test remote
               = ([Post introspection_request; Post test_request], Normal true)).
  { unfold initialize_test, post. fold introspection_request test_request.
    rewrite H0. unfold RailwayAPI.not_authorized in Hna.
    destruct (remote test_request) as [d|]; [|done]. cbn [bind try_catch app].
    destruct (get d "errors") as [errors|] eqn:Ee; [|done].
    apply andb_true_iff in Hna as [Hte Hm].
    assert (Hc : initialize_check d = ([], Normal true)).
    { assert (He : initialize_errors errors = ([], Normal true)).
      { unfold initialize_errors. rewrite Hte. cbv zeta.
        destruct (or_else _ _) as [| | | |s| |]; try done.
        cbn [toLowerCase bind lift app]. by rewrite Hm. }
      destruct d; simpl in Ee; simplify_eq; simpl in Hte; try discriminate.
      cbn [initialize_check get bind lift app]. by rewrite He. }
    by rewrite Hc. }
  destruct (getApiToken_quiet setting answer) as [_ He0].
  unfold token_found in *. unfold initialize.
  destruct (getApiToken trim setting answer) as [[token setting'] t0] eqn:Eg.
  cbn [fst snd] in *. destruct token as [s|]; [|done].
  cbn [absent] in Ha. rewrite Ha, Ht. cbn [fst snd].
  split; [done|]. unfold errors_shown in *. by rewrite omap_app, He0.
Qed.

Lemma initialize_test_quiet remote :
  filter asks_or_stores (trace (initialize_test remote)) = [].
Proof.
  destruct (initialize_test_cases remote) as [->|[msg [->| ->]]]; done.
Qed.

(** X12. A token given to the input box is stored trimmed, with one
    prompt and one write of the setting; every later [initialize], whatever
    the user and the remote do, neither asks nor writes, finds the same
    setting and sets the header from it. *)
Theorem token_asked_once setting a remote c :
  absent setting = true → absent (Some a) = false → trim a ≠ "" →
  let r := initialize trim setting (Some a) remote c in
  r.1.2 = Some (trim a)
  ∧ filter asks_or_stores r.2 = [ShowInputBox; ConfigUpdate (Some (trim a))]
  ∧ ∀ answer' remote' c',
      let r' := initialize trim r.1.2 answer' remote' c' in
      filter asks_or_stores r'.2 = []
      ∧ r'.1.2 = Some (trim a)
      ∧ authorization r'.1.1.2 = Some ("Bearer " +:+ trim (trim a)).
Proof.
  intros Hs Ha Ht. cbv zeta.
  assert (Hne : String.eqb (trim a) "" = false).
  { by apply String.eqb_neq. }
  assert (H1 : (initialize trim setting (Some a) remote c).1.2 = Some (trim a)
               ∧ filter asks_or_stores (initialize trim setting (Some a) remote c).2
                 = [ShowInputBox; ConfigUpdate (Some (trim a))]).
  { unfold initialize, getApiToken. rewrite Hs, Ha. cbn [option_map]. rewrite Hne.
    pose proof (initialize_test_quiet remote) as Hq.
    destruct (initialize_test remote) as [t' [b|e]]; cbn [fst snd trace] in *;
      rewrite filter_app, Hq; done. }
  destruct H1 as [-> ->]. split; [done|]. split; [done|].
  intros answer' remote' c'.
  unfold initialize, getApiToken. cbn [absent]. rewrite Hne.
  pose proof (initialize_test_quiet remote') as Hq.
  destruct (initialize_test remote') as [t' [b|e]]; cbn [fst snd trace app authorization] in *.
  all: rewrite ?Hne; cbn [fst snd]; rewrite Hq; done.
Qed.

(** X13. [clearApiToken] leaves the client as [new RailwayAPI()] and the
    setting undefined, so the next [initialize] asks for the token, and
    returns [false] with no header when none is given. [initialize] itself
    never removes the header: one that is set stays set, also when
    [initialize] returns [false]. *)
Theorem clearApiToken_forgets c :
  let r := clearApiToken c in
  r.1.1 = new_RailwayAPI
  ∧ r.1.2 = None
  ∧ (∀ answer remote,
       absent answer = true →
       initialize trim r.1.2 answer remote r.1.1
       = (false, {| apiToken := answer; authorization := None |}, None, [ShowInputBox]))
  ∧ (∀ setting answer remote c0,
       is_Some (authorization c0) →
       is_Some (authorization (initialize trim setting answer remote c0).1.1.2)).
Proof.
  cbv zeta. split; [done|]. split; [done|]. split.
  - intros answer remote Ha. unfold initialize, getApiToken, clearApiToken.
    cbn [fst snd absent]. rewrite Ha. destruct answer as [s|]; [|done].
    cbn [absent] in Ha. by rewrite Ha.
  - intros setting answer remote c0 Hsome. unfold initialize.
    destruct (getApiToken trim setting answer) as [[token setting'] t0].
    destruct token as [s|]; [|done].
    destruct (String.eqb s ""); [done|].
    by destruct (initialize_test remote) as [t' [b|e]].
Qed.

End ApiToken.

Section ApiTokenExamples.
Import JS RailwayClient ClientFacts Credentials.

Lemma initialize_accepts_not_authorized_witness :
  absent (token_found ClientExamples.trim (Some " 0f1e2d3c ") None) = false
  ∧ RailwayAPI.not_authorized (ClientExamples.remote_test_refused test_request) = true
  ∧ (initialize ClientExamples.trim (Some " 0f1e2d3c ") None
       ClientExamples.remote_test_refused new_RailwayAPI).1.1.1 = true
  ∧ errors_shown (initialize ClientExamples.trim (Some " 0f1e2d3c ") None
                    ClientExamples.remote_test_refused new_RailwayAPI).2 = [].
Proof.
  split; [reflexivity|]. split; [reflexivity|].
  apply (initialize_accepts_not_authorized ClientExamples.trim (Some " 0f1e2d3c ") None
           ClientExamples.remote_test_refused new_RailwayAPI
           (Obj [("data", Obj [("__schema",
              Obj [("queryType", Obj [("name", Str "Query")])])])]));
    reflexivity.
Defined.

Lemma token_asked_once_witness :
  absent None = true
  ∧ absent (Some " 0f1e2d3c ") = false
  ∧ ClientExamples.trim " 0f1e2d3c " = "0f1e2d3c"
  ∧ (initialize ClientExamples.trim None (Some " 0f1e2d3c ")
       ClientExamples.remote_test_refused new_RailwayAPI).1.2 = Some "0f1e2d3c"
  ∧ filter asks_or_stores
      (initialize ClientExamples.trim None (Some " 0f1e2d3c ")
         ClientExamples.remote_test_refused new_RailwayAPI).2
    = [ShowInputBox; ConfigUpdate (Some "0f1e2d3c")].
Proof.
  split; [reflexivity|]. split; [reflexivity|]. split; [reflexivity|].
  destruct (token_asked_once ClientExamples.trim None " 0f1e2d3c "
              ClientExamples.remote_test_refused new_RailwayAPI)
    as (H1 & H2 & _); [reflexivity | reflexivity | discriminate |].
  split; [exact H1 | exact H2].
Defined.

End ApiTokenExamples.

(* ===================================================================== *)
(** * Sessions of the tree provider                                     *)
(* ===================================================================== *)

Section ProviderSessions.
Import Host TreeProvider ProviderFacts.
#[local] Set Warnings "-clear-no-such-hyp".

Lemma append_inj_length (s1 s2 t1 t2 : string) :
  String.length s1 = String.length s2 → s1 +:+ t1 = s2 +:+ t2 → s1 = s2 ∧ t1 = t2.
Proof.
  revert s2. induction s1 as [|c s1 IH]; intros [|c2 s2] Hl H; simpl in *; try done.
  injection H as -> H. destruct (IH s2 ltac:(lia) H) as [-> ->]. done.
Qed.

Lemma append_assoc (a b c : string) : (a +:+ b) +:+ c = a +:+ (b +:+ c).
Proof.
  induction a as [|x a IH]; [done|].
  change (String x ((a +:+ b) +:+ c) = String x (a +:+ (b +:+ c))). by rewrite IH.
Qed.

(** X14. The key of the deployments cache determines the service and the
    environment when the service ids have the same length (as UUIDs do). It
    does not in general: [s-x] in [e] and [s] in [x-e] have the same key,
    and then the deployments cached for the first service are rendered for
    the second, without a call. *)
Theorem deployments_key_injective :
  (∀ s1 e1 s2 e2,
     String.length s1 = String.length s2 →
     deployments_key s1 e1 = deployments_key s2 e2 → s1 = s2 ∧ e1 = e2)
  ∧ (∀ s x e, deployments_key (s +:+ "-" +:+ x) e = deployments_key s (x +:+ "-" +:+ e))
  ∧ (∀ clock api p s x e v svc svc',
       service_id svc = s +:+ "-" +:+ x → service_id svc' = s →
       map_get (deployments_key (service_id svc) e) (deployments p) = Some v →
       getChildren clock api p (Some (service_item clock (x +:+ "-" +:+ e) svc'))
       = (map (deployment_item clock) v, p, [])).
Proof.
  split; [|split].
  - intros s1 e1 s2 e2 Hl H. unfold deployments_key in H.
    destruct (append_inj_length _ _ _ _ Hl H) as [-> H'].
    by destruct (append_inj_length "-" "-" e1 e2 eq_refl H') as [_ ->].
  - intros s x e. unfold deployments_key. by rewrite !append_assoc.
  - intros clock api p s x e v svc svc' Hs Hs' Hget.
    assert (Hk : deployments_key (service_id svc') (x +:+ "-" +:+ e)
                 = deployments_key (service_id svc) e).
    { rewrite Hs, Hs'. unfold deployments_key. by rewrite !append_assoc. }
    rewrite getChildren_service, Hk, Hget. done.
Qed.

(** X17. After any session of a new provider, the status stored for a
    deployment id is the last one a tick saw for that id (none if no tick
    saw it). Once an id has a status stored it has one for ever: no
    operation removes an entry of [deploymentStatuses]. *)
Theorem deploymentStatuses_last_seen clock ops :
  (∀ dep,
     deploymentStatuses (final (run clock initial ops)) !! dep
     = last (statuses_of dep (observed (run clock initial ops))))
  ∧ (∀ p dep s,
       deploymentStatuses p !! dep = Some s →
       is_Some (deploymentStatuses (final (run clock p ops)) !! dep)).
Proof.
  split.
  - intros dep. destruct (run_count clock dep ops initial) as [_ H].
    rewrite H. cbn. by rewrite lookup_empty.
  - intros p dep s Hs. destruct (run_count clock dep ops p) as [_ H].
    rewrite H, Hs, last_app. destruct (last (statuses_of _ _)); cbn; eauto.
Qed.

Lemma checkDeployment_fold_same ds : ∀ m calls,
  (∀ d, d ∈ ds → m !! deployment_id d = Some (deployment_status d)) →
  fold_left checkDeployment ds (m, calls) = (m, calls).
Proof.
  induction ds as [|d ds IH]; intros m calls H; [done|].
  cbn [fold_left]. rewrite checkDeployment_eq.
  rewrite (H d) by set_solver. rewrite decide_True by done.
  rewrite app_nil_r, insert_id by (apply H; set_solver).
  apply IH. intros d' Hd'. apply H. set_solver.
Qed.

Lemma consistent_last d ds :
  consistent ds → d ∈ ds →
  last (statuses_of (deployment_id d) ds) = Some (deployment_status d).
Proof.
  intros Hc Hd. pose proof (statuses_of_elem d ds Hd) as Hne.
  destruct (last (statuses_of (deployment_id d) ds)) as [s|] eqn:El.
  - f_equal. apply last_Some_elem_of in El. unfold statuses_of in El.
    apply list_elem_of_fmap in El as (d' & -> & Hd').
    apply list_elem_of_filter in Hd' as [Hid Hd']. symmetry. by apply Hc.
  - by apply last_None in El.
Qed.

(** X18. When the deployments of the cache agree on the status of each id,
    one tick stores the status of every cached deployment, and a second tick
    right after it changes nothing and emits only the tree-changed signal:
    it notifies nobody. *)
Theorem autoRefresh_tick_idempotent clock p :
  consistent (cached_deployments p) →
  let r := autoRefresh_tick clock p in
  autoRefresh_tick clock r.1 = (r.1, [FireTreeDataChanged])
  ∧ ∀ d, d ∈ cached_deployments p →
         deploymentStatuses r.1 !! deployment_id d = Some (deployment_status d).
Proof.
  intros Hc. cbv zeta.
  destruct (autoRefresh_tick_checks_cache clock p) as (_ & Hsame & _ & Hlast & _).
  cbv zeta in Hsame, Hlast.
  set (p1 := (autoRefresh_tick clock p).1) in *.
  assert (Hall : ∀ d, d ∈ cached_deployments p →
                      deploymentStatuses p1 !! deployment_id d = Some (deployment_status d)).
  { intros d Hd. rewrite (Hlast d Hd). by apply consistent_last. }
  split; [|done].
  assert (Hcd : cached_deployments p1 = cached_deployments p).
  { unfold cached_deployments. by injection Hsame as _ _ _ ->. }
  unfold autoRefresh_tick. rewrite checkDeploymentStatuses_eq, Hcd.
  rewrite checkDeployment_fold_same by done. cbn [fst snd flat_map app refresh].
  by destruct p1.
Qed.
Lemma autoRefresh_tick_idempotent_witness :
  consistent (cached_deployments ProviderExamples.cached_building)
  ∧ autoRefresh_tick Examples.clock0
      (autoRefresh_tick Examples.clock0 ProviderExamples.cached_building).1
    = ((autoRefresh_tick Examples.clock0 ProviderExamples.cached_building).1,
       [FireTreeDataChanged]).
Proof.
  assert (Hc : consistent (cached_deployments ProviderExamples.cached_building)).
  { intros d d' Hd Hd' _. cbn in Hd, Hd'.
    apply list_elem_of_singleton in Hd, Hd'. by subst. }
  split; [exact Hc|].
  apply (autoRefresh_tick_idempotent Examples.clock0 ProviderExamples.cached_building Hc).
Defined.

End ProviderSessions.

(* ===================================================================== *)
(** * The interval of the tree provider                                 *)
(* ===================================================================== *)

Section ProviderTimer.
Import Host TreeProvider ProviderFacts.
#[local] Set Warnings "-clear-no-such-hyp".

Lemma held_set h p : held (set_refreshInterval h p) = match h with Some x => {[ x ]} | None => ∅ end.
Proof. done. Qed.

Lemma startAutoRefresh_invariant tm0 s :
  Timers.wf tm0 → timer_invariant tm0 s →
  timer_invariant tm0 (startAutoRefresh s.1 s.2).1
  ∧ ∃ h, refreshInterval (startAutoRefresh s.1 s.2).1.1 = Some h.
Proof.
  intros Hwf (Hn & Hh & Ha). destruct s as [p tm]. cbn [fst snd] in *.
  unfold startAutoRefresh, timer_invariant, held in *.
  destruct (refreshInterval p) as [h|]; cbn in *.
  - split; [|eauto]. split; [lia|]. split.
    + intros h'. rewrite elem_of_singleton. intros ->. lia.
    + rewrite Ha. specialize (Hh h ltac:(set_solver)).
      apply set_eq. intros x. rewrite !elem_of_union, elem_of_difference,
        !elem_of_union, !elem_of_singleton.
      split; [intros [->|[[H|H] H']]; auto; done|].
      intros [H| ->]; [|auto]. right. split; [auto|].
      intros ->. apply Hwf in H. lia.
  - split; [|eauto]. split; [lia|]. split.
    + intros h'. rewrite elem_of_singleton. intros ->. lia.
    + rewrite Ha. set_solver.
Qed.

Lemma stopAutoRefresh_invariant tm0 s :
  Timers.wf tm0 → timer_invariant tm0 s →
  timer_invariant tm0 (stopAutoRefresh s.1 s.2).1
  ∧ refreshInterval (stopAutoRefresh s.1 s.2).1.1 = None.
Proof.
  intros Hwf (Hn & Hh & Ha). destruct s as [p tm]. cbn [fst snd] in *.
  unfold stopAutoRefresh, timer_invariant, held in *.
  destruct (refreshInterval p) as [h|] eqn:E; cbn; rewrite ?E.
  - split; [|done]. split; [done|]. split; [set_solver|].
    rewrite Ha. specialize (Hh h ltac:(set_solver)).
    apply set_eq. intros x. rewrite elem_of_difference, !elem_of_union, elem_of_singleton.
    split; [intros [[H|H] H']; [auto|set_solver]|].
    intros [H|H]; [|set_solver]. split; [auto|]. intros ->. apply Hwf in H. lia.
  - done.
Qed.

Lemma timer_run_snoc tm0 ops op :
  timer_run tm0 (ops ++ [op]) = timer_step (timer_run tm0 ops) op.
Proof. unfold timer_run. by rewrite fold_left_app. Qed.

Lemma timer_run_invariant tm0 ops :
  Timers.wf tm0 → timer_invariant tm0 (timer_run tm0 ops).
Proof.
  intros Hwf. induction ops as [|op ops IH] using rev_ind.
  - unfold timer_run, new_DeploymentTreeDataProvider. cbn [fold_left].
    apply (startAutoRefresh_invariant tm0 (initial, tm0) Hwf).
    split; [done|]. split; [set_solver|]. cbn. set_solver.
  - rewrite timer_run_snoc. destruct op; cbn [timer_step].
    + by apply startAutoRefresh_invariant.
    + by apply stopAutoRefresh_invariant.
Qed.

(** X19. From its construction on, through any sequence of
    [startAutoRefresh] and [stopAutoRefresh], the provider has at most one
    interval running, the one [refreshInterval] holds; it stops no interval
    of anybody else. After [stopAutoRefresh] it has none, otherwise exactly
    one. *)
Theorem provider_one_interval tm0 ops :
  Timers.wf tm0 →
  let s := timer_run tm0 ops in
  provider_timers tm0 s = held s.1
  ∧ size (provider_timers tm0 s) ≤ 1
  ∧ Timers.active tm0 ⊆ Timers.active s.2
  ∧ (last ops = Some stop_refresh → provider_timers tm0 s = ∅)
  ∧ (last ops ≠ Some stop_refresh → size (provider_timers tm0 s) = 1).
Proof.
  intros Hwf. cbv zeta.
  pose proof (timer_run_invariant tm0 ops Hwf) as Hinv.
  assert (Heq : ∀ s, timer_invariant tm0 s → provider_timers tm0 s = held s.1).
  { intros s (Hn & Hh & Ha). unfold provider_timers. rewrite Ha.
    apply set_eq. intros x. rewrite elem_of_difference, elem_of_union.
    split; [intros [[H|H] H']; done|].
    intros H. split; [auto|]. intros H'. apply Hwf in H'. apply Hh in H. lia. }
  rewrite (Heq _ Hinv).
  split; [done|]. split; [|split; [|split]].
  - unfold held. destruct (refreshInterval _); [rewrite size_singleton|rewrite size_empty]; lia.
  - destruct Hinv as (_ & _ & ->). set_solver.
  - destruct ops as [|op ops _] using rev_ind; [done|].
    rewrite last_snoc. intros [= ->]. rewrite timer_run_snoc. cbn [timer_step].
    destruct (stopAutoRefresh_invariant tm0 (timer_run tm0 ops) Hwf
                (timer_run_invariant tm0 ops Hwf)) as [_ H].
    unfold held. by rewrite H.
  - destruct ops as [|op ops _] using rev_ind.
    + intros _. unfold timer_run, new_DeploymentTreeDataProvider. cbn [fold_left].
      destruct (startAutoRefresh_invariant tm0 (initial, tm0) Hwf) as [_ [h H]].
      { split; [done|]. split; [set_solver|]. cbn. set_solver. }
      cbn [fst snd] in H. unfold held. rewrite H. by rewrite size_singleton.
    + rewrite last_snoc. intros Hne. destruct op; [|done].
      rewrite timer_run_snoc. cbn [timer_step].
      destruct (startAutoRefresh_invariant tm0 (timer_run tm0 ops) Hwf
                  (timer_run_invariant tm0 ops Hwf)) as [_ [h H]].
      unfold held. rewrite H. by rewrite size_singleton.
Qed.
Lemma provider_one_interval_witness :
  Timers.wf Timers.empty
  ∧ size (provider_timers Timers.empty
            (timer_run Timers.empty [start_refresh; stop_refresh; start_refresh])) = 1
  ∧ provider_timers Timers.empty
      (timer_run Timers.empty [start_refresh; stop_refresh]) = ∅.
Proof.
  assert (Hwf : Timers.wf Timers.empty).
  { intros h Hin. simpl in Hin. by apply not_elem_of_empty in Hin. }
  split; [exact Hwf|]. split.
  - destruct (provider_one_interval Timers.empty
                [start_refresh; stop_refresh; start_refresh] Hwf) as (_ & _ & _ & _ & H).
    apply H. discriminate.
  - destruct (provider_one_interval Timers.empty [start_refresh; stop_refresh] Hwf)
      as (_ & _ & _ & H & _).
    apply H. reflexivity.
Defined.

End ProviderTimer.

(* ===================================================================== *)
(** * The levels of the tree                                            *)
(* ===================================================================== *)

Section TreeLevels.
Import Host TreeProvider ProviderFacts.

Lemma new_item_fields clock l c t d cmd :
  let i := new_DeploymentTreeItem clock l c t d cmd in
  itemType i = t ∧ data i = d ∧ collapsibleState i = c
  ∧ contextValue i = itemType_string t ∧ label i = l ∧ item_command i = cmd.
Proof.
  unfold new_DeploymentTreeItem. destruct t; try done.
  destruct d as [[]|]; done.
Qed.

Lemma project_item_fields clock prj :
  let i := project_item clock prj in
  itemType i = project ∧ data i = Some (ProjectData prj)
  ∧ collapsibleState i = Collapsed ∧ contextValue i = "project".
Proof. done. Qed.

Lemma environment_item_fields clock pid env :
  let i := environment_item clock pid env in
  itemType i = environment ∧ data i = Some (EnvironmentData env pid)
  ∧ collapsibleState i = Collapsed ∧ contextValue i = "environment".
Proof. done. Qed.

Lemma service_item_fields clock eid svc :
  let i := service_item clock eid svc in
  itemType i = service ∧ data i = Some (ServiceData svc eid)
  ∧ collapsibleState i = Collapsed ∧ contextValue i = "service".
Proof. done. Qed.

Lemma deployment_item_fields clock d :
  let i := deployment_item clock d in
  itemType i = deployment ∧ data i = Some (DeploymentData d)
  ∧ collapsibleState i = NoChildren ∧ contextValue i = "deployment".
Proof. done. Qed.

Lemma getChildren_leaf clock api p i :
  itemType i = deployment ∨ data i = None →
  getChildren clock api p (Some i) = ([], p, []).
Proof.
  intros [H|H]; unfold getChildren; rewrite H; [done|]. by destruct (itemType i).
Qed.

(** The items [getChildren] returns for an element are built from the
    list its cache holds for that element when it returns. *)
Lemma getChildren_from_cache clock api p el :
  let r := getChildren clock api p (Some el) in
  match itemType el, data el with
  | project, Some (ProjectData prj) =>
      ∃ envs, environments r.1.2 !! project_id prj = Some envs
              ∧ r.1.1 = map (environment_item clock (project_id prj)) envs
  | environment, Some (EnvironmentData env projectId) =>
      ∃ svcs, services r.1.2 !! projectId = Some svcs
              ∧ r.1.1 = map (service_item clock (environment_id env)) svcs
  | service, Some (ServiceData svc environmentId) =>
      ∃ ds, map_get (deployments_key (service_id svc) environmentId) (deployments r.1.2)
            = Some ds
            ∧ r.1.1 = map (deployment_item clock) ds
  | _, _ => r.1.1 = []
  end.
Proof.
  unfold getChildren.
  destruct (itemType el); destruct (data el) as [[prj|env pid|svc eid|d]|]; try done.
  - destruct (environments p !! project_id prj) as [envs|] eqn:E; cbn [fst snd]; [eauto|].
    eexists. split; [|done]. cbn. apply lookup_insert_eq.
  - destruct (services p !! pid) as [svcs|] eqn:E; cbn [fst snd]; [eauto|].
    eexists. split; [|done]. cbn. apply lookup_insert_eq.
  - destruct (map_get _ (deployments p)) as [ds|] eqn:E; cbn [fst snd]; [eauto|].
    eexists. split; [|done]. cbn. apply map_get_set.
Qed.

Lemma getChildren_root_provider clock api p :
  (getChildren clock api p None).1.2 = set_projects (getProjects api) p.
Proof. unfold getChildren. cbv zeta. by destruct (_ =? _). Qed.

(** X20. Every item [getChildren] returns is of the type one level below
    the element asked about (projects at the root, then environments,
    services, deployments), its [contextValue] is the name of its type, and
    it is built from an entry of the list the cache holds for the element
    when the call returns. An environment item carries the id of its
    project and a service item the id of its environment; a deployment item
    carries a deployment of the list stored under the key of the service,
    whatever service that deployment names. An item cannot be expanded
    exactly when it is a deployment or the placeholder "No projects found",
    and asking for the children of such an item gives nothing, calls nothing
    and changes nothing: the tree has four levels. *)
Theorem getChildren_levels clock api p element i :
  i ∈ (getChildren clock api p element).1.1 →
  let p' := (getChildren clock api p element).1.2 in
  itemType i = level_below (itemType <$> element)
  ∧ contextValue i = itemType_string (itemType i)
  ∧ (∀ el, element = Some el →
       match data el with
       | Some (ProjectData prj) =>
           ∃ env envs, data i = Some (EnvironmentData env (project_id prj))
                       ∧ environments p' !! project_id prj = Some envs ∧ env ∈ envs
       | Some (EnvironmentData env projectId) =>
           ∃ svc svcs, data i = Some (ServiceData svc (environment_id env))
                       ∧ services p' !! projectId = Some svcs ∧ svc ∈ svcs
       | Some (ServiceData svc environmentId) =>
           ∃ d ds, data i = Some (DeploymentData d)
                   ∧ map_get (deployments_key (service_id svc) environmentId)
                             (deployments p') = Some ds
                   ∧ d ∈ ds
       | Some (DeploymentData _) | None => False
       end)
  ∧ (element = None →
       match data i with
       | Some (ProjectData prj) => prj ∈ projects p'
       | None => projects p' = []
       | _ => False
       end)
  ∧ (collapsibleState i = NoChildren ↔ itemType i = deployment ∨ data i = None)
  ∧ (collapsibleState i = NoChildren →
     ∀ api' p0, getChildren clock api' p0 (Some i) = ([], p0, [])).
Proof.
  intros Hi. cbv zeta.
  destruct element as [el|]; cbn [fmap option_fmap option_map level_below].
  - pose proof (getChildren_from_cache clock api p el) as Hc. cbv zeta in Hc.
    destruct (itemType el) eqn:Et; destruct (data el) as [[prj|env pid|svc eid|d]|] eqn:Ed;
      try (rewrite Hc in Hi; by apply elem_of_nil in Hi).
    + destruct Hc as (envs & Hl & Hitems). rewrite Hitems in Hi.
      apply list_elem_of_fmap in Hi as (env & -> & Hin).
      destruct (environment_item_fields clock (project_id prj) env) as (Ht & Hd & Hs & Hx).
      rewrite Ht, Hd, Hs, Hx.
      split; [done|]. split; [done|]. split; [|split; [done|split]].
      * intros el' [= <-]. rewrite Ed. eauto.
      * split; [done|by intros [|]].
      * done.
    + destruct Hc as (svcs & Hl & Hitems). rewrite Hitems in Hi.
      apply list_elem_of_fmap in Hi as (svc & -> & Hin).
      destruct (service_item_fields clock (environment_id env) svc) as (Ht & Hd & Hs & Hx).
      rewrite Ht, Hd, Hs, Hx.
      split; [done|]. split; [done|]. split; [|split; [done|split]].
      * intros el' [= <-]. rewrite Ed. eauto.
      * split; [done|by intros [|]].
      * done.
    + destruct Hc as (ds & Hl & Hitems). rewrite Hitems in Hi.
      apply list_elem_of_fmap in Hi as (d & -> & Hin).
      destruct (deployment_item_fields clock d) as (Ht & Hd & Hs & Hx).
      rewrite Ht, Hd, Hs, Hx.
      split; [done|]. split; [done|]. split; [|split; [done|split]].
      * intros el' [= <-]. rewrite Ed. eauto.
      * split; [by left|done].
      * intros _ api' p0. apply getChildren_leaf. by left.
  - rewrite getChildren_root_provider. unfold getChildren in Hi. cbv zeta in Hi.
    destruct (length _ =? 0) eqn:El; cbn [fst snd] in Hi |- *.
    + apply list_elem_of_singleton in Hi as ->.
      split; [done|]. split; [done|]. split; [done|]. split; [|split].
      * intros _. cbn [data new_DeploymentTreeItem]. apply Nat.eqb_eq in El.
        by apply length_zero_iff_nil.
      * split; [by right|done].
      * intros _ api' p0. apply getChildren_leaf. by right.
    + apply list_elem_of_fmap in Hi as (prj & -> & Hin).
      destruct (project_item_fields clock prj) as (Ht & Hd & Hs & Hx).
      rewrite Ht, Hd, Hs, Hx.
      split; [done|]. split; [done|]. split; [done|]. split; [done|]. split; [|done].
      split; [done|by intros [|]].
Qed.
Lemma getChildren_levels_witness :
  environment_item Examples.clock0 "p1" Examples.env1
    ∈ (getChildren Examples.clock0 (Examples.api_with SUCCESS) initial
         (Some (project_item Examples.clock0 Examples.prj1))).1.1
  ∧ itemType (environment_item Examples.clock0 "p1" Examples.env1) = environment
  ∧ contextValue (environment_item Examples.clock0 "p1" Examples.env1) = "environment".
Proof.
  assert (Hin : environment_item Examples.clock0 "p1" Examples.env1
                  ∈ (getChildren Examples.clock0 (Examples.api_with SUCCESS) initial
                       (Some (project_item Examples.clock0 Examples.prj1))).1.1).
  { apply list_elem_of_singleton. reflexivity. }
  split; [exact Hin|].
  pose proof (getChildren_levels Examples.clock0 (Examples.api_with SUCCESS) initial
                (Some (project_item Examples.clock0 Examples.prj1))
                (environment_item Examples.clock0 "p1" Examples.env1) Hin) as H.
  cbv zeta in H. destruct H as (H1 & H2 & _).
  split; [exact H1 | exact H2].
Defined.

End TreeLevels.

(* ===================================================================== *)
(** * Calls of getChildren that overlap                                 *)
(* ===================================================================== *)

Section Overlap.
Import Host TreeProvider AsyncProvider.
#[local] Set Warnings "-clear-no-such-hyp".

(** An expansion that nothing interrupts is [getChildren]. *)
Lemma getChildren_start_resume clock api p element :
  getChildren clock api p element
  = match getChildren_start clock p element with
    | (returned items, t) => (items, p, t)
    | (suspended w, t) =>
        ((getChildren_resume clock api p w).1, (getChildren_resume clock api p w).2, t)
    end.
Proof.
  unfold getChildren, getChildren_start. destruct element as [el|].
  2:{ cbn [getChildren_resume]. cbv zeta. by destruct (_ =? _). }
  destruct (itemType el); destruct (data el) as [[prj|env pid|svc eid|d]|]; try done.
  - by destruct (environments p !! project_id prj).
  - by destruct (services p !! pid).
  - by destruct (map_get _ (deployments p)).
Qed.

Lemma resume_provider clock api p w :
  (getChildren_resume clock api p w).2
  = match w with
    | awaitProjects => set_projects (getProjects api) p
    | awaitEnvironments projectId =>
        set_environments (<[ projectId := getProjectEnvironments api projectId ]>
                            (environments p)) p
    | awaitServices projectId _ =>
        set_services (<[ projectId := getServices api projectId ]> (services p)) p
    | awaitDeployments serviceId environmentId =>
        set_deployments
          (map_set (deployments_key serviceId environmentId)
                   (getDeployments api serviceId environmentId) (deployments p)) p
    end.
Proof. destruct w; try done. cbn [getChildren_resume]. cbv zeta. by destruct (_ =? _). Qed.

Lemma start_cases clock p element :
  (∃ items, getChildren_start clock p element = (returned items, []))
  ∨ (∃ w, getChildren_start clock p element = (suspended w, [Call (awaited w)])
          ∧ stored (awaited w) p = false).
Proof.
  unfold getChildren_start. destruct element as [el|]; [|right; by exists awaitProjects].
  destruct (itemType el); destruct (data el) as [[prj|env pid|svc eid|d]|]; eauto.
  - destruct (environments p !! project_id prj) eqn:E; [eauto|]. right.
    exists (awaitEnvironments (project_id prj)). split; [done|]. cbn. rewrite E. apply bool_decide_eq_false. by intros [? ?].
  - destruct (services p !! pid) eqn:E; [eauto|]. right.
    exists (awaitServices pid (environment_id env)). split; [done|]. cbn. rewrite E. apply bool_decide_eq_false. by intros [? ?].
  - destruct (map_get _ (deployments p)) eqn:E; [eauto|]. right.
    exists (awaitDeployments (service_id svc) eid). split; [done|]. cbn. rewrite E. apply bool_decide_eq_false. by intros [? ?].
Qed.

Lemma map_get_set_is_Some {V} k k' (v : V) m :
  is_Some (map_get k m) → is_Some (map_get k (map_set k' v m)).
Proof.
  intros H. destruct (decide (k = k')) as [->|Hne].
  - rewrite map_get_set. eauto.
  - by rewrite map_get_set_ne.
Qed.

Lemma resume_keeps_stored clock api p w c :
  stored c p = true → stored c (getChildren_resume clock api p w).2 = true.
Proof.
  rewrite resume_provider. destruct c; try done; destruct w; try done; cbn;
    rewrite !bool_decide_eq_true.
  - intros H. destruct (decide (projectId = projectId0)) as [->|Hne].
    + rewrite lookup_insert_eq. eauto.
    + by rewrite lookup_insert_ne.
  - intros H. destruct (decide (projectId = projectId0)) as [->|Hne].
    + rewrite lookup_insert_eq. eauto.
    + by rewrite lookup_insert_ne.
  - apply map_get_set_is_Some.
Qed.

Lemma resume_stores clock api p w :
  cached (awaited w) = true → stored (awaited w) (getChildren_resume clock api p w).2 = true.
Proof.
  rewrite resume_provider. destruct w; try done; intros _; cbn; apply bool_decide_eq_true.
  - rewrite lookup_insert_eq. eauto.
  - rewrite lookup_insert_eq. eauto.
  - rewrite map_get_set. eauto.
Qed.

Lemma check_keeps_caches p :
  let p' := (checkDeploymentStatuses p).1 in
  projects p' = projects p ∧ environments p' = environments p
  ∧ services p' = services p ∧ deployments p' = deployments p.
Proof. unfold checkDeploymentStatuses. by destruct (fold_left _ _ _). Qed.

Lemma check_keeps_stored c p : stored c (checkDeploymentStatuses p).1 = stored c p.
Proof.
  destruct (check_keeps_caches p) as (_ & He & Hs & Hd). cbv zeta in *.
  destruct c; cbn; by rewrite ?He, ?Hs, ?Hd.
Qed.

Lemma no_calls_nil (f : Effect → bool) (t : list Effect) :
  (∀ x, f x = true → is_call x = true) → filter is_call t = [] → filter f t = [].
Proof.
  intros Hf. induction t as [|x t IH]; [done|].
  rewrite !filter_cons. destruct (decide (is_call x)) as [Hg|Hg]; [done|].
  intros Hl. rewrite decide_False; [by apply IH|].
  intros Hx. apply Hg. apply Is_true_true. apply Hf. by apply Is_true_true.
Qed.

Lemma calls_is_call c x : calls c x = true → is_call x = true.
Proof. by destruct x. Qed.

Lemma filter_calls_singleton c c' :
  length (filter (calls c) [Call c']) = if decide (c' = c) then 1 else 0.
Proof.
  rewrite filter_cons, filter_nil. cbn [calls].
  destruct (decide (c' = c)) as [->|Hne].
  - rewrite decide_True; [done|]. apply Is_true_true. by apply bool_decide_eq_true.
  - rewrite decide_False; [done|]. intros H. apply Is_true_true in H.
    by apply bool_decide_eq_true in H.
Qed.

Lemma in_flight_snoc c s w :
  in_flight c {| provider := provider s; waiting := waiting s ++ [w] |}
  = in_flight c s || bool_decide (awaited w = c).
Proof.
  unfold in_flight. cbn [waiting]. rewrite fmap_app. cbn [fmap list_fmap].
  apply eq_true_iff_eq. rewrite orb_true_iff, !bool_decide_eq_true.
  rewrite elem_of_app, list_elem_of_singleton. split; intros [?|?]; auto.
Qed.

Lemma in_flight_delete c p p' ws i w :
  ws !! i = Some w → awaited w ≠ c →
  in_flight c {| provider := p'; waiting := delete i ws |}
  = in_flight c {| provider := p; waiting := ws |}.
Proof.
  intros Hi Hw. unfold in_flight. cbn [waiting].
  apply eq_true_iff_eq. rewrite !bool_decide_eq_true.
  rewrite <- (take_drop_middle ws i w Hi) at 2.
  rewrite delete_take_drop, !fmap_app, fmap_cons, !elem_of_app, elem_of_cons.
  split; [intros [?|?]; auto|]. intros [?|[?|?]]; auto. congruence.
Qed.

(** What one step does to [due]. *)
Lemma step_due clock c s op :
  cached c = true →
  (if in_flight c s then 0 else length (filter (calls c) (step clock s op).2))
  + due c (step clock s op).1
  ≤ due c s + (if is_clear op then 1 else 0).
Proof.
  intros Hc. destruct op as [| | |element|i api]; cbn [step is_clear fst snd].
  - rewrite (no_calls_nil (calls c)); [|apply calls_is_call|apply flat_map_notify_no_call].
    unfold due, in_flight. cbn [provider waiting]. rewrite check_keeps_stored.
    destruct (bool_decide _); cbn [length]; lia.
  - change (filter (calls c) refresh) with (@nil Effect).
    destruct (in_flight c s); cbn [length]; lia.
  - change (filter (calls c) (clearCache (provider s)).2) with (@nil Effect).
    unfold due. destruct (in_flight c s); destruct (_ || _); destruct (_ || _);
      cbn [length]; lia.
  - destruct (start_cases clock (provider s) element) as [[items ->]|[w [-> Hw]]];
      cbn [fst snd].
    + rewrite filter_nil. destruct (in_flight c s); cbn [length]; lia.
    + rewrite filter_calls_singleton. unfold due at 1. cbn [provider].
      rewrite in_flight_snoc. unfold due.
      destruct (decide (awaited w = c)) as [<-|Hne].
      * rewrite Hw, bool_decide_true by done. rewrite orb_true_r. cbn [orb].
        destruct (in_flight (awaited w) s); lia.
      * rewrite (bool_decide_false (awaited w = c)) by done. rewrite orb_false_r.
        destruct (in_flight c s); destruct (stored c (provider s)); cbn [orb]; lia.
  - destruct (waiting s !! i) as [w|] eqn:Hi; cbn [fst snd]; rewrite filter_nil.
    2:{ destruct (in_flight c s); cbn [length]; lia. }
    cbn [length]. unfold due. cbn [provider].
    destruct (decide (awaited w = c)) as [<-|Hne].
    + rewrite resume_stores by done. cbn [orb]. destruct (in_flight (awaited w) s); lia.
    + rewrite (in_flight_delete c (provider s) _ (waiting s) i w Hi Hne).
      replace {| provider := provider s; waiting := waiting s |} with s by by destruct s.
      destruct (stored c (provider s)) eqn:Es.
      * rewrite resume_keeps_stored by done. cbn [orb]. destruct (in_flight c s); lia.
      * cbn [orb]. destruct (in_flight c s); [rewrite orb_true_r; cbn; lia|].
        destruct (stored c (getChildren_resume _ _ _ _).2); cbn; lia.
Qed.

Lemma async_run_cons clock s op ops :
  run clock s (op :: ops)
  = ((run clock (step clock s op).1 ops).1,
     (step clock s op).2 ++ (run clock (step clock s op).1 ops).2).
Proof. done. Qed.

Lemma run_due clock c ops : ∀ s,
  cached c = true →
  length (filter (calls c) (run clock s ops).2)
  ≤ length (filter is_clear ops) + due c s + overlapping clock c s ops.
Proof.
  induction ops as [|op ops IH]; intros s Hc.
  - cbn [run snd]. rewrite filter_nil. cbn [length]. lia.
  - rewrite async_run_cons. cbn [snd overlapping]. rewrite filter_app, length_app.
    specialize (IH (step clock s op).1 Hc).
    pose proof (step_due clock c s op Hc) as Hs.
    rewrite filter_cons. destruct op; cbn [is_clear] in *;
      rewrite ?decide_True by done; rewrite ?decide_False by (intros []);
      cbn [length]; destruct (in_flight c s); lia.
Qed.

Lemma step_root_calls clock s op :
  length (filter (calls callGetProjects) (step clock s op).2)
  = if is_root_call op then 1 else 0.
Proof.
  destruct op as [| | |element|i api]; cbn [step is_root_call fst snd].
  - by rewrite (no_calls_nil (calls callGetProjects));
      [|apply calls_is_call|apply flat_map_notify_no_call].
  - done.
  - done.
  - unfold getChildren_start. destruct element as [el|]; [|done].
    destruct (itemType el); destruct (data el) as [[prj|env pid|svc eid|d]|]; try done.
    + by destruct (environments (provider s) !! project_id prj).
    + by destruct (services (provider s) !! pid).
    + by destruct (map_get _ (deployments (provider s))).
  - by destruct (waiting s !! i).
Qed.

Lemma run_root_calls clock ops : ∀ s,
  length (filter (calls callGetProjects) (run clock s ops).2)
  = length (filter is_root_call ops).
Proof.
  induction ops as [|op ops IH]; intros s; [done|].
  rewrite async_run_cons. cbn [snd]. rewrite filter_app, length_app, step_root_calls, IH.
  rewrite filter_cons. destruct (is_root_call op) eqn:E.
  - rewrite decide_True by done. done.
  - rewrite decide_False by (intros []). done.
Qed.

Lemma environment_call_miss clock s projectId env :
  services (provider s) !! projectId = None →
  step clock s (call (Some (environment_item clock projectId env)))
  = ({| provider := provider s;
        waiting := waiting s ++ [awaitServices projectId (environment_id env)] |},
     [Call (callGetServices projectId)]).
Proof.
  intros H. cbn [step]. unfold getChildren_start.
  destruct (environment_item_fields clock projectId env) as (-> & -> & _).
  by rewrite H.
Qed.

Lemma settle_step clock s i api :
  (step clock s (settle i api)).2 = []
  ∧ waiting (step clock s (settle i api)).1 = delete i (waiting s).
Proof.
  cbn [step]. destruct (waiting s !! i) eqn:E; [done|].
  split; [done|]. cbn [fst]. apply lookup_ge_None in E.
  by rewrite delete_take_drop, take_ge, drop_ge, app_nil_r by lia.
Qed.

(** X16. With calls of [getChildren] that overlap, the API is called for
    a key (the environments or the services of a project, the deployments of
    a service and environment) at most once per refresh command, plus once
    if the key is neither stored nor on its way at the start, plus once for
    every call made while a call for the same key still waits. The last
    term is needed: two environments of one project expanded together call
    [getServices] twice. [getProjects] is called once for every request of
    the root. *)
Theorem fetched_once_per_refresh clock :
  (∀ ops s c,
     cached c = true →
     length (filter (calls c) (run clock s ops).2)
     ≤ length (filter is_clear ops) + due c s + overlapping clock c s ops)
  ∧ (∀ ops s,
       length (filter (calls callGetProjects) (run clock s ops).2)
       = length (filter is_root_call ops))
  ∧ (∀ p api env env' projectId,
       services p !! projectId = None →
       let both := [call (Some (environment_item clock projectId env));
                    call (Some (environment_item clock projectId env'));
                    settle 0 api; settle 0 api] in
       length (filter (calls (callGetServices projectId)) (run clock (quiet p) both).2) = 2
       ∧ overlapping clock (callGetServices projectId) (quiet p) both = 1
       ∧ waiting (run clock (quiet p) both).1 = []).
Proof.
  split; [|split].
  - intros ops s c Hc. by apply run_due.
  - intros ops s. apply run_root_calls.
  - intros p api env env' projectId Hmiss. cbv zeta.
    assert (H1 := environment_call_miss clock (quiet p) projectId env Hmiss).
    set (s1 := {| provider := p;
                  waiting := [awaitServices projectId (environment_id env)] |}).
    assert (H2 := environment_call_miss clock s1 projectId env' Hmiss).
    cbn [quiet provider waiting app] in H1.
    assert (Hin0 : in_flight (callGetServices projectId) (quiet p) = false).
    { apply bool_decide_eq_false. cbn. by intros ?%elem_of_nil. }
    assert (Hin1 : in_flight (callGetServices projectId) s1 = true).
    { apply bool_decide_eq_true. cbn. apply list_elem_of_here. }
    rewrite !async_run_cons. cbn [overlapping run fst snd]. rewrite Hin0. fold s1 in H1.
    rewrite H1. cbn [fst snd]. rewrite Hin1, H2. cbn [fst snd].
    set (s2 := {| provider := provider s1; waiting := _ |}).
    destruct (settle_step clock s2 0 api) as [E1 W1].
    destruct (settle_step clock (step clock s2 (settle 0 api)).1 0 api) as [E2 W2].
    rewrite E1, E2, W2, W1, !app_nil_r, filter_nil.
    change [Call (callGetServices projectId); Call (callGetServices projectId)]
      with ([Call (callGetServices projectId)] ++ [Call (callGetServices projectId)]).
    rewrite filter_app, length_app, !filter_calls_singleton, !decide_True by done.
    cbn. split; [done|]. split; [|done].
    repeat destruct (in_flight _ _); done.
Qed.
(** What a waiting call writes when it goes on, and what it leaves. *)
Lemma resume_environments clock api p w k :
  environments (getChildren_resume clock api p w).2 !! k
  = if decide (awaited w = callGetProjectEnvironments k)
    then Some (getProjectEnvironments api k) else environments p !! k.
Proof.
  rewrite resume_provider. destruct w; cbn [awaited];
    try (rewrite decide_False by done; done).
  destruct (decide (projectId = k)) as [->|Hne].
  - rewrite decide_True by done. cbn. apply lookup_insert_eq.
  - rewrite decide_False by congruence. cbn. by apply lookup_insert_ne.
Qed.

Lemma resume_services clock api p w k :
  services (getChildren_resume clock api p w).2 !! k
  = if decide (awaited w = callGetServices k)
    then Some (getServices api k) else services p !! k.
Proof.
  rewrite resume_provider. destruct w; cbn [awaited];
    try (rewrite decide_False by done; done).
  destruct (decide (projectId = k)) as [->|Hne].
  - rewrite decide_True by done. cbn. apply lookup_insert_eq.
  - rewrite decide_False by congruence. cbn. by apply lookup_insert_ne.
Qed.

Lemma resume_deployments clock api p w k :
  map_get k (deployments (getChildren_resume clock api p w).2)
  = match w with
    | awaitDeployments serviceId environmentId =>
        if decide (deployments_key serviceId environmentId = k)
        then Some (getDeployments api serviceId environmentId)
        else map_get k (deployments p)
    | _ => map_get k (deployments p)
    end.
Proof.
  rewrite resume_provider. destruct w; try done. cbn.
  destruct (decide _) as [<-|Hne]; [apply map_get_set|]. by apply map_get_set_ne.
Qed.

Lemma not_in_flight_lookup c s (i : nat) w :
  in_flight c s = false → waiting s !! i = Some w → awaited w ≠ c.
Proof.
  intros H Hi <-. apply bool_decide_eq_false in H. apply H.
  apply list_elem_of_fmap. exists w. split; [done|]. by eapply list_elem_of_lookup_2.
Qed.

Lemma not_target_lookup k (ws : list Suspended) (i : nat) w :
  Some k ∉ deployments_target <$> ws → ws !! i = Some w → deployments_target w ≠ Some k.
Proof.
  intros H Hi Hw. apply H. apply list_elem_of_fmap. exists w. split; [done|].
  by eapply list_elem_of_lookup_2.
Qed.

Lemma not_target_delete k (ws : list Suspended) i :
  Some k ∉ deployments_target <$> ws → Some k ∉ deployments_target <$> delete i ws.
Proof.
  intros H Hin. apply H. apply list_elem_of_fmap in Hin as (w & Hw & Hin).
  apply list_elem_of_fmap. exists w. split; [done|].
  rewrite delete_take_drop in Hin. apply elem_of_app in Hin as [Hin|Hin].
  - by eapply subseteq_take.
  - by eapply subseteq_drop.
Qed.

Lemma not_in_flight_delete c p p' (ws : list Suspended) i :
  in_flight c {| provider := p; waiting := ws |} = false →
  in_flight c {| provider := p'; waiting := delete i ws |} = false.
Proof.
  unfold in_flight. cbn [waiting]. rewrite !bool_decide_eq_false. intros H Hin. apply H.
  apply list_elem_of_fmap in Hin as (w & Hw & Hin).
  apply list_elem_of_fmap. exists w. split; [done|].
  rewrite delete_take_drop in Hin. apply elem_of_app in Hin as [Hin|Hin].
  - by eapply subseteq_take.
  - by eapply subseteq_drop.
Qed.

Lemma step_settled clock s op :
  is_clear op = false →
  (∀ k v, settled_environment s k v → settled_environment (step clock s op).1 k v)
  ∧ (∀ k v, settled_service s k v → settled_service (step clock s op).1 k v)
  ∧ (∀ k v, settled_deployment s k v → settled_deployment (step clock s op).1 k v).
Proof.
  intros Hop. destruct op as [| | |element|i api]; try done; cbn [step fst].
  - destruct (check_keeps_caches (provider s)) as (_ & He & Hs & Hd). cbv zeta in *.
    unfold settled_environment, settled_service, settled_deployment, in_flight.
    cbn [provider waiting]. by rewrite He, Hs, Hd.
  - destruct (start_cases clock (provider s) element) as [[items ->]|[w [-> Hw]]];
      cbn [fst]; [done|].
    unfold settled_environment, settled_service, settled_deployment.
    cbn [provider waiting]. split; [|split]; intros k v [Hk Hf]; (split; [done|]).
    + rewrite in_flight_snoc, Hf. cbn [orb]. apply bool_decide_eq_false. intros Heq.
      rewrite Heq in Hw. cbn in Hw. rewrite Hk in Hw.
      apply bool_decide_eq_false in Hw. apply Hw. eauto.
    + rewrite in_flight_snoc, Hf. cbn [orb]. apply bool_decide_eq_false. intros Heq.
      rewrite Heq in Hw. cbn in Hw. rewrite Hk in Hw.
      apply bool_decide_eq_false in Hw. apply Hw. eauto.
    + rewrite fmap_app. cbn [fmap list_fmap]. intros Hin.
      apply elem_of_app in Hin as [Hin|Hin]; [done|].
      apply list_elem_of_singleton in Hin. destruct w; try done.
      cbn in Hin, Hw. injection Hin as Hin. rewrite <- Hin, Hk in Hw.
      apply bool_decide_eq_false in Hw. apply Hw. eauto.
  - destruct (waiting s !! i) as [w|] eqn:Hi; cbn [fst]; [|done].
    unfold settled_environment, settled_service, settled_deployment.
    cbn [provider waiting]. split; [|split]; intros k v [Hk Hf]; split.
    + rewrite resume_environments, decide_False; [done|].
      by eapply not_in_flight_lookup.
    + apply (not_in_flight_delete _ (provider s)). by destruct s.
    + rewrite resume_services, decide_False; [done|].
      by eapply not_in_flight_lookup.
    + apply (not_in_flight_delete _ (provider s)). by destruct s.
    + rewrite resume_deployments.
      pose proof (not_target_lookup k _ i w Hf Hi) as Hne.
      destruct w; try done. rewrite decide_False; [done|]. cbn in Hne. congruence.
    + by apply not_target_delete.
Qed.

Lemma step_never_drops clock s op :
  is_clear op = false →
  (∀ k, is_Some (environments (provider s) !! k) →
        is_Some (environments (provider (step clock s op).1) !! k))
  ∧ (∀ k, is_Some (services (provider s) !! k) →
          is_Some (services (provider (step clock s op).1) !! k))
  ∧ (∀ k, is_Some (map_get k (deployments (provider s))) →
          is_Some (map_get k (deployments (provider (step clock s op).1)))).
Proof.
  intros Hop. destruct op as [| | |element|i api]; try done; cbn [step fst provider].
  - destruct (check_keeps_caches (provider s)) as (_ & -> & -> & ->). done.
  - by destruct (getChildren_start clock (provider s) element) as [[items|w] t].
  - destruct (waiting s !! i) as [w|]; cbn [fst provider]; [|done].
    split; [|split]; intros k Hk.
    + rewrite resume_environments. destruct (decide _); eauto.
    + rewrite resume_services. destruct (decide _); eauto.
    + rewrite resume_deployments. destruct w; try done. destruct (decide _); eauto.
Qed.

(** X15. [getChildren] reads the cache, waits for the API and writes the
    cache when the answer is there, so calls overlap. In a session without
    the refresh command, whatever overlaps, nothing stored is ever dropped;
    and an entry of the environments, the services or the deployments cache
    keeps its value when no waiting call is about to write its key. It need
    not otherwise: when a waiting call goes on, what it fetched replaces
    whatever is stored under its key. *)
Theorem cache_entries_survive clock ops : ∀ s,
  forallb (λ op, negb (is_clear op)) ops = true →
  let s' := (run clock s ops).1 in
  (∀ k, is_Some (environments (provider s) !! k) →
        is_Some (environments (provider s') !! k))
  ∧ (∀ k, is_Some (services (provider s) !! k) → is_Some (services (provider s') !! k))
  ∧ (∀ k, is_Some (map_get k (deployments (provider s))) →
          is_Some (map_get k (deployments (provider s'))))
  ∧ (∀ k v, environments (provider s) !! k = Some v →
            in_flight (callGetProjectEnvironments k) s = false →
            environments (provider s') !! k = Some v)
  ∧ (∀ k v, services (provider s) !! k = Some v →
            in_flight (callGetServices k) s = false →
            services (provider s') !! k = Some v)
  ∧ (∀ k v, map_get k (deployments (provider s)) = Some v →
            Some k ∉ deployments_target <$> waiting s →
            map_get k (deployments (provider s')) = Some v)
  ∧ (∀ i w api, waiting s !! i = Some w →
       let p' := provider (step clock s (settle i api)).1 in
       match w with
       | awaitProjects => projects p' = getProjects api
       | awaitEnvironments projectId =>
           environments p' !! projectId = Some (getProjectEnvironments api projectId)
       | awaitServices projectId _ =>
           services p' !! projectId = Some (getServices api projectId)
       | awaitDeployments serviceId environmentId =>
           map_get (deployments_key serviceId environmentId) (deployments p')
           = Some (getDeployments api serviceId environmentId)
       end).
Proof.
  intros s Hops.
  assert (Hsettled : ∀ ops s,
    forallb (λ op, negb (is_clear op)) ops = true →
    ((∀ k, is_Some (environments (provider s) !! k) →
           is_Some (environments (provider (run clock s ops).1) !! k))
     ∧ (∀ k, is_Some (services (provider s) !! k) →
             is_Some (services (provider (run clock s ops).1) !! k))
     ∧ (∀ k, is_Some (map_get k (deployments (provider s))) →
             is_Some (map_get k (deployments (provider (run clock s ops).1)))))
    ∧ (∀ k v, settled_environment s k v → settled_environment (run clock s ops).1 k v)
    ∧ (∀ k v, settled_service s k v → settled_service (run clock s ops).1 k v)
    ∧ (∀ k v, settled_deployment s k v → settled_deployment (run clock s ops).1 k v)).
  { clear. intros ops. induction ops as [|op ops IH]; intros s Hops; [done|].
    cbn [forallb] in Hops. apply andb_true_iff in Hops as [Hop Hops].
    apply negb_true_iff in Hop. rewrite async_run_cons. cbn [fst].
    destruct (IH (step clock s op).1 Hops) as ((I01 & I02 & I03) & I1 & I2 & I3).
    destruct (step_settled clock s op Hop) as (S1 & S2 & S3).
    destruct (step_never_drops clock s op Hop) as (D1 & D2 & D3).
    split; [split; [|split]|split; [|split]]; intros; eauto. }
  destruct (Hsettled ops s Hops) as ((H01 & H02 & H03) & H1 & H2 & H3). cbv zeta.
  split; [exact H01|]. split; [exact H02|]. split; [exact H03|].
  split; [|split; [|split]].
  - intros k v Hk Hf. by destruct (H1 k v (conj Hk Hf)).
  - intros k v Hk Hf. by destruct (H2 k v (conj Hk Hf)).
  - intros k v Hk Hf. by destruct (H3 k v (conj Hk Hf)).
  - intros i w api Hi. cbn [step]. rewrite Hi. cbn [fst provider].
    destruct w; [by rewrite resume_provider| | |].
    + rewrite resume_environments. by rewrite decide_True.
    + rewrite resume_services. by rewrite decide_True.
    + rewrite resume_deployments. by rewrite decide_True.
Qed.

Lemma cache_entries_survive_witness :
  forallb (λ op, negb (is_clear op))
    [call (Some (service_item Examples.clock0 "env1" Examples.svc1)); check;
     call None; settle 0 (Examples.api_with SUCCESS); fire] = true
  ∧ (Some "svc1-env1"
        ∉ deployments_target <$> waiting (quiet ProviderExamples.cached_building))
  ∧ map_get "svc1-env1"
      (deployments
         (provider
            (run Examples.clock0 (quiet ProviderExamples.cached_building)
               [call (Some (service_item Examples.clock0 "env1" Examples.svc1)); check;
                call None; settle 0 (Examples.api_with SUCCESS); fire]).1))
    = Some [Examples.d1 BUILDING].
Proof.
  assert (Hq : Some "svc1-env1"
                 ∉ deployments_target <$> waiting (quiet ProviderExamples.cached_building)).
  { cbn. apply not_elem_of_nil. }
  split; [reflexivity|]. split; [exact Hq|].
  destruct (cache_entries_survive Examples.clock0
              [call (Some (service_item Examples.clock0 "env1" Examples.svc1)); check;
               call None; settle 0 (Examples.api_with SUCCESS); fire]
              (quiet ProviderExamples.cached_building) eq_refl)
    as (_ & _ & _ & _ & _ & H & _).
  apply H; [reflexivity | exact Hq].
Defined.

End Overlap.

(* ===================================================================== *)
(** * The panel of the log viewer                                       *)
(* ===================================================================== *)

Section LogPanels.
Import Host TreeProvider LogViewer PanelFacts.

Lemma refreshLogs_no_panel_effect p :
  filter is_create (refreshLogs p) = [] ∧ filter is_dispose (refreshLogs p) = []
  ∧ filter is_reveal (refreshLogs p) = [].
Proof. done. Qed.

Lemma step_panels st ev :
  length (filter is_create (step st ev).2) + open_panels st
  = length (filter is_dispose (step st ev).2) + open_panels (step st ev).1.
Proof.
  unfold step, open_panels.
  destruct ev as [r ty|c|]; destruct (currentPanel st) as [p|] eqn:E;
    try (cbn; rewrite ?E; cbn; done).
  - destruct (c =? "refresh")%string; [cbn; by rewrite E|].
    destruct (c =? "toggleAutoRefresh")%string.
    + unfold toggleAutoRefresh. destruct (autoRefreshInterval p); done.
    + destruct (c =? "clearLogs")%string; cbn; by rewrite E.
  - unfold dispose. destruct (autoRefreshInterval p); done.
Qed.

Lemma run_cons st ev evs : run st (ev :: evs) = run (step st ev).1 evs.
Proof. done. Qed.

(** X21. In every run of the log viewer, the panels created are the panels
    disposed plus the one that is open: at most one panel exists. Every
    [createOrShow] either creates a panel or reveals the existing one, and
    nothing else does. *)
Theorem one_log_panel evs : ∀ st,
  length (filter is_create (effects st evs)) + open_panels st
  = length (filter is_dispose (effects st evs)) + open_panels (run st evs)
  ∧ open_panels (run st evs) ≤ 1
  ∧ length (filter is_create (effects st evs)) + length (filter is_reveal (effects st evs))
    = length (filter is_createOrShow evs).
Proof.
  induction evs as [|ev evs IH]; intros st.
  - cbn. unfold open_panels. destruct (currentPanel st); repeat split; lia.
  - rewrite run_cons. cbn [effects]. rewrite !filter_app, !length_app.
    destruct (IH (step st ev).1) as (I1 & I2 & I3).
    pose proof (step_panels st ev) as S1.
    split; [lia|]. split; [done|].
    rewrite filter_cons.
    assert (length (filter is_create (step st ev).2) + length (filter is_reveal (step st ev).2)
            = if is_createOrShow ev then 1 else 0) as Hc.
    { unfold step. destruct ev as [r ty|c|]; destruct (currentPanel st) as [p|]; try done.
      - destruct (c =? "refresh")%string; [done|].
        destruct (c =? "toggleAutoRefresh")%string.
        + unfold toggleAutoRefresh. destruct (autoRefreshInterval p); done.
        + destruct (c =? "clearLogs")%string; done.
      - unfold dispose. by destruct (autoRefreshInterval p). }
    destruct ev; cbn [is_createOrShow] in Hc.
    + rewrite decide_True by done. cbn [length]. lia.
    + rewrite decide_False by (intros []). lia.
    + rewrite decide_False by (intros []). lia.
Qed.

End LogPanels.

Section PanelTitle.
Import Host TreeProvider LogViewer PanelFacts TitleFacts.

Lemma effects_app evs1 : ∀ st evs2,
  effects st (evs1 ++ evs2) = effects st evs1 ++ effects (run st evs1) evs2.
Proof.
  induction evs1 as [|ev evs1 IH]; intros st evs2; [done|].
  cbn [app effects]. rewrite IH, app_assoc. done.
Qed.

Lemma titles_app t1 t2 : titles (t1 ++ t2) = titles t1 ++ titles t2.
Proof. apply omap_app. Qed.

Lemma titles_refreshLogs p : titles (refreshLogs p) = [].
Proof. done. Qed.

Lemma substring_length s : ∀ start len,
  String.length (String.substring start len s) ≤ len.
Proof.
  induction s as [|c s IH]; intros [|start] [|len]; simpl; try lia.
  - specialize (IH 0 len). lia.
  - apply IH.
  - apply IH.
Qed.

Lemma substring_nonempty s : s ≠ "" → String.substring 0 8 s ≠ "".
Proof. destruct s; [done|]. intros _. simpl. done. Qed.

Lemma nonempty_spec s : nonempty s = true ↔ s ≠ "".
Proof.
  unfold nonempty. rewrite negb_true_iff. split.
  - intros H ->. done.
  - intros H. by apply String.eqb_neq.
Qed.

Lemma short_id_spec r fallback :
  fallback ≠ "" → String.length fallback ≤ 8 →
  short_id r fallback ≠ "" ∧ String.length (short_id r fallback) ≤ 8.
Proof.
  intros Hf Hl. unfold short_id. destruct (nonempty (resource_id r)) eqn:E; [|done].
  apply nonempty_spec in E. split; [by apply substring_nonempty|apply substring_length].
Qed.

(** X22. In every run of the log viewer the last title given to the panel,
    when it was created or by [updateResource], is the title of the resource
    and the log type the panel now has. A title is its prefix followed by a
    name that is never empty, and for deployment logs at most eight
    characters long. *)
Theorem panel_title_in_sync tm evs :
  (∀ p, currentPanel (run (start tm) evs) = Some p →
        last (titles (effects (start tm) evs)) = Some (panel_title (logType p) (resource p)))
  ∧ (∀ ty r, ∃ suffix,
       panel_title ty r = title_prefix ty +:+ suffix
       ∧ suffix ≠ ""
       ∧ (ty = deploymentLogs → String.length suffix ≤ 8)).
Proof.
  split.
  - induction evs as [|ev evs IH] using rev_ind; [done|].
    intros p. rewrite run_app, effects_app, titles_app.
    cbn [run fold_left effects]. rewrite app_nil_r.
    set (st := run (start tm) evs) in *.
    unfold step. destruct ev as [r ty|c|]; destruct (currentPanel st) as [p0|] eqn:E.
    + cbn. intros [= <-]. cbn. by rewrite last_snoc.
    + cbn. intros [= <-]. cbn. by rewrite last_snoc.
    + destruct (c =? "refresh")%string.
      { cbn [fst snd]. rewrite E. intros [= <-]. rewrite titles_refreshLogs, app_nil_r. by apply IH. }
      destruct (c =? "toggleAutoRefresh")%string.
      { unfold toggleAutoRefresh. destruct (autoRefreshInterval p0); cbn;
          intros [= <-]; cbn; rewrite app_nil_r; by apply IH. }
      destruct (c =? "clearLogs")%string; cbn [fst snd]; rewrite E; intros [= <-];
        cbn; rewrite app_nil_r; by apply IH.
    + cbn [fst snd]. by rewrite E.
    + unfold dispose. by destruct (autoRefreshInterval p0).
    + cbn [fst snd]. by rewrite E.
  - intros ty r.
    destruct (short_id_spec r "Unknown") as [U1 U2]; [done|simpl; lia|].
    destruct (short_id_spec r "Service") as [S1 S2]; [done|simpl; lia|].
    unfold panel_title. destruct ty; cbn [title_prefix].
    + eexists. split; [reflexivity|]. split; [exact U1|intros _; exact U2].
    + eexists. split; [reflexivity|]. split; [|done].
      destruct (resource_name r) as [n|]; [|exact S1].
      destruct (nonempty n) eqn:E; [by apply nonempty_spec|exact S1].
Qed.

End PanelTitle.

(* ===================================================================== *)
(** * The nonce of the webview                                          *)
(* ===================================================================== *)

Section NonceFacts.
Import Nonce.

Lemma length_append (s t : string) :
  String.length (s +:+ t) = String.length s + String.length t.
Proof.
  induction s as [|c s IH]; [done|].
  change (S (String.length (s +:+ t)) = S (String.length s + String.length t)).
  by rewrite IH.
Qed.

Lemma chars_append (s t : string) : chars (s +:+ t) = chars s ++ chars t.
Proof.
  induction s as [|c s IH]; [done|].
  change (c :: chars (s +:+ t) = c :: (chars s ++ chars t)). by rewrite IH.
Qed.

Lemma get_chars (s : string) : ∀ i c, String.get i s = Some c → c ∈ chars s.
Proof.
  induction s as [|c' s IH]; intros [|i] c H; simpl in H; try done.
  - injection H as ->. apply list_elem_of_here.
  - apply list_elem_of_further. by apply (IH i).
Qed.

Lemma get_in_range (s : string) : ∀ i, i < String.length s → is_Some (String.get i s).
Proof.
  induction s as [|c s IH]; intros [|i] H; simpl in *; try lia; eauto.
  apply IH. lia.
Qed.

Lemma charAt_spec s i :
  String.length (charAt s i) ≤ 1
  ∧ (∀ c, c ∈ chars (charAt s i) → c ∈ chars s)
  ∧ (i < String.length s → String.length (charAt s i) = 1).
Proof.
  unfold charAt. destruct (String.get i s) as [c|] eqn:E.
  - split; [simpl; lia|]. split; [|done].
    intros c' Hc'. apply list_elem_of_singleton in Hc' as ->. by apply (get_chars s i).
  - split; [simpl; lia|]. split.
    + intros c Hc. by apply elem_of_nil in Hc.
    + intros Hi. destruct (get_in_range s i Hi) as [c Hc]. congruence.
Qed.

Lemma getNonce_loop_spec draws n : ∀ i text,
  String.length (getNonce_loop draws n i text) ≤ String.length text + n
  ∧ (∀ c, c ∈ chars (getNonce_loop draws n i text) → c ∈ chars text ∨ c ∈ chars possible)
  ∧ ((∀ k, i ≤ k < i + n → draws k < String.length possible) →
     String.length (getNonce_loop draws n i text) = String.length text + n).
Proof.
  induction n as [|n IH]; intros i text; cbn [getNonce_loop].
  - split; [lia|]. split; [auto|]. intros _. lia.
  - destruct (IH (S i) (text +:+ charAt possible (draws i))) as (I1 & I2 & I3).
    destruct (charAt_spec possible (draws i)) as (C1 & C2 & C3).
    rewrite length_append in *. split; [lia|]. split.
    + intros c Hc. apply I2 in Hc as [Hc|Hc]; [|by right].
      rewrite chars_append in Hc. apply elem_of_app in Hc as [Hc|Hc]; [by left|].
      right. by apply C2.
    + intros Hd. rewrite I3 by (intros k Hk; apply Hd; lia).
      rewrite C3 by (apply Hd; lia). lia.
Qed.

(** X23. Whatever [Math.random] returns, the nonce is made of characters
    of [possible] only, so of letters and digits, and is at most 32
    characters long; it is exactly 32 long when every index drawn is within
    [possible], as [Math.floor(Math.random() * possible.length)] is. *)
Theorem getNonce_alphanumeric draws :
  String.length (getNonce draws) ≤ 32
  ∧ (∀ c, c ∈ chars (getNonce draws) → c ∈ chars possible)
  ∧ ((∀ k, k < 32 → draws k < String.length possible) →
     String.length (getNonce draws) = 32).
Proof.
  unfold getNonce. destruct (getNonce_loop_spec draws 32 0 "") as (H1 & H2 & H3).
  split; [exact H1|]. split.
  - intros c Hc. apply H2 in Hc as [Hc|Hc]; [|done]. by apply elem_of_nil in Hc.
  - intros Hd. apply H3. intros k Hk. apply Hd. lia.
Qed.

End NonceFacts.
